(** * The change-proposal core of the knowledge-base editor

    A shallow embedding of the document store of
    [packages/web/src/components/layout/RightPane.tsx] (frontmatter
    parsing, the heading-based content locator, the patch applier and the
    pending-change state machine), of the "New document" action of the
    left pane and of the entity table access functions, followed by the
    properties the specification states about them.

    Modelling conventions.
    - A JavaScript string is a [list ascii]; a character is a UTF-16 code
      unit below 256 (the Latin-1 range), on which [toLowerCase], [trim]
      and the regular-expression classes are modelled exactly.  Strings
      with code units above 255 are outside the model.
    - [None] in a result of type [option _] stands for an abrupt
      completion (a thrown exception) or a loop that does not return.
    - [Date.now()] and [Math.random()] are read from an explicit [Env],
      one per call of a store operation.
    - A JavaScript object used as a record keeps its keys in insertion
      order; keys are assumed not to be canonical array indices and not to
      be names inherited from [Object.prototype]. *)

From Stdlib Require Import ZArith NArith Ascii String List Lia.
From Stdlib Require Import DecimalString DecimalZ DecimalPos.
From Stdlib Require QArith.
From stdpp Require Import base option list strings gmap sorting.

Set Default Proof Using "Type".

(** ** JavaScript strings *)

Abbreviation jstring := (list ascii).

Definition js (s : string) : jstring := list_ascii_of_string s.
Arguments js _%_string.

(** The code unit of a character; ranges are given by code: ['0'] is 48,
    ['1'] 49, ['6'] 54, ['9'] 57, ['A'] 65, ['Z'] 90, ['a'] 97, ['z'] 122. *)
Definition code (c : ascii) : N := N_of_ascii c.

Definition in_range (lo hi : N) (c : ascii) : bool :=
  ((lo <=? code c) && (code c <=? hi))%N.

(** The class [\s] and the characters stripped by [trim], restricted to
    Latin-1: TAB, LF, VT, FF, CR, SPACE and NBSP. *)
Definition is_space (c : ascii) : bool :=
  in_range 9 13 c || (code c =? 32)%N || (code c =? 160)%N.

(** [String.prototype.toLowerCase] on one Latin-1 code unit. *)
Definition lower_char (c : ascii) : ascii :=
  if in_range 65 90 c || (in_range 192 222 c && negb (code c =? 215)%N)
  then ascii_of_N (code c + 32) else c.

Definition toLowerCase (s : jstring) : jstring := map lower_char s.

Fixpoint startsWith (s t : jstring) {struct t} : bool :=
  match t, s with
  | [], _ => true
  | _ :: _, [] => false
  | a :: t', b :: s' => Ascii.eqb a b && startsWith s' t'
  end.

Fixpoint jeqb (s t : jstring) : bool :=
  match s, t with
  | [], [] => true
  | a :: s', b :: t' => Ascii.eqb a b && jeqb s' t'
  | _, _ => false
  end.

(** [s.indexOf(t)], with [None] for [-1]. *)
Fixpoint indexOf_from (s t : jstring) (i : nat) : option nat :=
  if startsWith s t then Some i
  else match s with
       | [] => None
       | _ :: s' => indexOf_from s' t (S i)
       end.

Definition indexOf (s t : jstring) : option nat := indexOf_from s t 0.

Definition includes (s t : jstring) : bool :=
  match indexOf s t with Some _ => true | None => false end.

(** [s.lastIndexOf(c)] for a one-character needle. *)
Fixpoint lastIndexOf_from (s : jstring) (c : ascii) (i : nat)
    (acc : option nat) : option nat :=
  match s with
  | [] => acc
  | a :: s' =>
      lastIndexOf_from s' c (S i) (if Ascii.eqb a c then Some i else acc)
  end.

Definition lastIndexOf (s : jstring) (c : ascii) : option nat :=
  lastIndexOf_from s c 0 None.

(** [s.substring(a, b)] for [a <= b]; [s.substring(a)] and [s.slice(a)]. *)
Definition substring (s : jstring) (a b : nat) : jstring :=
  take (b - a) (drop a s).

Definition charAt (s : jstring) (i : nat) : jstring := take 1 (drop i s).

(** [s.replace(pat, rep)] with a string pattern: the first occurrence. *)
Definition replace (s pat rep : jstring) : jstring :=
  match indexOf s pat with
  | None => s
  | Some i => take i s ++ rep ++ drop (i + length pat) s
  end.

Fixpoint trimStart (s : jstring) : jstring :=
  match s with
  | c :: s' => if is_space c then trimStart s' else s
  | [] => []
  end.

Definition trimEnd (s : jstring) : jstring := rev (trimStart (rev s)).

Definition trim (s : jstring) : jstring := trimEnd (trimStart s).

(** Decimal rendering of a number in a template literal. *)
Definition showZ (z : Z) : jstring :=
  js (NilZero.string_of_int (Z.to_int z)).

(** ** Regular expressions

    The fragment of the regular-expression language the source uses:
    sequences of character classes, greedy and lazy repetition of a
    class, greedy options and one capture group.  [rmatch] is the
    backtracking matcher with ECMAScript's priorities: a greedy
    repetition tries the longest run first, a lazy one the shortest, an
    option tries its body first. *)

Inductive regex : Type :=
| Eps
| Chr (p : ascii -> bool)
| Seq (r1 r2 : regex)
| Opt (r : regex)
| Star (p : ascii -> bool)
| StarLazy (p : ascii -> bool)
| Group (r : regex).

Section Matcher.
Context {R : Type}.

Fixpoint star_greedy (p : ascii -> bool) (s : jstring)
    (k : jstring -> option R) : option R :=
  match s with
  | c :: s' =>
      if p c then
        match star_greedy p s' k with
        | Some x => Some x
        | None => k s
        end
      else k s
  | [] => k []
  end.

Fixpoint star_lazy (p : ascii -> bool) (s : jstring)
    (k : jstring -> option R) : option R :=
  match k s with
  | Some x => Some x
  | None =>
      match s with
      | c :: s' => if p c then star_lazy p s' k else None
      | [] => None
      end
  end.

Fixpoint rmatch (r : regex) (s : jstring) (cap : option jstring)
    (k : option jstring -> jstring -> option R) : option R :=
  match r with
  | Eps => k cap s
  | Chr p =>
      match s with
      | c :: s' => if p c then k cap s' else None
      | [] => None
      end
  | Seq r1 r2 => rmatch r1 s cap (fun cap' s' => rmatch r2 s' cap' k)
  | Opt r1 =>
      match rmatch r1 s cap k with
      | Some x => Some x
      | None => k cap s
      end
  | Star p => star_greedy p s (k cap)
  | StarLazy p => star_lazy p s (k cap)
  | Group r1 =>
      rmatch r1 s cap
        (fun _ s' => k (Some (take (length s - length s') s)) s')
  end.
End Matcher.

(** The result of a successful match: [match.index], [match[0]] and
    [match[1]]. *)
Record RegExpMatch := {
  m_index : nat;
  m_text : jstring;
  m_group : option jstring
}.

(** A match attempt anchored at the head of [s], which sits at offset [i]
    of the subject. *)
Definition match_here (r : regex) (s : jstring) (i : nat)
    : option RegExpMatch :=
  rmatch r s None
    (fun cap s' =>
       Some {| m_index := i;
               m_text := take (length s - length s') s;
               m_group := cap |}).

(** Leftmost match at or after the head of [s]. *)
Fixpoint search_from (r : regex) (s : jstring) (i : nat)
    : option RegExpMatch :=
  match match_here r s i with
  | Some m => Some m
  | None =>
      match s with
      | [] => None
      | _ :: s' => search_from r s' (S i)
      end
  end.

(** [re.lastIndex = lastIndex; re.exec(content)] for a global regex. *)
Definition exec (r : regex) (content : jstring) (lastIndex : nat)
    : option RegExpMatch :=
  if length content <? lastIndex then None
  else search_from r (drop lastIndex content) lastIndex.

(** Outcome of a loop body or of a rule of a cascade. *)
Inductive outcome (A : Type) : Type :=
| Return (a : A)
| Continue.
Arguments Return {A} a.
Arguments Continue {A}.

(** [while ((match = re.exec(content)) !== null) { body }], where the body
    either returns from the enclosing function or falls to the next
    iteration.  [None]: the body threw, or the fuel ran out. *)
Fixpoint while_exec {A : Type} (fuel : nat) (re : regex) (content : jstring)
    (lastIndex : nat) (body : RegExpMatch -> option (outcome A))
    : option (outcome A) :=
  match fuel with
  | 0 => None
  | S fuel' =>
      match exec re content lastIndex with
      | None => Some Continue
      | Some m =>
          match body m with
          | None => None
          | Some (Return a) => Some (Return a)
          | Some Continue =>
              while_exec fuel' re content
                (m_index m + length (m_text m)) body
          end
      end
  end.

Definition chr (c : ascii) : regex := Chr (Ascii.eqb c).

(** A character of the pattern under the [i] flag. *)
Definition chr_i (c : ascii) : regex :=
  Chr (fun x => Ascii.eqb (lower_char x) (lower_char c)).

Fixpoint lit (s : jstring) : regex :=
  match s with
  | [] => Eps
  | [c] => chr c
  | c :: s' => Seq (chr c) (lit s')
  end.

Definition any_char (_ : ascii) : bool := true.
Definition is_not (c : ascii) (x : ascii) : bool := negb (Ascii.eqb x c).

Definition seqs (rs : list regex) : regex := foldr Seq Eps rs.

Definition LF : ascii := "010"%char.
Definition CR : ascii := "013"%char.

(** ** Frontmatter *)

Record FrontmatterResult := {
  fr_body : jstring;
  fr_frontmatter : gmap jstring jstring;
  fr_frontmatterRaw : option jstring
}.

(** [/^---\s*\r?\n([\s\S]*?)\r?\n---\s*\r?\n?/] *)
Definition frontmatterRegex : regex :=
  seqs [ lit (js "---"); Star is_space; Opt (chr CR); chr LF;
         Group (StarLazy any_char);
         Opt (chr CR); chr LF; lit (js "---"); Star is_space;
         Opt (chr CR); Opt (chr LF) ].

(** [raw.split(/\r?\n/)]; [cur] is the current line, reversed. *)
Fixpoint split_lines_go (s : jstring) (cur : jstring) : list jstring :=
  match s with
  | [] => [rev cur]
  | c :: s' =>
      if Ascii.eqb c LF then
        rev (match cur with
             | d :: cur' => if Ascii.eqb d CR then cur' else cur
             | [] => []
             end) :: split_lines_go s' []
      else split_lines_go s' (c :: cur)
  end.

Definition split_lines (s : jstring) : list jstring := split_lines_go s [].

(** The body of the [for (const line of ...)] loop of [parseFrontmatter].
    [frontmatter] is an object literal and [frontmatter[key] = value] an
    assignment: for the key [__proto__] it reaches the accessor of
    [Object.prototype], which ignores a string, and the object gets no
    entry. *)
Definition frontmatter_line (frontmatter : gmap jstring jstring)
    (line : jstring) : gmap jstring jstring :=
  let trimmed := trim line in
  if jeqb trimmed [] || startsWith trimmed (js "#") then frontmatter
  else match indexOf trimmed (js ":") with
       | None => frontmatter
       | Some separatorIndex =>
           let key := trim (take separatorIndex trimmed) in
           let value := trim (drop (separatorIndex + 1) trimmed) in
           if jeqb key [] then frontmatter
           else if jeqb key (js "__proto__") then frontmatter
           else <[key := value]> frontmatter
       end.

Definition parseFrontmatter (content : jstring) : FrontmatterResult :=
  let plain :=
    {| fr_body := content; fr_frontmatter := ∅; fr_frontmatterRaw := None |} in
  if negb (startsWith content (js "---")) then plain
  else match match_here frontmatterRegex content 0 with
       | None => plain
       | Some m =>
           let raw := default [] (m_group m) in
           {| fr_body := drop (length (m_text m)) content;
              fr_frontmatter := foldl frontmatter_line ∅ (split_lines raw);
              fr_frontmatterRaw := Some raw |}
       end.

Definition serializeDocumentContent (frontmatterRaw : option jstring)
    (body : jstring) : jstring :=
  match frontmatterRaw with
  | None | Some [] => body
  | Some raw =>
      let normalizedBody :=
        if startsWith body [LF] then drop 1 body else body in
      js "---" ++ [LF] ++ raw ++ [LF] ++ js "---" ++ [LF] ++ normalizedBody
  end.

(** ** Content locator *)

(** [/<h[1-6][^>]*>[^<]*<\/h[1-6]>/gi] *)
Definition headingRegex : regex :=
  seqs [ chr "<"; chr_i "h"; Chr (in_range 49 54); Star (is_not ">");
         chr ">"; Star (is_not "<");
         chr "<"; chr "/"; chr_i "h"; Chr (in_range 49 54); chr ">" ].

(** [new RegExp(`<h[1-${headingLevel}][^>]*>`, "gi")].  The constructor
    throws when the class range is out of order; levels other than a
    digit are outside the modelled fragment. *)
Definition nextHeadingRegex (headingLevel : jstring) : option regex :=
  match headingLevel with
  | [d] =>
      if in_range 49 57 d then
        Some (seqs [ chr "<"; chr_i "h"; Chr (in_range 49 (code d));
                     Star (is_not ">"); chr ">" ])
      else None
  | _ => None
  end.

(** [/<\/h[1-6]>/i] *)
Definition closingHeadingRegex : regex :=
  seqs [ chr "<"; chr "/"; chr_i "h"; Chr (in_range 49 54); chr ">" ].

Definition findInsertionPoint (content target : jstring) : option nat :=
  let lowerTarget := toLowerCase target in
  afterRule ←
    (if includes lowerTarget (js "after") then
       let searchTerm := trim (replace lowerTarget (js "after") []) in
       while_exec (S (length content)) headingRegex content 0
         (fun m =>
            if includes (toLowerCase (m_text m)) searchTerm then
              let lastMatchEnd := m_index m + length (m_text m) in
              let headingLevel := charAt (m_text m) 2 in
              re ← nextHeadingRegex headingLevel;
              match exec re content lastMatchEnd with
              | Some nextMatch => Some (Return (m_index nextMatch))
              | None => Some (Return (length content))
              end
            else Some Continue)
     else Some Continue);
  match afterRule with
  | Return n => Some n
  | Continue =>
      let beforeRule :=
        if includes lowerTarget (js "before") then
          let searchTerm := trim (replace lowerTarget (js "before") []) in
          let lowerContent := toLowerCase content in
          match indexOf lowerContent searchTerm with
          | Some index =>
              let beforeContent := substring content 0 index in
              match lastIndexOf beforeContent "<" with
              | Some lastTagStart => Return lastTagStart
              | None => Return index
              end
          | None => Continue
          end
        else Continue in
      match beforeRule with
      | Return n => Some n
      | Continue =>
          if includes lowerTarget (js "end") then Some (length content)
          else if includes lowerTarget (js "beginning")
                  || includes lowerTarget (js "start") then
            match search_from closingHeadingRegex content 0 with
            | Some m => Some (m_index m + 5)
            | None => Some 0
            end
          else Some (length content)
      end
  end.

Definition findAndReplace (content target newContent : jstring)
    : option jstring :=
  let lowerTarget := toLowerCase target in
  sectionRule ←
    (if includes lowerTarget (js "replace")
        || includes lowerTarget (js "delete") then
       let searchTerm :=
         trim (replace (replace (replace lowerTarget (js "replace") [])
                          (js "delete") []) (js "the") []) in
       while_exec (S (length content)) headingRegex content 0
         (fun m =>
            if includes (toLowerCase (m_text m)) searchTerm then
              let sectionStart := m_index m in
              let headingLevel := charAt (m_text m) 2 in
              re ← nextHeadingRegex headingLevel;
              let sectionEnd :=
                match exec re content (sectionStart + length (m_text m)) with
                | Some nextMatch => m_index nextMatch
                | None => length content
                end in
              Some (Return (substring content 0 sectionStart ++ newContent
                              ++ drop sectionEnd content))
            else Some Continue)
     else Some Continue);
  match sectionRule with
  | Return r => Some r
  | Continue => Some (content ++ [LF] ++ newContent)
  end.

(** ** Documents and pending changes *)

Record Document := {
  d_id : jstring;
  d_path : jstring;
  d_title : jstring;
  d_content : jstring;
  d_frontmatter : gmap jstring jstring;
  d_frontmatterRaw : option jstring;
  d_updatedAt : Z
}.

Inductive Operation := OpInsert | OpReplace | OpDelete | OpCreate.

Inductive Status := Pending | Applied | Dismissed.

Record PendingChange := {
  c_id : jstring;
  c_documentId : jstring;
  c_operation : Operation;
  c_target : jstring;
  c_content : jstring;
  c_description : jstring;
  c_status : Status
}.

(** [Omit<PendingChange, "id" | "status">] *)
Record ProposedChange := {
  p_documentId : jstring;
  p_operation : Operation;
  p_target : jstring;
  p_content : jstring;
  p_description : jstring
}.

Definition is_pending (c : PendingChange) : bool :=
  match c_status c with Pending => true | _ => false end.

Definition with_status (st : Status) (c : PendingChange) : PendingChange :=
  {| c_id := c_id c; c_documentId := c_documentId c;
     c_operation := c_operation c; c_target := c_target c;
     c_content := c_content c; c_description := c_description c;
     c_status := st |}.

(** A [Record<string, V>] with its keys in insertion order. *)
Section Obj.
Context {V : Type}.

Fixpoint obj_get (k : jstring) (o : list (jstring * V)) : option V :=
  match o with
  | [] => None
  | (k', v) :: o' => if jeqb k' k then Some v else obj_get k o'
  end.

(** [{ ...o, [k]: v }] *)
Fixpoint obj_set (k : jstring) (v : V) (o : list (jstring * V))
    : list (jstring * V) :=
  match o with
  | [] => [(k, v)]
  | (k', v') :: o' =>
      if jeqb k' k then (k, v) :: o' else (k', v') :: obj_set k v o'
  end.

(** [delete o[k]] *)
Fixpoint obj_delete (k : jstring) (o : list (jstring * V))
    : list (jstring * V) :=
  match o with
  | [] => []
  | (k', v) :: o' =>
      if jeqb k' k then obj_delete k o' else (k', v) :: obj_delete k o'
  end.

Definition obj_keys (o : list (jstring * V)) : list jstring := map fst o.
Definition obj_values (o : list (jstring * V)) : list V := map snd o.
End Obj.

(** [obj_get], [obj_set] and [obj_delete] are the own properties of a
    plain object, its string keys in insertion order.  JavaScript departs
    from them on three kinds of keys.  A read [o[k]] of a key that is no
    own property of [o] answers with the member of [Object.prototype] of
    that name, which is a function or an object and passes a test such as
    [if (doc)]: these names are the [inherited_key]s.  An assignment
    [o[k] = v] to the key [__proto__] reaches the accessor of
    [Object.prototype] and adds no property, and the keys that are array
    indices are listed in front of the other keys, in ascending order: a
    key that holds a character other than a decimal digit and is not
    [__proto__] is an [ordinary_key], bound and listed as [obj_set]
    does. *)
Definition inherited_key (k : jstring) : bool :=
  existsb (jeqb k)
    [js "constructor"; js "hasOwnProperty"; js "isPrototypeOf";
     js "propertyIsEnumerable"; js "toLocaleString"; js "toString";
     js "valueOf"; js "__proto__"; js "__defineGetter__";
     js "__defineSetter__"; js "__lookupGetter__"; js "__lookupSetter__"].

Definition ordinary_key (k : jstring) : bool :=
  existsb (fun c => negb (in_range 48 57 c)) k
  && negb (jeqb k (js "__proto__")).

(** ** Patch applier *)

Definition applyChangeToContent (content : jstring) (change : PendingChange)
    : option jstring :=
  match c_operation change with
  | OpInsert =>
      insertPoint ← findInsertionPoint content (c_target change);
      Some (substring content 0 insertPoint ++ [LF] ++ c_content change
              ++ drop insertPoint content)
  | OpReplace => findAndReplace content (c_target change) (c_content change)
  | OpDelete => findAndReplace content (c_target change) []
  | OpCreate => Some (content ++ [LF] ++ c_content change)
  end.

(** ** Document store *)

Record Env := {
  now : Z;               (* Date.now() *)
  now_again : Z;         (* Date.now(), read a second time in the same call *)
  random36 : jstring     (* Math.random().toString(36).slice(2, 8) *)
}.

(** Requests issued to the persistence layer.  They are awaited after the
    store has been updated and their failures are caught and logged, so
    they never feed back into the store. *)
Inductive TursoCall :=
| TursoCreateDocument (id path title serialized : jstring)
| TursoUpdateDocument (id serialized : jstring)
| TursoDeleteDocument (id : jstring).

Record DocumentStore := {
  documents : list (jstring * Document);
  currentDocumentId : option jstring;
  lastCreatedDocumentId : option jstring;
  pendingChanges : list PendingChange;
  isLoading : bool;
  isInitialized : bool;
  turso : list TursoCall
}.

Definition set_documents (docs : list (jstring * Document))
    (cur : option jstring) (last : option jstring) (call : TursoCall)
    (s : DocumentStore) : DocumentStore :=
  {| documents := docs; currentDocumentId := cur;
     lastCreatedDocumentId := last; pendingChanges := pendingChanges s;
     isLoading := isLoading s; isInitialized := isInitialized s;
     turso := turso s ++ [call] |}.

Definition set_pendingChanges (cs : list PendingChange) (s : DocumentStore)
    : DocumentStore :=
  {| documents := documents s; currentDocumentId := currentDocumentId s;
     lastCreatedDocumentId := lastCreatedDocumentId s; pendingChanges := cs;
     isLoading := isLoading s; isInitialized := isInitialized s;
     turso := turso s |}.

Definition is_slug_char (c : ascii) : bool :=
  in_range 97 122 c || in_range 48 57 c.

(** [.replace(/[^a-z0-9]+/g, "-")]; [in_run] tells that the previous
    character already belongs to the run being replaced. *)
Fixpoint collapse_runs (s : jstring) (in_run : bool) : jstring :=
  match s with
  | [] => []
  | c :: s' =>
      if is_slug_char c then c :: collapse_runs s' false
      else if in_run then collapse_runs s' true
      else "-"%char :: collapse_runs s' true
  end.

Definition strip_leading_hyphen (s : jstring) : jstring :=
  match s with
  | c :: s' => if Ascii.eqb c "-" then s' else s
  | [] => []
  end.

(** [.replace(/(^-|-$)/g, "")] *)
Definition strip_hyphens (s : jstring) : jstring :=
  rev (strip_leading_hyphen (rev (strip_leading_hyphen s))).

Definition slugify (title : jstring) : jstring :=
  strip_hyphens (collapse_runs (toLowerCase title) false).

Definition newDocumentId (e : Env) : jstring :=
  js "doc-" ++ showZ (now e) ++ js "-" ++ random36 e.

Definition createDocument (e : Env) (title content : jstring)
    (s : DocumentStore) : jstring * DocumentStore :=
  let id := newDocumentId e in
  let slug := slugify title in
  let path := js "/docs/" ++ slug ++ js ".md" in
  let parsed := parseFrontmatter content in
  let serialized :=
    serializeDocumentContent (fr_frontmatterRaw parsed) (fr_body parsed) in
  let newDoc :=
    {| d_id := id; d_path := path; d_title := title;
       d_content := fr_body parsed;
       d_frontmatter := fr_frontmatter parsed;
       d_frontmatterRaw := fr_frontmatterRaw parsed;
       d_updatedAt := now_again e |} in
  (id,
   set_documents (obj_set id newDoc (documents s)) (Some id) (Some id)
     (TursoCreateDocument id path title serialized) s).

(** [updateDocument] spreads the stored document into the updated one.
    For an id that is not in the store the source leaves an object without
    [id], [path] and [title], which is not a [Document]: [None]. *)
Definition updateDocument (e : Env) (documentId content : jstring)
    (s : DocumentStore) : option DocumentStore :=
  existing ← obj_get documentId (documents s);
  let parsed := parseFrontmatter content in
  let hasNewFrontmatter :=
    match fr_frontmatterRaw parsed with Some _ => true | None => false end in
  let frontmatterRaw :=
    match fr_frontmatterRaw parsed with
    | Some raw => Some raw
    | None => d_frontmatterRaw existing
    end in
  let frontmatter :=
    match fr_frontmatterRaw parsed with
    | Some (_ :: _) => fr_frontmatter parsed
    | _ => d_frontmatter existing
    end in
  let body := if hasNewFrontmatter then fr_body parsed else content in
  let serialized := serializeDocumentContent frontmatterRaw body in
  let doc :=
    {| d_id := d_id existing; d_path := d_path existing;
       d_title := d_title existing; d_content := body;
       d_frontmatter := frontmatter; d_frontmatterRaw := frontmatterRaw;
       d_updatedAt := now e |} in
  Some (set_documents (obj_set documentId doc (documents s))
          (currentDocumentId s) (lastCreatedDocumentId s)
          (TursoUpdateDocument documentId serialized) s).

Definition opt_jeqb (a : option jstring) (b : jstring) : bool :=
  match a with Some x => jeqb x b | None => false end.

Definition deleteDocument (documentId : jstring) (s : DocumentStore)
    : DocumentStore :=
  let rest := obj_delete documentId (documents s) in
  set_documents rest
    (if opt_jeqb (currentDocumentId s) documentId then
       match obj_keys rest with
       | (_ :: _) as k :: _ => Some k
       | _ => None
       end
     else currentDocumentId s)
    (lastCreatedDocumentId s) (TursoDeleteDocument documentId) s.

(** The callback of [changes.map] reads the clock once per change:
    [clock index] is the reading for the change at [index]. *)
Definition setPendingChanges (clock : nat -> Z)
    (changes : list ProposedChange) (s : DocumentStore) : DocumentStore :=
  set_pendingChanges
    (imap (fun index change =>
             {| c_id := js "change-" ++ showZ (clock index) ++ js "-"
                          ++ showZ (Z.of_nat index);
                c_documentId := p_documentId change;
                c_operation := p_operation change;
                c_target := p_target change;
                c_content := p_content change;
                c_description := p_description change;
                c_status := Pending |}) changes) s.

Definition mark (st : Status) (changeId : jstring) (s : DocumentStore)
    : DocumentStore :=
  set_pendingChanges
    (map (fun c => if jeqb (c_id c) changeId then with_status st c else c)
       (pendingChanges s)) s.

Definition is_create (op : Operation) : bool :=
  match op with OpCreate => true | _ => false end.
Definition is_delete (op : Operation) : bool :=
  match op with OpDelete => true | _ => false end.

(** [applyChange].  The test [if (doc)] reads
    [state.documents[change.documentId]], modelled by [obj_get]: the two
    agree on every [documentId] that is no [inherited_key].  For an
    inherited key that is not in the store the source finds the member of
    [Object.prototype], whose [content] is undefined, where [obj_get]
    finds nothing. *)
Definition applyChange (e : Env) (changeId : jstring) (s : DocumentStore)
    : option DocumentStore :=
  match find (fun c => jeqb (c_id c) changeId) (pendingChanges s) with
  | None => Some s
  | Some change =>
      if negb (is_pending change) then Some s
      else
        s' ←
          (if is_create (c_operation change)
              || jeqb (c_documentId change) (js "new") then
             Some (createDocument e (c_target change) (c_content change) s).2
           else if is_delete (c_operation change) then
             Some (deleteDocument (c_documentId change) s)
           else
             match obj_get (c_documentId change) (documents s) with
             | Some doc =>
                 newContent ← applyChangeToContent (d_content doc) change;
                 updateDocument e (c_documentId change) newContent s
             | None => Some s
             end);
        Some (mark Applied changeId s')
  end.

Definition dismissChange (changeId : jstring) (s : DocumentStore)
    : DocumentStore :=
  mark Dismissed changeId s.

(** [forEach((c) => get().applyChange(c.id))]; the [i]-th call reads the
    clock and the random source at [envs i]. *)
Fixpoint applyEach (envs : nat -> Env) (i : nat) (ids : list jstring)
    (s : DocumentStore) : option DocumentStore :=
  match ids with
  | [] => Some s
  | id :: ids' =>
      s' ← applyChange (envs i) id s;
      applyEach envs (S i) ids' s'
  end.

Definition applyAllChanges (envs : nat -> Env) (s : DocumentStore)
    : option DocumentStore :=
  applyEach envs 0 (map c_id (List.filter is_pending (pendingChanges s))) s.

Definition dismissAllChanges (s : DocumentStore) : DocumentStore :=
  set_pendingChanges
    (map (fun c => if is_pending c then with_status Dismissed c else c)
       (pendingChanges s)) s.

Definition getChangesForDocument (documentId : jstring) (s : DocumentStore)
    : list PendingChange :=
  List.filter (fun c => jeqb (c_documentId c) documentId && is_pending c)
    (pendingChanges s).

Definition hasPendingChanges (s : DocumentStore) : bool :=
  existsb is_pending (pendingChanges s).

(** ** The "New document" action *)

(** [while (existingTitles.has(title)) { ... }] *)
Fixpoint untitled_loop (fuel : nat) (existingTitles : gset jstring)
    (baseTitle title : jstring) (suffix : Z) : option jstring :=
  match fuel with
  | 0 => None
  | S fuel' =>
      if bool_decide (title ∈ existingTitles) then
        untitled_loop fuel' existingTitles baseTitle
          (baseTitle ++ js " " ++ showZ suffix) (suffix + 1)
      else Some title
  end.

Definition handleNewDocument (e : Env) (s : DocumentStore)
    : option DocumentStore :=
  let baseTitle := js "Untitled" in
  let existingTitles : gset jstring :=
    list_to_set (map d_title (obj_values (documents s))) in
  title ← untitled_loop (S (size existingTitles)) existingTitles
             baseTitle baseTitle 2;
  Some (createDocument e title
          (js "<h1>" ++ title ++ js "</h1>" ++ [LF] ++ js "<p></p>") s).2.

(** ** Entities

    [Value] stands for the JSON values of [Record<string, unknown>]; the
    [properties] column holds [JSON.stringify] of the mapping and every
    read applies [JSON.parse], which is modelled as storing the mapping
    itself. *)

Inductive EntityType := person | organization | project | event.

Section Entities.
Context {Value : Type}.

Record Entity := {
  e_id : jstring;
  e_type : EntityType;
  e_name : jstring;
  e_properties : gmap jstring Value;
  e_created_at : Z;
  e_updated_at : Z
}.

(** A row of the [entities] table ([id] is its primary key); the table
    is the list of its rows in rowid order. *)
Record EntityRow := {
  r_id : jstring;
  r_type : EntityType;
  r_name : jstring;
  r_properties : gmap jstring Value;
  r_confidence : QArith_base.Q;
  r_created_at : Z;
  r_updated_at : Z
}.

(** The [updates] argument of [updateEntity]: [None] is an absent key. *)
Record EntityUpdates := {
  u_name : option jstring;
  u_properties : option (gmap jstring Value)
}.

Definition entity_of_row (row : EntityRow) : Entity :=
  {| e_id := r_id row; e_type := r_type row; e_name := r_name row;
     e_properties := r_properties row;
     e_created_at := r_created_at row;
     e_updated_at := r_updated_at row |}.

(** [SELECT * FROM entities WHERE id = ?], then [result.rows[0]]. *)
Definition getEntity (id : jstring) (table : list EntityRow)
    : option Entity :=
  entity_of_row <$> head (List.filter (fun row => jeqb (r_id row) id) table).

(** The data-access [updateEntity]; [None] is the thrown
    [Entity not found]. *)
Definition db_updateEntity (e : Env) (id : jstring)
    (updates : EntityUpdates) (table : list EntityRow)
    : option (list EntityRow) :=
  entity ← getEntity id table;
  let newName := default (e_name entity) (u_name updates) in
  let newProperties :=
    default (e_properties entity) (u_properties updates) in
  Some (map (fun row =>
               if jeqb (r_id row) id then
                 {| r_id := r_id row; r_type := r_type row;
                    r_name := newName; r_properties := newProperties;
                    r_confidence := r_confidence row;
                    r_created_at := r_created_at row;
                    r_updated_at := now e |}
               else row) table).

Record EntityStore := {
  entities_table : list EntityRow;          (* the persisted table *)
  entities : gmap jstring Entity;           (* the store's [entities] *)
  currentEntityId : option jstring
}.

(** The store's [updateEntity]: the awaited data-access call, then the
    local merge [{ ...state.entities[entityId], ...updates, updated_at }].
    [e1] is the environment of the first call of [Date.now()], [e2] of
    the second.  As for documents, spreading a missing store entry leaves
    an object that is not an [Entity]: [None]. *)
Definition updateEntity (e1 e2 : Env) (entityId : jstring)
    (updates : EntityUpdates) (s : EntityStore) : option EntityStore :=
  table' ← db_updateEntity e1 entityId updates (entities_table s);
  old ← entities s !! entityId;
  let merged :=
    {| e_id := e_id old; e_type := e_type old;
       e_name := default (e_name old) (u_name updates);
       e_properties := default (e_properties old) (u_properties updates);
       e_created_at := e_created_at old;
       e_updated_at := now e2 |} in
  Some {| entities_table := table';
          entities := <[entityId := merged]> (entities s);
          currentEntityId := currentEntityId s |}.

(** SQLite's [LIKE]: [%] matches any run of characters, [_] one
    character, and letters of the ASCII range match without regard to
    case. *)
Definition sqlite_fold (c : ascii) : ascii :=
  if in_range 65 90 c then ascii_of_N (code c + 32) else c.

Fixpoint like (pattern s : jstring) : bool :=
  match pattern with
  | [] => match s with [] => true | _ => false end
  | p :: pattern' =>
      if Ascii.eqb p "%" then
        (fix any (s : jstring) : bool :=
           like pattern' s
           || match s with [] => false | _ :: s' => any s' end) s
      else match s with
           | [] => false
           | c :: s' =>
               (Ascii.eqb p "_" || Ascii.eqb (sqlite_fold p) (sqlite_fold c))
               && like pattern' s'
           end
  end.

(** [ORDER BY name] under the BINARY collation. *)
Fixpoint name_leb (a b : jstring) : bool :=
  match a, b with
  | [], _ => true
  | _ :: _, [] => false
  | x :: a', y :: b' =>
      (code x <? code y)%N || ((code x =? code y)%N && name_leb a' b')
  end.

Definition row_le (a b : EntityRow) : Prop := name_leb (r_name a) (r_name b).

(** [SELECT * FROM entities WHERE name LIKE ? ORDER BY name LIMIT 20]
    with the argument [`%${query}%`]. *)
Definition searchEntities (query : jstring) (table : list EntityRow)
    : list Entity :=
  let pattern := js "%" ++ query ++ js "%" in
  let rows := List.filter (fun row => like pattern (r_name row)) table in
  map entity_of_row (take 20 (merge_sort row_le rows)).
End Entities.

Arguments Entity : clear implicits.
Arguments EntityRow : clear implicits.
Arguments EntityUpdates : clear implicits.
Arguments EntityStore : clear implicits.

(** ** Notions used in the statements *)

(** The words a regular expression denotes. *)
Fixpoint lang (r : regex) (w : jstring) : Prop :=
  match r with
  | Eps => w = []
  | Chr p => exists c, w = [c] /\ p c = true
  | Seq r1 r2 => exists u v, w = u ++ v /\ lang r1 u /\ lang r2 v
  | Opt r1 => w = [] \/ lang r1 w
  | Star p | StarLazy p => Forall (fun c => p c = true) w
  | Group r1 => lang r1 w
  end.


(** A frontmatter block written as [key: value] lines, and a document that
    starts with such a block. *)
Definition kv_line (kv : jstring * jstring) : jstring :=
  kv.1 ++ js ": " ++ kv.2.

Fixpoint join_lines (ls : list jstring) : jstring :=
  match ls with
  | [] => []
  | [l] => l
  | l :: ls' => l ++ [LF] ++ join_lines ls'
  end.

Definition frontmatter_block (kvs : list (jstring * jstring)) : jstring :=
  join_lines (map kv_line kvs).

Definition frontmatter_document (block body : jstring) : jstring :=
  js "---" ++ [LF] ++ block ++ [LF] ++ js "---" ++ [LF] ++ body.

Definition no_line_break (s : jstring) : bool :=
  forallb (fun c => negb (Ascii.eqb c LF) && negb (Ascii.eqb c CR)) s.

(** A key and a value hold no line break, and a key does not start with
    the delimiter [---]. *)
Definition valid_kv (kv : jstring * jstring) : bool :=
  no_line_break kv.1 && no_line_break kv.2
  && negb (startsWith kv.1 (js "---")).

(** The body does not start with white space. *)
Definition body_start_ok (body : jstring) : bool :=
  match body with
  | c :: _ => negb (is_space c)
  | [] => true
  end.

(** No carriage return, and no line after the first that starts with the
    delimiter [---]. *)
Fixpoint block_ok (fm : jstring) : bool :=
  match fm with
  | [] => true
  | c :: fm' =>
      negb (Ascii.eqb c CR)
      && negb (Ascii.eqb c LF && startsWith fm' (js "---"))
      && block_ok fm'
  end.



(** A pending insertion at the end of document [d]. *)
Definition insert_at_end (id d content description : jstring) : PendingChange :=
  {| c_id := id; c_documentId := d; c_operation := OpInsert;
     c_target := js "at the end"; c_content := content;
     c_description := description; c_status := Pending |}.

(** A store with one document and two pending insertions at its end. *)
Definition example_env : Env :=
  {| now := 1700; now_again := 1701; random36 := js "abc123" |}.

Definition example_document : Document :=
  {| d_id := js "d1"; d_path := js "/docs/untitled.md";
     d_title := js "Untitled"; d_content := js "<h1>X</h1>";
     d_frontmatter := ∅; d_frontmatterRaw := None; d_updatedAt := 0 |}.

Definition example_store (changes : list PendingChange) : DocumentStore :=
  {| documents := [(js "d1", example_document)];
     currentDocumentId := Some (js "d1"); lastCreatedDocumentId := None;
     pendingChanges := changes; isLoading := false; isInitialized := true;
     turso := [] |}.

(** The document [createDocument] adds to the store. *)
Definition created_document (e : Env) (title content : jstring) : Document :=
  {| d_id := newDocumentId e;
     d_path := js "/docs/" ++ slugify title ++ js ".md";
     d_title := title;
     d_content := fr_body (parseFrontmatter content);
     d_frontmatter := fr_frontmatter (parseFrontmatter content);
     d_frontmatterRaw := fr_frontmatterRaw (parseFrontmatter content);
     d_updatedAt := now_again e |}.

(** The shape of a slug: lower-case letters, digits and hyphens, no two
    hyphens in a row, no hyphen at either end. *)
Definition slug_shape (slug : jstring) : Prop :=
  Forall (fun c => is_slug_char c || Ascii.eqb c "-" = true) slug
  /\ (forall u v, slug <> u ++ js "--" ++ v)
  /\ head slug <> Some "-"%char
  /\ last slug <> Some "-"%char.

(** No two hyphens in a row, as a test and as a property. *)
Fixpoint no_double_hyphen (s : jstring) : bool :=
  match s with
  | a :: s' =>
      match s' with
      | b :: _ => negb (Ascii.eqb a "-" && Ascii.eqb b "-")
      | [] => true
      end && no_double_hyphen s'
  | [] => true
  end.

Definition nodh (s : jstring) : Prop := forall u v, s <> u ++ js "--" ++ v.

(** A pending create change, and a pending change of any kind. *)
Definition example_create : PendingChange :=
  {| c_id := js "c1"; c_documentId := js "new"; c_operation := OpCreate;
     c_target := js "Untitled"; c_content := js "<p>hi</p>";
     c_description := []; c_status := Pending |}.

Definition example_change (documentId : jstring) (op : Operation)
    (target content : jstring) : PendingChange :=
  {| c_id := js "c1"; c_documentId := documentId; c_operation := op;
     c_target := target; c_content := content;
     c_description := []; c_status := Pending |}.

(** The characters in front of the first [c], and the text from the first
    [c] on. *)
Fixpoint take_while_not (c : ascii) (s : jstring) : jstring :=
  match s with
  | a :: s' => if Ascii.eqb a c then [] else a :: take_while_not c s'
  | [] => []
  end.

Fixpoint drop_until (c : ascii) (s : jstring) : jstring :=
  match s with
  | a :: s' => if Ascii.eqb a c then s else drop_until c s'
  | [] => []
  end.

(** The successive matches a loop over [re.exec(content)] sees. *)
Fixpoint matches_from (fuel : nat) (re : regex) (content : jstring)
    (lastIndex : nat) : list RegExpMatch :=
  match fuel with
  | 0 => []
  | S fuel' =>
      match exec re content lastIndex with
      | None => []
      | Some m =>
          m :: matches_from fuel' re content (m_index m + length (m_text m))
      end
  end.

(** The headings of a document, in document order. *)
Definition headings (content : jstring) : list RegExpMatch :=
  matches_from (S (length content)) headingRegex content 0.

(** A heading matches a search term when its markup (opening tag, text and
    closing tag), in lower case, contains the term. *)
Definition heading_hit (searchTerm : jstring) (m : RegExpMatch) : bool :=
  includes (toLowerCase (m_text m)) searchTerm.

(** The first outcome of a loop body over a list of matches. *)
Fixpoint first_outcome {A : Type} (body : RegExpMatch -> option (outcome A))
    (ms : list RegExpMatch) : option (outcome A) :=
  match ms with
  | [] => Some Continue
  | m :: ms' =>
      match body m with
      | None => None
      | Some (Return a) => Some (Return a)
      | Some Continue => first_outcome body ms'
      end
  end.

(** [s] starts with the opening tag of a heading of level 1 to [level]:
    [<h] or [<H], a digit of that range, and a [>] further on. *)
Definition opening_tag (level : ascii) (s : jstring) : bool :=
  match s with
  | a :: b :: c :: rest =>
      Ascii.eqb a "<" && (Ascii.eqb b "h" || Ascii.eqb b "H")
      && in_range 49 (code level) c
      && existsb (Ascii.eqb ">") rest
  | _ => false
  end.

(** [e] is where the section of a heading of level [level] ends, searching
    from offset [from]: the first offset at or after [from] where a
    heading of equal or shallower level opens, or the end of the document
    if there is none. *)
Definition section_end (content : jstring) (from : nat) (level : ascii)
    (e : nat) : Prop :=
  (from <= e <= length content
   /\ opening_tag level (drop e content) = true
   /\ forall j, from <= j < e -> opening_tag level (drop j content) = false)
  \/ (e = length content
      /\ forall j, from <= j <= length content ->
           opening_tag level (drop j content) = false).

(** The text of a heading: what stands between its opening tag and its
    closing tag. *)
Definition heading_text (m : RegExpMatch) : jstring :=
  take_while_not "<" (drop 1 (drop_until ">" (m_text m))).

(** The search terms of the locator. *)
Definition after_term (target : jstring) : jstring :=
  trim (replace (toLowerCase target) (js "after") []).
Definition before_term (target : jstring) : jstring :=
  trim (replace (toLowerCase target) (js "before") []).
Definition section_term (target : jstring) : jstring :=
  trim (replace (replace (replace (toLowerCase target) (js "replace") [])
                  (js "delete") []) (js "the") []).

(** The rules of the classification cascades. *)
Definition after_rule_applies (content target : jstring) : bool :=
  includes (toLowerCase target) (js "after")
  && existsb (heading_hit (after_term target)) (headings content).

Definition before_rule_applies (content target : jstring) : bool :=
  includes (toLowerCase target) (js "before")
  && includes (toLowerCase content) (before_term target).

Definition end_rule_applies (target : jstring) : bool :=
  includes (toLowerCase target) (js "end").

Definition start_rule_applies (target : jstring) : bool :=
  includes (toLowerCase target) (js "beginning")
  || includes (toLowerCase target) (js "start").

Definition section_rule_applies (content target : jstring) : bool :=
  (includes (toLowerCase target) (js "replace")
   || includes (toLowerCase target) (js "delete"))
  && existsb (heading_hit (section_term target)) (headings content).

(** The expression [nextHeadingRegex] builds for the level digit [d]. *)
Definition next_regex (d : ascii) : regex :=
  seqs [ chr "<"; chr_i "h"; Chr (in_range 49 (code d));
         Star (is_not ">"); chr ">" ].

(** The example of the specification and its headings. *)
Definition example_content : jstring :=
  js "<h1>T</h1><h2>A</h2><p>1</p><h3>B</h3><p>2</p><h2>C</h2>".

Definition example_headings : list RegExpMatch :=
  [ {| m_index := 0; m_text := js "<h1>T</h1>"; m_group := None |};
    {| m_index := 10; m_text := js "<h2>A</h2>"; m_group := None |};
    {| m_index := 28; m_text := js "<h3>B</h3>"; m_group := None |};
    {| m_index := 46; m_text := js "<h2>C</h2>"; m_group := None |} ].

(** The reading of [findAndReplace] that tests the text of a heading, as
    the specification words it, instead of its markup. *)
Definition findAndReplace_by_text (content target newContent : jstring)
    : option jstring :=
  let lowerTarget := toLowerCase target in
  let fallback := Some (content ++ [LF] ++ newContent) in
  if includes lowerTarget (js "replace")
     || includes lowerTarget (js "delete") then
    match find (fun m => includes (toLowerCase (heading_text m))
                           (section_term target)) (headings content) with
    | Some m =>
        let sectionStart := m_index m in
        re ← nextHeadingRegex (charAt (m_text m) 2);
        let sectionEnd :=
          match exec re content (sectionStart + length (m_text m)) with
          | Some nextMatch => m_index nextMatch
          | None => length content
          end in
        Some (substring content 0 sectionStart ++ newContent
                ++ drop sectionEnd content)
    | None => fallback
    end
  else fallback.

(** The titles the "New document" action tries after the base title. *)
Definition candidate (base : jstring) (k : Z) : jstring :=
  base ++ js " " ++ showZ k.

(** The row [UPDATE entities SET name = ?, properties = ?, updated_at = ?]
    leaves of [row]. *)
Definition updated_row {Value : Type} (e : Env)
    (updates : EntityUpdates Value) (row : EntityRow Value)
    : EntityRow Value :=
  {| r_id := r_id row; r_type := r_type row;
     r_name := default (r_name row) (u_name updates);
     r_properties := default (r_properties row) (u_properties updates);
     r_confidence := r_confidence row;
     r_created_at := r_created_at row;
     r_updated_at := now e |}.

(** An entity with two properties, and an update that names one. *)
Definition example_row : EntityRow Z :=
  {| r_id := js "person-1"; r_type := person; r_name := js "Ada";
     r_properties := {[ js "role" := 1%Z; js "email" := 2%Z ]};
     r_confidence := QArith_base.Qmake 1 1;
     r_created_at := 10; r_updated_at := 10 |}.

Definition example_entities : EntityStore Z :=
  {| entities_table := [example_row];
     entities := {[ js "person-1" := entity_of_row example_row ]};
     currentEntityId := None |}.

Definition example_update : EntityUpdates Z :=
  {| u_name := None; u_properties := Some {[ js "role" := 3%Z ]} |}.

(** * The rest of the application

    The functions around the ones the specification speaks of: the
    current document, the chat log and the banner that applies its
    changes, the navigation tree, the relationships of the entities, the
    database of the documents and the loading of the store. *)

(** ** The chat log

    The tables [messages], [changes] and [changeResolutions] of
    [convex/schema.ts], each the list of its documents in creation order,
    which is the order an index returns the documents of one key in.  The
    platform gives every inserted document a fresh [_id]: the next value
    of a counter. *)

Inductive Role := RoleUser | RoleAssistant.

Inductive Resolved := ResolvedApplied | ResolvedDismissed.

Record MessageDoc := {
  ms_id : nat;
  ms_sessionId : nat;
  ms_role : Role;
  ms_content : jstring;
  ms_createdAt : Z
}.

Record ChangeDoc := {
  ch_id : nat;
  ch_messageId : nat;
  ch_sessionId : nat;
  ch_documentId : jstring;
  ch_operation : Operation;
  ch_target : jstring;
  ch_content : option jstring;
  ch_description : jstring;
  ch_createdAt : Z
}.

Record ResolutionDoc := {
  rs_id : nat;
  rs_changeId : nat;
  rs_status : Resolved;
  rs_resolvedAt : Z
}.

Record Convex := {
  cv_messages : list MessageDoc;
  cv_changes : list ChangeDoc;
  cv_changeResolutions : list ResolutionDoc;
  cv_next : nat
}.

(** [query("changeResolutions").withIndex("by_change", q =>
    q.eq("changeId", changeId)).first()] *)
Definition first_resolution (changeId : nat) (db : Convex)
    : option ResolutionDoc :=
  find (fun r => rs_changeId r =? changeId) (cv_changeResolutions db).

(** [ctx.db.insert("changeResolutions", { changeId, status, resolvedAt })] *)
Definition insert_resolution (now : Z) (changeId : nat) (status : Resolved)
    (db : Convex) : nat * Convex :=
  (cv_next db,
   {| cv_messages := cv_messages db; cv_changes := cv_changes db;
      cv_changeResolutions :=
        cv_changeResolutions db
        ++ [{| rs_id := cv_next db; rs_changeId := changeId;
               rs_status := status; rs_resolvedAt := now |}];
      cv_next := S (cv_next db) |}).

Definition resolveChange (now : Z) (changeId : nat) (status : Resolved)
    (db : Convex) : nat * Convex :=
  match first_resolution changeId db with
  | Some existing => (rs_id existing, db)
  | None => insert_resolution now changeId status db
  end.

(** [query("changes").withIndex("by_message", q =>
    q.eq("messageId", messageId)).collect()] *)
Definition changes_of_message (messageId : nat) (db : Convex)
    : list ChangeDoc :=
  List.filter (fun c => ch_messageId c =? messageId) (cv_changes db).

(** The loop of [resolveAllChangesForMessage]; [clock i] is the reading of
    [Date.now()] for the change at position [i]. *)
Fixpoint resolve_each (clock : nat -> Z) (i : nat) (status : Resolved)
    (changes : list ChangeDoc) (db : Convex) : Convex :=
  match changes with
  | [] => db
  | change :: rest =>
      resolve_each clock (S i) status rest
        (match first_resolution (ch_id change) db with
         | Some _ => db
         | None =>
             (insert_resolution (clock i) (ch_id change) status db).2
         end)
  end.

Definition resolveAllChangesForMessage (clock : nat -> Z) (messageId : nat)
    (status : Resolved) (db : Convex) : Convex :=
  resolve_each clock 0 status (changes_of_message messageId db) db.

(** [resolution?.status ?? "pending"] *)
Definition change_status (changeId : nat) (db : Convex) : Status :=
  match first_resolution changeId db with
  | Some resolution =>
      match rs_status resolution with
      | ResolvedApplied => Applied
      | ResolvedDismissed => Dismissed
      end
  | None => Pending
  end.

Record ChangeWithStatus := {
  cw_change : ChangeDoc;
  cw_status : Status
}.

Record MessageWithChanges := {
  mw_message : MessageDoc;
  mw_changes : option (list ChangeWithStatus)
}.

Definition getBySession (sessionId : nat) (db : Convex)
    : list MessageWithChanges :=
  map (fun message =>
         let changesWithStatus :=
           map (fun change =>
                  {| cw_change := change;
                     cw_status := change_status (ch_id change) db |})
             (changes_of_message (ms_id message) db) in
         {| mw_message := message;
            mw_changes := match changesWithStatus with
                          | [] => None
                          | _ :: _ => Some changesWithStatus
                          end |})
    (List.filter (fun m => ms_sessionId m =? sessionId) (cv_messages db)).


(** ** The current document *)


(** ** The pending-changes banner of the center pane *)






(** ** The search box and the ordering of the navigation tree *)

(** [s.indexOf(t, position)] *)
Definition indexOf_at (s t : jstring) (position : nat) : option nat :=
  indexOf_from (drop position s) t (Nat.min position (length s)).

(** The loop of [fuzzyMatch]: [for (const char of needle)]. *)
Fixpoint fuzzy_loop (target needle : jstring) (index : nat) : bool :=
  match needle with
  | [] => true
  | char :: needle' =>
      match indexOf_at target [char] index with
      | None => false
      | Some found => fuzzy_loop target needle' (found + 1)
      end
  end.

Definition fuzzyMatch (value needle : jstring) : bool :=
  match needle with
  | [] => true
  | _ :: _ => fuzzy_loop (toLowerCase value) needle 0
  end.

(** [array.includes(id)] and [array.indexOf(id)] on arrays of strings. *)
Definition includes_id (l : list jstring) (id : jstring) : bool :=
  existsb (fun x => jeqb x id) l.

Fixpoint index_of (id : jstring) (l : list jstring) : option nat :=
  match l with
  | [] => None
  | x :: l' => if jeqb x id then Some 0 else S <$> index_of id l'
  end.

(** [for (const item of items) if (!next.includes(item.id))
    next.push(item.id)]; an item is represented by its [id]. *)
Fixpoint push_missing (items next : list jstring) : list jstring :=
  match items with
  | [] => next
  | id :: items' =>
      push_missing items' (if includes_id next id then next else next ++ [id])
  end.

(** [next.every((id, index) => id === current[index])] *)
Fixpoint every_same (next current : list jstring) : bool :=
  match next, current with
  | [], _ => true
  | _ :: _, [] => false
  | id :: next', c :: current' => jeqb id c && every_same next' current'
  end.

(** The updater [syncOrder] hands to [setOrderBySection]. *)
Definition syncOrder (sectionId : jstring) (items : list jstring)
    (prev : list (jstring * list jstring)) : list (jstring * list jstring) :=
  let current := default [] (obj_get sectionId prev) in
  let next :=
    push_missing items
      (List.filter (fun id => existsb (fun item => jeqb item id) items)
         current) in
  if (length next =? length current) && every_same next current then prev
  else obj_set sectionId next prev.

(** The new order of a section when [dragged] is dropped on [node]. *)
Definition reorder (section : list jstring) (dragged node : jstring)
    : list jstring :=
  let next := List.filter (fun id => negb (jeqb id dragged)) section in
  match index_of node next with
  | None => next ++ [dragged]
  | Some targetIndex => take targetIndex next ++ dragged :: drop targetIndex next
  end.

(** [handleDrop]; [draggedItem] is the state set by [handleDragStart], a
    pair of the id and the parent id, and [parentId || node.id] takes
    [node.id] for an absent or empty parent. *)
Definition handleDrop (draggedItem : option (jstring * jstring))
    (nodeId : jstring) (parentId : option jstring)
    (prev : list (jstring * list jstring)) : list (jstring * list jstring) :=
  match draggedItem with
  | None => prev
  | Some (draggedId, draggedParent) =>
      let key := match parentId with
                 | Some ((_ :: _) as p) => p
                 | _ => nodeId
                 end in
      if negb (jeqb key draggedParent) then prev
      else obj_set key (reorder (default [] (obj_get key prev)) draggedId nodeId)
             prev
  end.

(** ** Relationships, and creating and deleting entities *)

Inductive RelationshipType :=
| works_at | owns | participated_in | mentioned_in | decided
| reports_to | client_of | investor_in | founded | member_of.

(** [`${type}`] *)
Definition entityType_name (type : EntityType) : jstring :=
  match type with
  | person => js "person"
  | organization => js "organization"
  | project => js "project"
  | event => js "event"
  end.

Section Graph.
Context {Value : Type}.

Record Relationship := {
  l_id : jstring;
  l_type : RelationshipType;
  l_subject_id : jstring;
  l_object_id : jstring;
  l_properties : gmap jstring Value;
  l_evidence_ids : list jstring;
  l_created_at : Z;
  l_updated_at : Z
}.

(** A row of the [relationships] table ([id] is its primary key). *)
Record RelationshipRow := {
  lr_id : jstring;
  lr_type : RelationshipType;
  lr_subject_id : jstring;
  lr_object_id : jstring;
  lr_properties : gmap jstring Value;
  lr_confidence : QArith_base.Q;
  lr_evidence_ids : list jstring;
  lr_created_at : Z;
  lr_updated_at : Z
}.

Definition relationship_of_row (row : RelationshipRow) : Relationship :=
  {| l_id := lr_id row; l_type := lr_type row;
     l_subject_id := lr_subject_id row; l_object_id := lr_object_id row;
     l_properties := lr_properties row;
     l_evidence_ids := lr_evidence_ids row;
     l_created_at := lr_created_at row; l_updated_at := lr_updated_at row |}.

(** The two tables of [initEntityTables], each the list of its rows in
    rowid order.  [foreign_keys] tells whether the connection enforces the
    [FOREIGN KEY] clauses of the [relationships] table. *)
Record EntityDb := {
  tbl_entities : list (EntityRow Value);
  tbl_relationships : list RelationshipRow;
  foreign_keys : bool
}.

(** The data-access [createEntity]; [None] is the error the [INSERT]
    raises when the primary key is taken.  The id reads the clock, the
    time stamps read it again. *)
Definition db_createEntity (e : Env) (type : EntityType) (name : jstring)
    (properties : gmap jstring Value) (confidence : QArith_base.Q)
    (db : EntityDb) : option (Entity Value * EntityDb) :=
  let id :=
    entityType_name type ++ js "-" ++ showZ (now e) ++ js "-" ++ random36 e in
  let now := now_again e in
  if existsb (fun row => jeqb (r_id row) id) (tbl_entities db) then None
  else
    Some ({| e_id := id; e_type := type; e_name := name;
             e_properties := properties;
             e_created_at := now; e_updated_at := now |},
          {| tbl_entities :=
               tbl_entities db
               ++ [{| r_id := id; r_type := type; r_name := name;
                      r_properties := properties;
                      r_confidence := confidence;
                      r_created_at := now; r_updated_at := now |}];
             tbl_relationships := tbl_relationships db;
             foreign_keys := foreign_keys db |}).

(** [subject_id = ? OR object_id = ?] *)
Definition row_touches (id : jstring) (row : RelationshipRow) : bool :=
  jeqb (lr_subject_id row) id || jeqb (lr_object_id row) id.

(** The data-access [deleteEntity]: the relationships first, then the
    entity. *)
Definition db_deleteEntity (id : jstring) (db : EntityDb) : EntityDb :=
  {| tbl_entities :=
       List.filter (fun row => negb (jeqb (r_id row) id)) (tbl_entities db);
     tbl_relationships :=
       List.filter (fun row => negb (row_touches id row))
         (tbl_relationships db);
     foreign_keys := foreign_keys db |}.

Definition getAllRelationships (db : EntityDb) : list Relationship :=
  map relationship_of_row (tbl_relationships db).

Definition db_getRelationshipsForEntity (entityId : jstring) (db : EntityDb)
    : list Relationship :=
  map relationship_of_row
    (List.filter (row_touches entityId) (tbl_relationships db)).

Definition has_entity (id : jstring) (db : EntityDb) : bool :=
  existsb (fun row => jeqb (r_id row) id) (tbl_entities db).

(** The data-access [createRelationship]; [None] is the error the
    [INSERT] raises when the primary key is taken or, with foreign keys
    enforced, when the subject or the object is not an entity. *)
Definition db_createRelationship (e : Env) (type : RelationshipType)
    (subjectId objectId : jstring) (properties : gmap jstring Value)
    (evidenceIds : list jstring) (db : EntityDb)
    : option (Relationship * EntityDb) :=
  let id := js "rel-" ++ showZ (now e) ++ js "-" ++ random36 e in
  let now := now_again e in
  if existsb (fun row => jeqb (lr_id row) id) (tbl_relationships db)
     || (foreign_keys db
         && negb (has_entity subjectId db && has_entity objectId db))
  then None
  else
    Some ({| l_id := id; l_type := type; l_subject_id := subjectId;
             l_object_id := objectId; l_properties := properties;
             l_evidence_ids := evidenceIds;
             l_created_at := now; l_updated_at := now |},
          {| tbl_entities := tbl_entities db;
             tbl_relationships :=
               tbl_relationships db
               ++ [{| lr_id := id; lr_type := type;
                      lr_subject_id := subjectId; lr_object_id := objectId;
                      lr_properties := properties;
                      lr_confidence := QArith_base.Qmake 1 1;
                      lr_evidence_ids := evidenceIds;
                      lr_created_at := now; lr_updated_at := now |}];
             foreign_keys := foreign_keys db |}).

Definition db_deleteRelationship (id : jstring) (db : EntityDb) : EntityDb :=
  {| tbl_entities := tbl_entities db;
     tbl_relationships :=
       List.filter (fun row => negb (jeqb (lr_id row) id))
         (tbl_relationships db);
     foreign_keys := foreign_keys db |}.

(** The entity store with its relationships, over the database. *)
Record GraphStore := {
  g_db : EntityDb;
  g_entities : gmap jstring (Entity Value);
  g_relationships : list Relationship;
  g_currentEntityId : option jstring
}.

(** [(r) => r.subject_id === entityId || r.object_id === entityId] *)
Definition touches (entityId : jstring) (r : Relationship) : bool :=
  jeqb (l_subject_id r) entityId || jeqb (l_object_id r) entityId.

Definition getRelationshipsForEntity (entityId : jstring) (s : GraphStore)
    : list Relationship :=
  List.filter (touches entityId) (g_relationships s).

(** The store's [createEntity], which passes no confidence: the default
    [1.0] applies.  A failure of the awaited call leaves the store as it
    is: [None]. *)
Definition createEntity (e : Env) (type : EntityType) (name : jstring)
    (properties : gmap jstring Value) (s : GraphStore)
    : option (Entity Value * GraphStore) :=
  '(entity, db') ←
    db_createEntity e type name properties (QArith_base.Qmake 1 1) (g_db s);
  Some (entity,
        {| g_db := db';
           g_entities := <[e_id entity := entity]> (g_entities s);
           g_relationships := g_relationships s;
           g_currentEntityId := g_currentEntityId s |}).

Definition deleteEntity (entityId : jstring) (s : GraphStore) : GraphStore :=
  {| g_db := db_deleteEntity entityId (g_db s);
     g_entities := delete entityId (g_entities s);
     g_relationships :=
       List.filter
         (fun r => negb (jeqb (l_subject_id r) entityId)
                   && negb (jeqb (l_object_id r) entityId))
         (g_relationships s);
     g_currentEntityId :=
       if opt_jeqb (g_currentEntityId s) entityId then None
       else g_currentEntityId s |}.

Definition createRelationship (e : Env) (type : RelationshipType)
    (subjectId objectId : jstring) (properties : gmap jstring Value)
    (evidenceIds : list jstring) (s : GraphStore)
    : option (Relationship * GraphStore) :=
  '(relationship, db') ←
    db_createRelationship e type subjectId objectId properties evidenceIds
      (g_db s);
  Some (relationship,
        {| g_db := db';
           g_entities := g_entities s;
           g_relationships := g_relationships s ++ [relationship];
           g_currentEntityId := g_currentEntityId s |}).

Definition deleteRelationship (relationshipId : jstring) (s : GraphStore)
    : GraphStore :=
  {| g_db := db_deleteRelationship relationshipId (g_db s);
     g_entities := g_entities s;
     g_relationships :=
       List.filter (fun r => negb (jeqb (l_id r) relationshipId))
         (g_relationships s);
     g_currentEntityId := g_currentEntityId s |}.

(** The store shows the relationships of the database. *)
Definition relationships_in_sync (s : GraphStore) : Prop :=
  g_relationships s = getAllRelationships (g_db s).

(** Every relationship of the database joins two entities of the
    database. *)
Definition no_dangling (db : EntityDb) : Prop :=
  Forall (fun row => has_entity (lr_subject_id row) db = true
                     /\ has_entity (lr_object_id row) db = true)
    (tbl_relationships db).
End Graph.

Arguments Relationship : clear implicits.
Arguments RelationshipRow : clear implicits.
Arguments EntityDb : clear implicits.
Arguments GraphStore : clear implicits.

(** ** The documents database

    The tables [documents] ([id] is its primary key, [path] is unique)
    and [document_versions] ([id] is its primary key) of [initDatabase],
    each the list of its rows in rowid order.  A statement that violates
    a constraint raises an error: [None]. *)

Record TursoDocument := {
  td_id : jstring;
  td_path : jstring;
  td_title : jstring;
  td_content : jstring;
  td_created_at : Z;
  td_updated_at : Z
}.

Record DocumentVersion := {
  dv_id : jstring;
  dv_document_id : jstring;
  dv_content : jstring;
  dv_created_at : Z
}.

Record Database := {
  documents_table : list TursoDocument;
  document_versions : list DocumentVersion
}.

(** [SELECT * FROM documents WHERE id = ?], then [result.rows[0] || null] *)
Definition turso_getDocument (id : jstring) (db : Database)
    : option TursoDocument :=
  head (List.filter (fun row => jeqb (td_id row) id) (documents_table db)).

Definition turso_createDocument (now : Z) (id path title content : jstring)
    (db : Database) : option Database :=
  if existsb (fun row => jeqb (td_id row) id || jeqb (td_path row) path)
       (documents_table db)
  then None
  else
    Some {| documents_table :=
              documents_table db
              ++ [{| td_id := id; td_path := path; td_title := title;
                     td_content := content;
                     td_created_at := now; td_updated_at := now |}];
            document_versions := document_versions db |}.

(** [`ver-${now}`] *)
Definition version_id (now : Z) : jstring := js "ver-" ++ showZ now.

(** The current content is saved as a version, then the row is updated;
    an error of the first statement leaves the second unexecuted. *)
Definition turso_updateDocument (now : Z) (id content : jstring)
    (db : Database) : option Database :=
  versions ←
    match turso_getDocument id db with
    | Some current =>
        if existsb (fun v => jeqb (dv_id v) (version_id now))
             (document_versions db)
        then None
        else Some (document_versions db
                   ++ [{| dv_id := version_id now; dv_document_id := id;
                          dv_content := td_content current;
                          dv_created_at := now |}])
    | None => Some (document_versions db)
    end;
  Some {| documents_table :=
            map (fun row =>
                   if jeqb (td_id row) id then
                     {| td_id := td_id row; td_path := td_path row;
                        td_title := td_title row; td_content := content;
                        td_created_at := td_created_at row;
                        td_updated_at := now |}
                   else row) (documents_table db);
          document_versions := versions |}.

Definition turso_deleteDocument (id : jstring) (db : Database) : Database :=
  {| documents_table :=
       List.filter (fun row => negb (jeqb (td_id row) id))
         (documents_table db);
     document_versions :=
       List.filter (fun v => negb (jeqb (dv_document_id v) id))
         (document_versions db) |}.

(** The [updates] argument of [updateDocumentMetadata]: [None] is an
    absent key. *)
Record MetadataUpdates := {
  mu_title : option jstring;
  mu_path : option jstring
}.

(** [if (updates.title)]: present and not empty. *)
Definition truthy (x : option jstring) : option jstring :=
  match x with
  | Some (_ :: _) => x
  | _ => None
  end.

Definition turso_updateDocumentMetadata (now : Z) (id : jstring)
    (updates : MetadataUpdates) (db : Database) : option Database :=
  match truthy (mu_title updates), truthy (mu_path updates) with
  | None, None => Some db
  | title, path =>
      if match path with
         | Some p =>
             existsb (fun row => jeqb (td_id row) id) (documents_table db)
             && existsb (fun row => negb (jeqb (td_id row) id)
                                    && jeqb (td_path row) p)
                  (documents_table db)
         | None => false
         end
      then None
      else
        Some {| documents_table :=
                  map (fun row =>
                         if jeqb (td_id row) id then
                           {| td_id := td_id row;
                              td_path := default (td_path row) path;
                              td_title := default (td_title row) title;
                              td_content := td_content row;
                              td_created_at := td_created_at row;
                              td_updated_at := now |}
                         else row) (documents_table db);
                document_versions := document_versions db |}
  end.

(** One request of the store, awaited inside [try]/[catch]: an error is
    logged and the database stays as it is. *)
Definition persist (now : Z) (call : TursoCall) (db : Database) : Database :=
  default db
    match call with
    | TursoCreateDocument id path title serialized =>
        turso_createDocument now id path title serialized db
    | TursoUpdateDocument id serialized =>
        turso_updateDocument now id serialized db
    | TursoDeleteDocument id => Some (turso_deleteDocument id db)
    end.

(** The store's [updateDocumentMetadata] over the database: the local
    update, then the request, whose error is caught.  [e] is the
    environment of the store's reading of the clock, [tursoNow] the
    reading of the data-access function. *)
Definition updateDocumentMetadata (e : Env) (tursoNow : Z)
    (documentId : jstring) (updates : MetadataUpdates)
    (st : DocumentStore * Database)
    : DocumentStore * Database :=
  (match obj_get documentId (documents st.1) with
   | None => st.1
   | Some doc =>
       {| documents :=
            obj_set documentId
              {| d_id := d_id doc;
                 d_path := default (d_path doc) (mu_path updates);
                 d_title := default (d_title doc) (mu_title updates);
                 d_content := d_content doc;
                 d_frontmatter := d_frontmatter doc;
                 d_frontmatterRaw := d_frontmatterRaw doc;
                 d_updatedAt := now e |} (documents st.1);
          currentDocumentId := currentDocumentId st.1;
          lastCreatedDocumentId := lastCreatedDocumentId st.1;
          pendingChanges := pendingChanges st.1;
          isLoading := isLoading st.1; isInitialized := isInitialized st.1;
          turso := turso st.1 |}
   end,
   default st.2
     (turso_updateDocumentMetadata tursoNow documentId updates st.2)).

(** [handleRenameDocument]; [answer] is what [window.prompt] returns,
    [None] for a cancelled prompt. *)
Definition handleRenameDocument (e : Env) (tursoNow : Z) (docId : jstring)
    (answer : option jstring) (st : DocumentStore * Database)
    : DocumentStore * Database :=
  match obj_get docId (documents st.1), truthy answer with
  | Some doc, Some nextTitle =>
      if jeqb (trim nextTitle) (d_title doc) then st
      else
        let slug := slugify nextTitle in
        let directory :=
          substring (d_path doc) 0
            (match lastIndexOf (d_path doc) "/" with
             | Some i => i + 1
             | None => 0
             end) in
        let nextPath :=
          directory
          ++ match slug with [] => js "untitled" | _ :: _ => slug end
          ++ js ".md" in
        updateDocumentMetadata e tursoNow docId
          {| mu_title := Some (trim nextTitle); mu_path := Some nextPath |} st
  | _, _ => st
  end.

(** ** Loading the store *)

Definition title_le (a b : TursoDocument) : Prop :=
  name_leb (td_title a) (td_title b).

(** [SELECT * FROM documents ORDER BY title] *)
Definition turso_getAllDocuments (db : Database) : list TursoDocument :=
  merge_sort title_le (documents_table db).

(** The store's view of a row: the content is parsed on load. *)
Definition document_of_row (doc : TursoDocument) : Document :=
  {| d_id := td_id doc; d_path := td_path doc; d_title := td_title doc;
     d_content := fr_body (parseFrontmatter (td_content doc));
     d_frontmatter := fr_frontmatter (parseFrontmatter (td_content doc));
     d_frontmatterRaw := fr_frontmatterRaw (parseFrontmatter (td_content doc));
     d_updatedAt := td_updated_at doc |}.

(** [initialize]; [db] is [None] when the database cannot be reached,
    which the [catch] clause handles.  The loop assigns
    [documentsMap[doc.id]], which is [obj_set] for the ids that are
    [ordinary_key]s. *)
Definition initialize (db : option Database) (s : DocumentStore)
    : DocumentStore :=
  if isInitialized s then s
  else
    match db with
    | Some db =>
        let docs := turso_getAllDocuments db in
        {| documents :=
             foldl (fun documentsMap doc =>
                      obj_set (td_id doc) (document_of_row doc) documentsMap)
               [] docs;
           currentDocumentId :=
             match docs with
             | doc :: _ => Some (td_id doc)
             | [] => None
             end;
           lastCreatedDocumentId := lastCreatedDocumentId s;
           pendingChanges := pendingChanges s;
           isLoading := false; isInitialized := true; turso := turso s |}
    | None =>
        {| documents := documents s;
           currentDocumentId := currentDocumentId s;
           lastCreatedDocumentId := lastCreatedDocumentId s;
           pendingChanges := pendingChanges s;
           isLoading := false; isInitialized := isInitialized s;
           turso := turso s |}
    end.

(** ** Further notions used in the statements *)

(** The queue [applyChange] leaves. *)
Definition queue_after (id : jstring) (cs : list PendingChange)
    : list PendingChange :=
  match find (fun c => jeqb (c_id c) id) cs with
  | Some c =>
      if is_pending c then
        map (fun c => if jeqb (c_id c) id then with_status Applied c else c) cs
      else cs
  | None => cs
  end.

(** The keys of the store are pairwise distinct, every document sits
    under its own id, and the current document, if any, is in the store. *)
Definition store_ok (s : DocumentStore) : Prop :=
  NoDup (obj_keys (documents s))
  /\ Forall (fun kv => d_id kv.2 = kv.1) (documents s)
  /\ forall k, currentDocumentId s = Some k ->
               is_Some (obj_get k (documents s)).

Definition status_of_resolved (st : Resolved) : Status :=
  match st with
  | ResolvedApplied => Applied
  | ResolvedDismissed => Dismissed
  end.

(** The resolution records of a change. *)
Definition resolutions_of (changeId : nat) (db : Convex)
    : list ResolutionDoc :=
  List.filter (fun r => rs_changeId r =? changeId) (cv_changeResolutions db).

(** A string with no white space at either end. *)
Definition tight (s : jstring) : Prop :=
  match s with
  | [] => True
  | c :: _ => is_space c = false
              /\ exists d, last s = Some d /\ is_space d = false
  end.

(** A frontmatter key [parseFrontmatter] reads back: it holds a visible
    character and no colon, and its first visible character is not [#]. *)
Definition key_ok (k : jstring) : bool :=
  negb (jeqb (trim k) []) && negb (existsb (Ascii.eqb ":") k)
  && negb (startsWith (trim k) (js "#")).

(** White space only. *)
Abbreviation spaces := (Forall (fun c => is_space c = true)).

(** [s] contains [q], letters of the ASCII range compared without regard
    to case. *)
Definition contains_nocase (s q : jstring) : Prop :=
  exists u w v, s = u ++ w ++ v /\ map sqlite_fold w = map sqlite_fold q.

Definition is_wildcard (c : ascii) : bool :=
  Ascii.eqb c "%" || Ascii.eqb c "_".

(** A database with one document, and the store that shows it. *)
Definition example_database : Database :=
  {| documents_table :=
       [{| td_id := js "d1"; td_path := js "/docs/untitled.md";
           td_title := js "Untitled"; td_content := js "<h1>X</h1>";
           td_created_at := 0; td_updated_at := 0 |}];
     document_versions := [] |}.

(** The state the document store starts in. *)
Definition initial_store : DocumentStore :=
  {| documents := []; currentDocumentId := None;
     lastCreatedDocumentId := None; pendingChanges := [];
     isLoading := true; isInitialized := false; turso := [] |}.

(** A database of entities with one entity, foreign keys enforced, and the
    store that shows it. *)
Definition example_entity_db : EntityDb Z :=
  {| tbl_entities := [example_row]; tbl_relationships := [];
     foreign_keys := true |}.

Definition example_graph : GraphStore Z :=
  {| g_db := example_entity_db;
     g_entities := {[ js "person-1" := entity_of_row example_row ]};
     g_relationships := []; g_currentEntityId := None |}.

(** * Properties *)

(** ** Strings *)

Lemma jeqb_true (a b : jstring) : jeqb a b = true <-> a = b.
Proof.
  revert b; induction a as [|x a IH]; intros [|y b]; simpl; try easy.
  rewrite andb_true_iff, Ascii.eqb_eq, IH. split.
  - intros [-> ->]; reflexivity.
  - intros [= -> ->]; auto.
Qed.

Lemma jeqb_refl (a : jstring) : jeqb a a = true.
Proof. apply jeqb_true; reflexivity. Qed.

Lemma jeqb_false (a b : jstring) : jeqb a b = false <-> a <> b.
Proof.
  rewrite <- jeqb_true. destruct (jeqb a b); split; congruence.
Qed.

Lemma jeqb_sym (a b : jstring) : jeqb a b = jeqb b a.
Proof.
  destruct (jeqb a b) eqn:E.
  - apply jeqb_true in E as ->. symmetry; apply jeqb_refl.
  - symmetry. apply jeqb_false. apply jeqb_false in E. congruence.
Qed.

Lemma startsWith_app (t s : jstring) : startsWith (t ++ s) t = true.
Proof.
  induction t as [|c t IH]; simpl; [reflexivity|].
  rewrite Ascii.eqb_refl; exact IH.
Qed.

Lemma startsWith_prefix (s t : jstring) :
  startsWith s t = true <-> exists r, s = t ++ r.
Proof.
  split.
  - revert s; induction t as [|c t IH]; intros s H; simpl in H.
    + exists s; reflexivity.
    + destruct s as [|d s]; [discriminate|].
      apply andb_true_iff in H as [Hc Ht]. apply Ascii.eqb_eq in Hc as ->.
      destruct (IH _ Ht) as [r ->]. exists r; reflexivity.
  - intros [r ->]. apply startsWith_app.
Qed.

Lemma length_toLowerCase (s : jstring) : length (toLowerCase s) = length s.
Proof. apply length_map. Qed.

Lemma indexOf_from_bound (s t : jstring) (i n : nat) :
  indexOf_from s t i = Some n -> i <= n <= i + length s.
Proof.
  revert i; induction s as [|c s IH]; intros i; simpl.
  - destruct (startsWith [] t); intros [= <-]; lia.
  - destruct (startsWith (c :: s) t).
    + intros [= <-]; lia.
    + intros H; apply IH in H; lia.
Qed.

Lemma lastIndexOf_from_bound (s : jstring) (c : ascii) (i : nat)
    (acc : option nat) (n : nat) :
  lastIndexOf_from s c i acc = Some n ->
  acc = Some n \/ i <= n < i + length s.
Proof.
  revert i acc; induction s as [|a s IH]; intros i acc; simpl.
  - auto.
  - intros H; apply IH in H as [H|H]; [|right; lia].
    destruct (Ascii.eqb a c); [injection H as <-; right; lia | auto].
Qed.

(** ** The matcher *)

Section MatcherFacts.
Context {R : Type}.
Implicit Types (k : jstring -> option R).

Lemma star_greedy_sound p s k x :
  star_greedy p s k = Some x ->
  exists w s', s = w ++ s' /\ Forall (fun c => p c = true) w /\ k s' = Some x.
Proof.
  induction s as [|c s IH]; simpl.
  - intros H; exists [], []; auto.
  - destruct (p c) eqn:Hp.
    + destruct (star_greedy p s k) as [y|] eqn:E.
      * intros [= ->]. destruct (IH eq_refl) as (w & s' & -> & Hw & Hk).
        exists (c :: w), s'; auto.
      * intros H; exists [], (c :: s); auto.
    + intros H; exists [], (c :: s); auto.
Qed.

Lemma star_lazy_sound p s k x :
  star_lazy p s k = Some x ->
  exists w s', s = w ++ s' /\ Forall (fun c => p c = true) w /\ k s' = Some x.
Proof.
  induction s as [|c s IH]; simpl.
  - destruct (k []) eqn:E; [|discriminate].
    intros [= ->]; exists [], []; auto.
  - destruct (k (c :: s)) eqn:E.
    + intros [= ->]; exists [], (c :: s); auto.
    + destruct (p c) eqn:Hp; [|discriminate].
      intros H. destruct (IH H) as (w & s' & -> & Hw & Hk).
      exists (c :: w), s'; auto.
Qed.

Lemma rmatch_sound r :
  forall s cap (k : option jstring -> jstring -> option R) x,
  rmatch r s cap k = Some x ->
  exists w s' cap', s = w ++ s' /\ lang r w /\ k cap' s' = Some x.
Proof.
  induction r as [|p|r1 IH1 r2 IH2|r1 IH1|p|p|r1 IH1]; intros s cap k x; simpl.
  - intros H; exists [], s, cap; auto.
  - destruct s as [|c s]; [discriminate|].
    destruct (p c) eqn:Hp; [|discriminate].
    intros H; exists [c], s, cap; eauto.
  - intros H. apply IH1 in H as (u & s1 & cap1 & -> & Hu & H).
    apply IH2 in H as (v & s2 & cap2 & -> & Hv & H).
    exists (u ++ v), s2, cap2. rewrite <- app_assoc. eauto 8.
  - destruct (rmatch r1 s cap k) as [y|] eqn:E.
    + intros [= ->]. apply IH1 in E as (w & s' & cap' & -> & Hw & Hk).
      exists w, s', cap'; auto.
    + intros H; exists [], s, cap; auto.
  - intros H. apply star_greedy_sound in H as (w & s' & -> & Hw & Hk).
    exists w, s', cap; auto.
  - intros H. apply star_lazy_sound in H as (w & s' & -> & Hw & Hk).
    exists w, s', cap; auto.
  - intros H. apply IH1 in H as (w & s' & cap' & -> & Hw & Hk).
    eexists w, s', _; eauto.
Qed.
End MatcherFacts.

Lemma take_app_length_diff (w s' : jstring) :
  take (length (w ++ s') - length s') (w ++ s') = w.
Proof.
  rewrite length_app.
  replace (length w + length s' - length s') with (length w) by lia.
  apply take_app_length.
Qed.

Lemma match_here_sound r s i m :
  match_here r s i = Some m ->
  m_index m = i /\ lang r (m_text m) /\ exists s', s = m_text m ++ s'.
Proof.
  unfold match_here. intros H.
  apply rmatch_sound in H as (w & s' & cap' & -> & Hw & [= <-]). simpl.
  rewrite take_app_length_diff. eauto.
Qed.

Lemma search_from_sound r s i m :
  search_from r s i = Some m ->
  exists j, m_index m = i + j /\ j <= length s
            /\ match_here r (drop j s) (i + j) = Some m
            /\ forall j', j' < j -> match_here r (drop j' s) (i + j') = None.
Proof.
  revert i; induction s as [|c s IH]; intros i; simpl.
  - destruct (match_here r [] i) as [m'|] eqn:E; [|discriminate].
    intros [= ->]. exists 0. rewrite Nat.add_0_r.
    apply match_here_sound in E as HE. destruct HE as (-> & _).
    repeat split; auto; lia.
  - destruct (match_here r (c :: s) i) as [m'|] eqn:E.
    + intros [= ->]. exists 0. rewrite Nat.add_0_r.
      apply match_here_sound in E as HE. destruct HE as (-> & _).
      repeat split; auto; lia.
    + intros H. apply IH in H as (j & Hi & Hj & Hm & Hmin).
      exists (S j). replace (i + S j) with (S i + j) by lia. simpl.
      repeat split; auto; try lia.
      intros [|j'] Hlt; simpl.
      * rewrite Nat.add_0_r; exact E.
      * replace (i + S j') with (S i + j') by lia. apply Hmin; lia.
Qed.

Lemma search_from_none r s i :
  search_from r s i = None ->
  forall j, j <= length s -> match_here r (drop j s) (i + j) = None.
Proof.
  revert i; induction s as [|c s IH]; intros i; simpl.
  - destruct (match_here r [] i) eqn:E; [discriminate|].
    intros _ j Hj. replace j with 0 by lia. rewrite Nat.add_0_r; exact E.
  - destruct (match_here r (c :: s) i) eqn:E; [discriminate|].
    intros H [|j] Hj; simpl.
    + rewrite Nat.add_0_r; exact E.
    + replace (i + S j) with (S i + j) by lia. apply IH; [exact H|lia].
Qed.

(** A successful [exec] starts at or after [lastIndex], lies within the
    subject and matched a word of the expression. *)
Lemma exec_sound r content lastIndex m :
  exec r content lastIndex = Some m ->
  lastIndex <= m_index m
  /\ m_index m + length (m_text m) <= length content
  /\ lang r (m_text m)
  /\ drop (m_index m) content
     = m_text m ++ drop (m_index m + length (m_text m)) content.
Proof.
  unfold exec. destruct (length content <? lastIndex) eqn:E; [discriminate|].
  apply Nat.ltb_ge in E. intros H.
  apply search_from_sound in H as (j & Hi & Hj & Hm & _).
  apply match_here_sound in Hm as (_ & Hl & s' & Hs).
  rewrite drop_drop in Hs. rewrite length_drop in Hj.
  rewrite Hi.
  assert (Hlen : length (drop (lastIndex + j) content)
                 = length (m_text m) + length s')
    by (rewrite Hs, length_app; reflexivity).
  rewrite length_drop in Hlen.
  repeat split; auto; try lia.
  rewrite Hs at 1. f_equal.
  rewrite <- drop_drop, Hs, drop_app_length. reflexivity.
Qed.

(** ** Evaluating the matcher on partly known subjects *)

Ltac eval_eqb :=
  repeat match goal with
  | |- context [Ascii.eqb ?a ?b] =>
      let v := eval vm_compute in (Ascii.eqb a b) in
      lazymatch v with
      | true => change (Ascii.eqb a b) with true
      | false => change (Ascii.eqb a b) with false
      end
  end; cbv iota.

Ltac run := cbn -[is_space Ascii.eqb]; eval_eqb.

Lemma not_space_not_CR c : is_space c = false -> Ascii.eqb CR c = false.
Proof.
  intros H. destruct (Ascii.eqb CR c) eqn:E; [|reflexivity].
  apply Ascii.eqb_eq in E as <-. discriminate H.
Qed.

Lemma not_space_not_LF c : is_space c = false -> Ascii.eqb LF c = false.
Proof.
  intros H. destruct (Ascii.eqb LF c) eqn:E; [|reflexivity].
  apply Ascii.eqb_eq in E as <-. discriminate H.
Qed.

Lemma rmatch_Seq {R} r1 r2 s cap (k : option jstring -> jstring -> option R) :
  rmatch (Seq r1 r2) s cap k
  = rmatch r1 s cap (fun cap' s' => rmatch r2 s' cap' k).
Proof. reflexivity. Qed.

Lemma rmatch_lit_app {R} (t s : jstring) cap
    (k : option jstring -> jstring -> option R) :
  rmatch (lit t) (t ++ s) cap k = k cap s.
Proof.
  induction t as [|c t IH]; [reflexivity|].
  destruct t as [|c' t].
  - simpl. rewrite Ascii.eqb_refl. reflexivity.
  - change (lit (c :: c' :: t)) with (Seq (chr c) (lit (c' :: t))).
    rewrite rmatch_Seq. simpl rmatch at 1. simpl app.
    rewrite Ascii.eqb_refl. apply IH.
Qed.

Lemma star_lazy_skip {R} (u v : jstring) (k : jstring -> option R) x :
  (forall u1 u2, u = u1 ++ u2 -> u2 <> [] -> k (u2 ++ v) = None) ->
  k v = Some x ->
  star_lazy any_char (u ++ v) k = Some x.
Proof.
  induction u as [|c u IH]; intros Hnone Hv; simpl.
  - destruct v; simpl; rewrite Hv; reflexivity.
  - pose proof (Hnone [] (c :: u) eq_refl ltac:(discriminate)) as H0.
    simpl in H0. rewrite H0.
    apply IH; auto. intros u1 u2 -> Hne. apply (Hnone (c :: u1) u2); auto.
Qed.

(** ** Frontmatter *)

Lemma block_ok_suffix u1 u2 : block_ok (u1 ++ u2) = true -> block_ok u2 = true.
Proof.
  induction u1 as [|c u1 IH]; simpl; auto.
  intros H. apply andb_true_iff in H as [_ H]. auto.
Qed.

Lemma opener_fails {R} r c0 s cap (k : option jstring -> jstring -> option R) :
  Ascii.eqb CR c0 = false -> Ascii.eqb LF c0 = false ->
  rmatch (Seq (Opt (chr CR)) (Seq (chr LF) r)) (c0 :: s) cap k = None.
Proof. intros H1 H2. cbn -[Ascii.eqb]. rewrite H1, H2. reflexivity. Qed.

Lemma opener_step {R} r d s cap (k : option jstring -> jstring -> option R) :
  Ascii.eqb CR d = false ->
  rmatch (Seq (Opt (chr CR)) (Seq (chr LF) r)) (d :: s) cap k
  = if Ascii.eqb LF d then rmatch r s cap k else None.
Proof. intros H. cbn -[Ascii.eqb]. rewrite H. reflexivity. Qed.

Lemma opener_LF {R} r s cap (k : option jstring -> jstring -> option R) :
  rmatch (Seq (Opt (chr CR)) (Seq (chr LF) r)) (LF :: s) cap k
  = rmatch r s cap k.
Proof. reflexivity. Qed.

Lemma no_line_break_cons c s :
  no_line_break (c :: s) = true ->
  Ascii.eqb CR c = false /\ Ascii.eqb LF c = false /\ no_line_break s = true.
Proof.
  simpl. intros H. apply andb_true_iff in H as [Hc Hs].
  apply andb_true_iff in Hc as [H1 H2]. apply negb_true_iff in H1, H2.
  rewrite Ascii.eqb_sym in H1, H2. auto.
Qed.

(** The white space after the opening delimiter is given back up to the
    first line break when the first line holds a visible character. *)
Lemma leading_space_fails {R} r sp c0 s cap
    (k : option jstring -> jstring -> option R) :
  no_line_break sp = true -> is_space c0 = false ->
  star_greedy is_space (sp ++ c0 :: s)
    (fun s' => rmatch (Seq (Opt (chr CR)) (Seq (chr LF) r)) s' cap k) = None.
Proof.
  intros Hsp Hc0. induction sp as [|c sp IH].
  - simpl. rewrite Hc0.
    apply opener_fails; [apply not_space_not_CR|apply not_space_not_LF]; auto.
  - apply no_line_break_cons in Hsp as (H1 & H2 & Hsp).
    change ((c :: sp) ++ c0 :: s) with (c :: (sp ++ c0 :: s)).
    cbn [star_greedy]. rewrite (IH Hsp).
    rewrite (opener_fails r c _ cap k H1 H2).
    destruct (is_space c); reflexivity.
Qed.

Lemma lit_delimiter_fails {R} (u v : jstring) cap
    (k : option jstring -> jstring -> option R) :
  startsWith u (js "---") = false -> head v = Some LF ->
  rmatch (lit (js "---")) (u ++ v) cap k = None.
Proof.
  intros Hu Hv. destruct v as [|l v]; [discriminate|]. injection Hv as ->.
  unfold LF.
  destruct u as [|a [|b [|c u]]]; cbn -[Ascii.eqb] in *;
    repeat match goal with
    | |- context [Ascii.eqb "-" ?x] =>
        destruct (Ascii.eqb "-" x) eqn:?; cbn -[Ascii.eqb] in *
    end; try reflexivity; try discriminate.
Qed.

(** The closing delimiter does not match inside a well-formed block. *)
Lemma closing_fails (u2 v : jstring) cap
    (k : option jstring -> jstring -> option RegExpMatch) :
  u2 <> [] -> block_ok u2 = true -> head v = Some LF ->
  rmatch (seqs [Opt (chr CR); chr LF; lit (js "---"); Star is_space;
                Opt (chr CR); Opt (chr LF)]) (u2 ++ v) cap k = None.
Proof.
  intros Hne Hok Hv. destruct u2 as [|d u2]; [congruence|]. clear Hne.
  simpl in Hok. apply andb_true_iff in Hok as [Hok _].
  apply andb_true_iff in Hok as [Hcr Hlf].
  apply negb_true_iff in Hcr, Hlf. rewrite Ascii.eqb_sym in Hcr.
  change (seqs [Opt (chr CR); chr LF; lit (js "---"); Star is_space;
                Opt (chr CR); Opt (chr LF)])
    with (Seq (Opt (chr CR)) (Seq (chr LF)
            (Seq (lit (js "---"))
               (seqs [Star is_space; Opt (chr CR); Opt (chr LF)])))).
  change ((d :: u2) ++ v) with (d :: (u2 ++ v)).
  rewrite (opener_step _ d _ _ _ Hcr).
  destruct (Ascii.eqb LF d) eqn:E; [|reflexivity].
  rewrite Ascii.eqb_sym in E. rewrite E in Hlf. simpl in Hlf.
  rewrite rmatch_Seq. apply lit_delimiter_fails; assumption.
Qed.

(** It matches in front of a body that does not start with white space,
    and consumes the line break after the delimiter. *)
Lemma closing_succeeds (body : jstring) cap
    (k : option jstring -> jstring -> option RegExpMatch) x :
  body_start_ok body = true -> k cap body = Some x ->
  rmatch (seqs [Opt (chr CR); chr LF; lit (js "---"); Star is_space;
                Opt (chr CR); Opt (chr LF)])
    (LF :: js "---" ++ LF :: body) cap k = Some x.
Proof.
  intros Hb Hk. unfold CR, LF in *. run.
  change (is_space "010") with true. cbv iota.
  destruct body as [|b body]; simpl in Hb.
  - run. rewrite Hk. reflexivity.
  - apply negb_true_iff in Hb. run. rewrite Hb.
    pose proof (not_space_not_CR _ Hb) as H1.
    pose proof (not_space_not_LF _ Hb) as H2.
    unfold CR, LF in *. rewrite H1, H2, Hk. reflexivity.
Qed.

Lemma parse_block (fm body : jstring) sp c0 fm0 :
  fm = sp ++ c0 :: fm0 -> no_line_break sp = true -> is_space c0 = false ->
  block_ok fm = true -> body_start_ok body = true ->
  match_here frontmatterRegex (frontmatter_document fm body) 0
  = Some {| m_index := 0;
            m_text := js "---" ++ [LF] ++ fm ++ [LF] ++ js "---" ++ [LF];
            m_group := Some fm |}.
Proof.
  intros Hfm Hsp Hc0 Hok Hb. unfold match_here, frontmatter_document.
  set (doc := js "---" ++ [LF] ++ fm ++ [LF] ++ js "---" ++ [LF] ++ body).
  change frontmatterRegex with
    (Seq (lit (js "---")) (Seq (Star is_space)
       (Seq (Opt (chr CR)) (Seq (chr LF) (Seq (Group (StarLazy any_char))
          (seqs [Opt (chr CR); chr LF; lit (js "---"); Star is_space;
                 Opt (chr CR); Opt (chr LF)])))))).
  rewrite rmatch_Seq. unfold doc at 1. rewrite rmatch_lit_app.
  rewrite rmatch_Seq.
  change (rmatch (Star is_space) ?s ?c ?k) with (star_greedy is_space s (k c)).
  cbv beta. change ([LF] ++ fm ++ ?x) with (LF :: (fm ++ x)).
  change (star_greedy is_space (LF :: ?s) ?k) with
    (match star_greedy is_space s k with
     | Some x => Some x
     | None => k (LF :: s)
     end).
  rewrite Hfm at 1. rewrite <- app_assoc.
  change ((c0 :: fm0) ++ ?x) with (c0 :: (fm0 ++ x)).
  rewrite (leading_space_fails _ sp c0 _ _ _ Hsp Hc0).
  rewrite opener_LF. rewrite rmatch_Seq.
  change (rmatch (Group (StarLazy any_char)) ?s ?c ?k)
    with (star_lazy any_char s
            (fun s' => k (Some (take (length s - length s') s)) s')).
  apply star_lazy_skip.
  - intros u1 u2 -> Hne. apply closing_fails; auto.
    apply block_ok_suffix in Hok. exact Hok.
  - apply closing_succeeds; [exact Hb|]. f_equal. f_equal.
    + unfold doc.
      replace (js "---" ++ [LF] ++ fm ++ [LF] ++ js "---" ++ [LF] ++ body)
        with ((js "---" ++ [LF] ++ fm ++ [LF] ++ js "---" ++ [LF]) ++ body)
        by (rewrite <- !app_assoc; reflexivity).
      apply take_app_length_diff.
    + f_equal. apply (take_app_length_diff fm).
Qed.

Lemma no_line_break_app a b :
  no_line_break (a ++ b) = no_line_break a && no_line_break b.
Proof. apply forallb_app. Qed.

Lemma block_ok_line l rest :
  no_line_break l = true -> block_ok rest = true ->
  startsWith rest (js "---") = false ->
  block_ok (l ++ LF :: rest) = true.
Proof.
  intros Hl Hr Hd. induction l as [|c l IH].
  - cbn [app block_ok]. rewrite Hd, Hr. reflexivity.
  - apply no_line_break_cons in Hl as (H1 & H2 & Hl).
    change ((c :: l) ++ LF :: rest) with (c :: (l ++ LF :: rest)).
    cbn [block_ok]. rewrite Ascii.eqb_sym in H1, H2. rewrite H1, H2.
    simpl. apply IH; exact Hl.
Qed.

Lemma block_ok_no_break l : no_line_break l = true -> block_ok l = true.
Proof.
  induction l as [|c l IH]; [reflexivity|].
  intros H. apply no_line_break_cons in H as (H1 & H2 & Hl).
  cbn [block_ok]. rewrite Ascii.eqb_sym in H1, H2. rewrite H1, H2.
  simpl. auto.
Qed.

(** A line without line break that holds a visible character starts with
    blanks followed by a visible character. *)
Lemma first_visible l c :
  no_line_break l = true -> In c l -> is_space c = false ->
  exists sp c0 rest, l = sp ++ c0 :: rest
                     /\ no_line_break sp = true /\ is_space c0 = false.
Proof.
  induction l as [|a l IH]; intros Hl Hin Hc; [destruct Hin|].
  destruct (is_space a) eqn:Ha.
  - destruct Hin as [->|Hin]; [congruence|].
    pose proof Hl as Hl'. apply no_line_break_cons in Hl' as (H1 & H2 & Hl').
    destruct (IH Hl' Hin Hc) as (sp & c0 & rest & -> & Hsp & Hc0).
    exists (a :: sp), c0, rest. split; [reflexivity|]. split; [|exact Hc0].
    simpl. rewrite Ascii.eqb_sym in H1, H2. rewrite H1, H2. exact Hsp.
  - exists [], a, l. auto.
Qed.

Lemma startsWith_key k rest :
  startsWith k (js "---") = false ->
  startsWith (k ++ js ": " ++ rest) (js "---") = false.
Proof.
  destruct k as [|a [|b [|c k]]]; cbn -[Ascii.eqb]; eval_eqb;
    cbn -[Ascii.eqb];
    repeat match goal with
    | |- context [Ascii.eqb "-" ?x] =>
        destruct (Ascii.eqb "-" x); cbn -[Ascii.eqb]
    end; auto.
Qed.

Lemma kv_line_valid kv :
  valid_kv kv = true ->
  no_line_break (kv_line kv) = true
  /\ (forall rest, startsWith (kv_line kv ++ rest) (js "---") = false)
  /\ exists sp c0 l0, kv_line kv = sp ++ c0 :: l0
                      /\ no_line_break sp = true /\ is_space c0 = false.
Proof.
  destruct kv as [k v]. unfold valid_kv, kv_line. cbn [fst snd].
  intros H. apply andb_true_iff in H as [H Hd].
  apply andb_true_iff in H as [Hk Hv]. apply negb_true_iff in Hd.
  assert (Hnb : no_line_break (k ++ js ": " ++ v) = true)
    by (rewrite !no_line_break_app, Hk, Hv; reflexivity).
  split; [exact Hnb|]. split.
  - intros rest. rewrite <- !app_assoc. apply startsWith_key; exact Hd.
  - apply (first_visible _ ":"%char Hnb); [|reflexivity].
    apply in_or_app. right. left. reflexivity.
Qed.

Lemma frontmatter_block_valid kv kvs :
  forallb valid_kv (kv :: kvs) = true ->
  block_ok (frontmatter_block (kv :: kvs)) = true
  /\ startsWith (frontmatter_block (kv :: kvs)) (js "---") = false
  /\ exists sp c0 fm0, frontmatter_block (kv :: kvs) = sp ++ c0 :: fm0
                       /\ no_line_break sp = true /\ is_space c0 = false.
Proof.
  revert kv; induction kvs as [|kv' kvs IH]; intros kv H.
  - simpl in H. rewrite andb_true_r in H.
    apply kv_line_valid in H as (Hnb & Hs & Hv).
    unfold frontmatter_block. simpl. split; [|split].
    + apply block_ok_no_break; exact Hnb.
    + specialize (Hs []). rewrite app_nil_r in Hs. exact Hs.
    + exact Hv.
  - change (forallb valid_kv (kv :: kv' :: kvs))
      with (valid_kv kv && forallb valid_kv (kv' :: kvs)) in H.
    apply andb_true_iff in H as [Hkv H].
    apply IH in H as (Hok & Hst & _).
    apply kv_line_valid in Hkv as (Hnb & Hs & sp & c0 & l0 & E0 & Hsp & Hc0).
    change (frontmatter_block (kv :: kv' :: kvs))
      with (kv_line kv ++ LF :: frontmatter_block (kv' :: kvs)).
    split; [|split].
    + apply block_ok_line; auto.
    + apply Hs.
    + rewrite E0, <- app_assoc.
      exists sp, c0, (l0 ++ LF :: frontmatter_block (kv' :: kvs)). auto.
Qed.

(** C4 (amended).  A document that starts with a frontmatter block of
    [key: value] lines (at least one; no line break inside a key or a
    value, no key that starts with [---]) followed by a body that does not
    start with white space round-trips byte for byte: [parseFrontmatter]
    returns the block verbatim as [frontmatterRaw] and the body, and
    [serializeDocumentContent] of the two is the document. *)
Theorem frontmatter_roundtrip kv kvs body :
  forallb valid_kv (kv :: kvs) = true ->
  body_start_ok body = true ->
  let block := frontmatter_block (kv :: kvs) in
  let doc := frontmatter_document block body in
  fr_frontmatterRaw (parseFrontmatter doc) = Some block
  /\ fr_body (parseFrontmatter doc) = body
  /\ serializeDocumentContent (fr_frontmatterRaw (parseFrontmatter doc))
       (fr_body (parseFrontmatter doc)) = doc.
Proof.
  intros Hv Hb block doc.
  destruct (frontmatter_block_valid _ _ Hv)
    as (Hok & _ & sp & c0 & fm0 & E & Hsp & Hs).
  fold block in Hok, E.
  assert (P : parseFrontmatter doc
              = {| fr_body := body;
                   fr_frontmatter :=
                     foldl frontmatter_line ∅ (split_lines block);
                   fr_frontmatterRaw := Some block |}).
  { unfold parseFrontmatter.
    change (startsWith doc (js "---")) with true. cbv iota. simpl negb.
    cbv iota. unfold doc.
    rewrite (parse_block block body sp c0 fm0 E Hsp Hs Hok Hb).
    simpl m_text. simpl m_group. simpl default. f_equal.
    unfold frontmatter_document.
    replace (js "---" ++ [LF] ++ block ++ [LF] ++ js "---" ++ [LF] ++ body)
      with ((js "---" ++ [LF] ++ block ++ [LF] ++ js "---" ++ [LF]) ++ body)
      by (rewrite <- !app_assoc; reflexivity).
    apply drop_app_length. }
  rewrite P. cbn [fr_frontmatterRaw fr_body].
  split; [reflexivity|]. split; [reflexivity|].
  unfold doc, frontmatter_document. clearbody block.
  assert (Hraw : exists r0 raw', block = r0 :: raw').
  { rewrite E. destruct sp; simpl; eauto. }
  destruct Hraw as (r0 & raw' & ->).
  unfold serializeDocumentContent.
  replace (startsWith body [LF]) with false; [reflexivity|].
  destruct body as [|b body]; [reflexivity|].
  simpl in Hb. apply negb_true_iff in Hb.
  pose proof (not_space_not_LF _ Hb) as HLF.
  unfold LF in *. cbn -[Ascii.eqb]. rewrite HLF. reflexivity.
Qed.

Lemma frontmatter_roundtrip_witness :
  let block := frontmatter_block [(js "key", js "value")] in
  let doc := frontmatter_document block (js "Body") in
  fr_frontmatterRaw (parseFrontmatter doc) = Some block
  /\ fr_body (parseFrontmatter doc) = js "Body"
  /\ serializeDocumentContent (fr_frontmatterRaw (parseFrontmatter doc))
       (fr_body (parseFrontmatter doc)) = doc.
Proof.
  apply (frontmatter_roundtrip (js "key", js "value") [] (js "Body"));
    reflexivity.
Defined.

(** C4, as stated, fails on a body that starts with a blank line: the
    closing delimiter's [\s*] consumes the blank line as well. *)
Lemma frontmatter_roundtrip_counterexample :
  let body := [LF] ++ js "Body" in
  let doc :=
    frontmatter_document (frontmatter_block [(js "key", js "value")]) body in
  fr_body (parseFrontmatter doc) <> body
  /\ serializeDocumentContent (fr_frontmatterRaw (parseFrontmatter doc))
       (fr_body (parseFrontmatter doc)) <> doc.
Proof. vm_compute. split; discriminate. Qed.

(** ** What the frontmatter match leaves of the end of a text *)




Lemma trimStart_spaces ws rest :
  Forall (fun c => is_space c = true) ws ->
  trimStart (ws ++ rest) = trimStart rest.
Proof.
  induction 1 as [|c ws Hc _ IH]; simpl; [reflexivity|].
  rewrite Hc. exact IH.
Qed.


Lemma parse_body_plain c :
  fr_frontmatterRaw (parseFrontmatter c) = None ->
  fr_body (parseFrontmatter c) = c.
Proof.
  unfold parseFrontmatter. destruct (negb _); [reflexivity|].
  destruct (match_here _ _ _); [discriminate|reflexivity].
Qed.





(** ** Records and the document store *)

Section ObjFacts.
Context {V : Type}.
Implicit Types (o : list (jstring * V)).

Lemma obj_get_set_eq k v o : obj_get k (obj_set k v o) = Some v.
Proof.
  induction o as [|[k' v'] o IH]; simpl.
  - rewrite jeqb_refl; reflexivity.
  - destruct (jeqb k' k) eqn:E; simpl.
    + rewrite jeqb_refl; reflexivity.
    + rewrite E; exact IH.
Qed.

Lemma obj_get_set_ne k k' v o :
  k <> k' -> obj_get k' (obj_set k v o) = obj_get k' o.
Proof.
  intros Hne. induction o as [|[k0 v0] o IH]; simpl.
  - apply jeqb_false in Hne. rewrite Hne. reflexivity.
  - destruct (jeqb k0 k) eqn:E; simpl.
    + apply jeqb_true in E as ->. apply jeqb_false in Hne.
      rewrite Hne. reflexivity.
    + rewrite IH. reflexivity.
Qed.

Lemma obj_delete_missing k o : obj_get k o = None -> obj_delete k o = o.
Proof.
  induction o as [|[k' v'] o IH]; simpl; [reflexivity|].
  destruct (jeqb k' k); [discriminate|]. intros H. rewrite IH; auto.
Qed.

Lemma obj_set_missing k v o :
  obj_get k o = None -> obj_set k v o = o ++ [(k, v)].
Proof.
  induction o as [|[k' v'] o IH]; simpl; [reflexivity|].
  destruct (jeqb k' k); [discriminate|]. intros H. rewrite IH; auto.
Qed.
End ObjFacts.


Lemma substring_0 (s : jstring) n : substring s 0 n = take n s.
Proof. unfold substring. rewrite Nat.sub_0_r. reflexivity. Qed.

(** The body [updateDocument] stores is the parsed body in both cases. *)
Lemma updateDocument_content e d content s doc :
  obj_get d (documents s) = Some doc ->
  exists s' doc',
    updateDocument e d content s = Some s'
    /\ obj_get d (documents s') = Some doc'
    /\ d_content doc' = fr_body (parseFrontmatter content)
    /\ d_title doc' = d_title doc /\ d_path doc' = d_path doc
    /\ pendingChanges s' = pendingChanges s
    /\ (forall d', d <> d' ->
          obj_get d' (documents s') = obj_get d' (documents s)).
Proof.
  intros Hd. unfold updateDocument. rewrite Hd. simpl.
  eexists _, _. split; [reflexivity|]. simpl.
  rewrite obj_get_set_eq. split; [reflexivity|]. simpl.
  split.
  - destruct (fr_frontmatterRaw (parseFrontmatter content)) eqn:E; [reflexivity|].
    symmetry. apply parse_body_plain. exact E.
  - repeat split; auto. intros d' Hne. apply obj_get_set_ne; exact Hne.
Qed.




(** ** The pending-change state machine *)

Lemma find_mark st id cs :
  find (fun c => jeqb (c_id c) id)
    (map (fun c => if jeqb (c_id c) id then with_status st c else c) cs)
  = with_status st <$> find (fun c => jeqb (c_id c) id) cs.
Proof.
  induction cs as [|c cs IH]; simpl; [reflexivity|].
  destruct (jeqb (c_id c) id) eqn:E; simpl; rewrite E; [reflexivity|exact IH].
Qed.

(** A resolved change is not applied again. *)
Lemma applyChange_resolved e id s c :
  find (fun c => jeqb (c_id c) id) (pendingChanges s) = Some c ->
  c_status c <> Pending ->
  applyChange e id s = Some s.
Proof.
  intros Hf Hst. unfold applyChange. rewrite Hf. unfold is_pending.
  destruct (c_status c); [congruence|reflexivity|reflexivity].
Qed.

Lemma applyChange_unknown e id s :
  find (fun c => jeqb (c_id c) id) (pendingChanges s) = None ->
  applyChange e id s = Some s.
Proof. intros Hf. unfold applyChange. rewrite Hf. reflexivity. Qed.

Lemma with_status_idem st st' c :
  with_status st (with_status st' c) = with_status st c.
Proof. reflexivity. Qed.

Lemma dismissChange_twice id s :
  dismissChange id (dismissChange id s) = dismissChange id s.
Proof.
  unfold dismissChange, mark, set_pendingChanges. simpl. f_equal.
  rewrite map_map. apply map_ext. intros c.
  destruct (jeqb (c_id c) id) eqn:E; simpl; rewrite E; reflexivity.
Qed.

Lemma applyChange_after_dismiss e id s :
  applyChange e id (dismissChange id s) = Some (dismissChange id s).
Proof.
  destruct (find (fun c => jeqb (c_id c) id)
              (pendingChanges (dismissChange id s))) as [c|] eqn:Hf.
  - apply (applyChange_resolved e id _ c Hf).
    simpl in Hf. rewrite find_mark in Hf.
    destruct (find _ (pendingChanges s)); [|discriminate].
    injection Hf as <-. discriminate.
  - apply applyChange_unknown; exact Hf.
Qed.

Lemma updateDocument_pending e d content s s' :
  updateDocument e d content s = Some s' ->
  pendingChanges s' = pendingChanges s.
Proof.
  unfold updateDocument. destruct (obj_get d (documents s)); [|discriminate].
  intros [= <-]. reflexivity.
Qed.

(** After [applyChange] the change found under the id is resolved. *)
Lemma applyChange_resolves e id s s' c :
  find (fun c => jeqb (c_id c) id) (pendingChanges s) = Some c ->
  applyChange e id s = Some s' ->
  exists c', find (fun c => jeqb (c_id c) id) (pendingChanges s') = Some c'
             /\ c_status c' <> Pending.
Proof.
  intros Hf. unfold applyChange. rewrite Hf.
  destruct (is_pending c) eqn:Hp; cbn [negb].
  2:{ intros [= <-]. exists c. split; [exact Hf|].
      unfold is_pending in Hp. destruct (c_status c); congruence. }
  intros H.
  assert (exists s1, s' = mark Applied id s1
                     /\ pendingChanges s1 = pendingChanges s) as (s1 & -> & Hs1).
  { destruct (is_create (c_operation c) || jeqb (c_documentId c) (js "new")).
    { injection H as <-. eexists; split; reflexivity. }
    destruct (is_delete (c_operation c)).
    { injection H as <-. eexists; split; reflexivity. }
    destruct (obj_get (c_documentId c) (documents s)).
    2:{ injection H as <-. eexists; split; reflexivity. }
    destruct (applyChangeToContent (d_content d) c); [|discriminate].
    cbn [mbind option_bind] in H.
    destruct (updateDocument _ _ _ _) eqn:E; [|discriminate].
    injection H as <-. eexists; split; [reflexivity|].
    eapply updateDocument_pending; exact E. }
  exists (with_status Applied c). simpl. rewrite find_mark, Hs1, Hf.
  split; [reflexivity|discriminate].
Qed.

(** Applying twice is applying once. *)
Lemma applyChange_twice e e' id s s' :
  applyChange e id s = Some s' -> applyChange e' id s' = Some s'.
Proof.
  intros H.
  destruct (find (fun c => jeqb (c_id c) id) (pendingChanges s)) as [c|] eqn:Hf.
  - destruct (applyChange_resolves e id s s' c Hf H) as (c' & Hf' & Hst).
    apply (applyChange_resolved e' id s' c' Hf' Hst).
  - rewrite (applyChange_unknown e id s Hf) in H. injection H as <-.
    apply applyChange_unknown; exact Hf.
Qed.

(** C1: [dismissChange] has no guard on the status.  Dismissing a change
    that was applied turns its status from applied to dismissed, while the
    content the change inserted stays in the document. *)
Theorem dismiss_after_apply_changes_status :
  let change := insert_at_end (js "c1") (js "d1") (js "A") [] in
  let s0 := example_store [change] in
  exists s1,
    applyChange example_env (js "c1") s0 = Some s1
    /\ map c_status (pendingChanges s1) = [Applied]
    /\ map c_status (pendingChanges (dismissChange (js "c1") s1)) = [Dismissed]
    /\ documents (dismissChange (js "c1") s1) = documents s1
    /\ d_content <$> obj_get (js "d1") (documents s1)
       = Some (js "<h1>X</h1>" ++ [LF] ++ js "A").
Proof. eexists. split; [vm_compute; reflexivity|]. vm_compute. auto. Qed.

(** C7.  Applying a pending delete change whose target document is not
    in the store, or a pending insert or replace change whose target
    document is not in the store and whose [documentId] names no member
    of [Object.prototype] (the [documentId] not being the sentinel "new"
    either), completes, leaves the documents as they are and marks the
    change applied; for insert and replace nothing else changes.  For
    an insert or replace change whose [documentId] names a member of
    [Object.prototype] the test [if (doc)] of the source passes without a
    document, which this statement leaves out. *)
Theorem applyChange_missing_document e id s c :
  find (fun c => jeqb (c_id c) id) (pendingChanges s) = Some c ->
  c_status c = Pending ->
  is_create (c_operation c) = false ->
  jeqb (c_documentId c) (js "new") = false ->
  obj_get (c_documentId c) (documents s) = None ->
  (is_delete (c_operation c) = false ->
   inherited_key (c_documentId c) = false) ->
  exists s',
    applyChange e id s = Some s'
    /\ documents s' = documents s
    /\ find (fun c => jeqb (c_id c) id) (pendingChanges s')
       = Some (with_status Applied c)
    /\ (is_delete (c_operation c) = false -> s' = mark Applied id s).
Proof.
  intros Hf Hst Hop Hnew Hd _. unfold applyChange.
  rewrite Hf. unfold is_pending. rewrite Hst, Hop, Hnew, Hd. simpl.
  destruct (is_delete (c_operation c)); simpl.
  - eexists. split; [reflexivity|]. simpl.
    rewrite (obj_delete_missing _ _ Hd), find_mark, Hf.
    repeat split; auto. discriminate.
  - eexists. split; [reflexivity|]. simpl. rewrite find_mark, Hf. auto.
Qed.

Lemma applyChange_creates e id s c :
  find (fun c => jeqb (c_id c) id) (pendingChanges s) = Some c ->
  c_status c = Pending ->
  is_create (c_operation c) || jeqb (c_documentId c) (js "new") = true ->
  obj_get (newDocumentId e) (documents s) = None ->
  exists s',
    applyChange e id s = Some s'
    /\ documents s'
       = documents s
         ++ [(newDocumentId e, created_document e (c_target c) (c_content c))]
    /\ currentDocumentId s' = Some (newDocumentId e)
    /\ find (fun c => jeqb (c_id c) id) (pendingChanges s')
       = Some (with_status Applied c).
Proof.
  intros Hf Hst Hop Hfresh. unfold applyChange.
  rewrite Hf. unfold is_pending. rewrite Hst, Hop. simpl.
  eexists. split; [reflexivity|]. simpl.
  rewrite (obj_set_missing _ _ _ Hfresh), find_mark, Hf. auto.
Qed.

Lemma parse_no_frontmatter content :
  startsWith content (js "---") = false ->
  parseFrontmatter content
  = {| fr_body := content; fr_frontmatter := ∅; fr_frontmatterRaw := None |}.
Proof. intros H. unfold parseFrontmatter. rewrite H. reflexivity. Qed.

(** C9 (amended).  A pending change whose [documentId] is the sentinel
    "new" creates a document, whatever its operation: the new document is
    titled [change.target] and is built from [change.content], whose
    frontmatter block, if any, is split off, so that the body is
    [change.content] whenever that does not start with [---]. *)
Theorem applyChange_new_creates e id s c :
  find (fun c => jeqb (c_id c) id) (pendingChanges s) = Some c ->
  c_status c = Pending ->
  jeqb (c_documentId c) (js "new") = true ->
  obj_get (newDocumentId e) (documents s) = None ->
  exists s' doc,
    applyChange e id s = Some s'
    /\ documents s' = documents s ++ [(newDocumentId e, doc)]
    /\ d_title doc = c_target c
    /\ d_content doc = fr_body (parseFrontmatter (c_content c))
    /\ (startsWith (c_content c) (js "---") = false ->
        d_content doc = c_content c)
    /\ find (fun c => jeqb (c_id c) id) (pendingChanges s')
       = Some (with_status Applied c).
Proof.
  intros Hf Hst Hnew Hfresh.
  destruct (applyChange_creates e id s c Hf Hst) as (s' & H1 & H2 & _ & H4);
    [rewrite Hnew; apply orb_true_r|exact Hfresh|].
  exists s', (created_document e (c_target c) (c_content c)).
  repeat split; auto.
  intros Hs. simpl. rewrite (parse_no_frontmatter _ Hs). reflexivity.
Qed.

(** ** Slugs and document creation *)

Lemma slug_char_not_hyphen c : is_slug_char c = true -> Ascii.eqb c "-" = false.
Proof.
  intros H. destruct (Ascii.eqb c "-") eqn:E; [|reflexivity].
  apply Ascii.eqb_eq in E as ->. discriminate H.
Qed.

Lemma collapse_runs_shape s b :
  Forall (fun c => is_slug_char c || Ascii.eqb c "-" = true) (collapse_runs s b)
  /\ no_double_hyphen (collapse_runs s b) = true
  /\ (b = true -> head (collapse_runs s b) <> Some "-"%char).
Proof.
  revert b; induction s as [|c s IH]; intros b; simpl.
  - repeat split; [constructor|discriminate].
  - destruct (is_slug_char c) eqn:Hc.
    + destruct (IH false) as (H1 & H2 & _). repeat split.
      * constructor; [rewrite Hc; reflexivity|exact H1].
      * simpl. rewrite H2, (slug_char_not_hyphen _ Hc).
        destruct (collapse_runs s false); reflexivity.
      * simpl. intros _ [= ->]. discriminate Hc.
    + destruct (IH true) as (H1 & H2 & H3). destruct b.
      * repeat split; auto.
      * repeat split; [constructor; [reflexivity|exact H1]| |discriminate].
        simpl. rewrite H2. specialize (H3 eq_refl).
        destruct (collapse_runs s true) as [|d t]; [reflexivity|].
        destruct (Ascii.eqb d "-") eqn:E; [|reflexivity].
        apply Ascii.eqb_eq in E as ->. exfalso; apply H3; reflexivity.
Qed.

Lemma no_double_hyphen_spec s :
  no_double_hyphen s = true -> forall u v, s <> u ++ js "--" ++ v.
Proof.
  intros H u v ->. induction u as [|a u IH].
  - simpl in H. discriminate.
  - apply IH. simpl in H. apply andb_true_iff in H as [_ H]. exact H.
Qed.

Lemma nodh_rev s : nodh s -> nodh (rev s).
Proof.
  intros H u v E. apply (H (rev v) (rev u)).
  rewrite <- (rev_involutive s), E, !rev_app_distr, <- app_assoc. reflexivity.
Qed.

Lemma nodh_suffix p s : nodh (p ++ s) -> nodh s.
Proof.
  intros H u v ->. apply (H (p ++ u) v). rewrite <- app_assoc. reflexivity.
Qed.

Lemma strip_leading_split s :
  exists p, s = p ++ strip_leading_hyphen s /\ (p = [] \/ p = js "-").
Proof.
  destruct s as [|c s]; simpl; [exists []; auto|].
  destruct (Ascii.eqb c "-") eqn:E.
  - apply Ascii.eqb_eq in E as ->. exists (js "-"); auto.
  - exists []; auto.
Qed.

Lemma strip_leading_head s :
  nodh s -> head (strip_leading_hyphen s) <> Some "-"%char.
Proof.
  intros H. destruct s as [|c s]; simpl; [discriminate|].
  destruct (Ascii.eqb c "-") eqn:E.
  - apply Ascii.eqb_eq in E as ->. destruct s as [|d s]; [discriminate|].
    simpl. intros [= ->]. apply (H [] s). reflexivity.
  - simpl. intros [= ->]. discriminate E.
Qed.

Lemma head_rev (s : jstring) : head (rev s) = last s.
Proof.
  induction s as [|c s IH]; [reflexivity|]. simpl.
  destruct s as [|d s]; [reflexivity|].
  simpl in *. destruct (rev s ++ [d]) eqn:E.
  - destruct (rev s); discriminate.
  - simpl in *. exact IH.
Qed.

Lemma last_rev (s : jstring) : last (rev s) = head s.
Proof. rewrite <- head_rev, rev_involutive. reflexivity. Qed.

Lemma last_app_nonempty (p s : jstring) : s <> [] -> last (p ++ s) = last s.
Proof.
  intros Hs. induction p as [|c p IH]; [reflexivity|].
  simpl. destruct (p ++ s) eqn:E; [|exact IH].
  destruct p, s; try discriminate; congruence.
Qed.

Lemma strip_hyphens_shape t :
  Forall (fun c => is_slug_char c || Ascii.eqb c "-" = true) t ->
  nodh t -> slug_shape (strip_hyphens t).
Proof.
  intros Hall Hnd. unfold strip_hyphens.
  set (t1 := strip_leading_hyphen t).
  destruct (strip_leading_split t) as (p & Hp & _). fold t1 in Hp.
  assert (Hnd1 : nodh t1) by (rewrite Hp in Hnd; eapply nodh_suffix; eauto).
  assert (Hh1 : head t1 <> Some "-"%char) by (apply strip_leading_head; exact Hnd).
  assert (Hall1 : Forall (fun c => is_slug_char c || Ascii.eqb c "-" = true) t1).
  { rewrite Hp in Hall. apply Forall_app in Hall as [_ H]. exact H. }
  clearbody t1. clear Hp Hall Hnd p.
  set (y := strip_leading_hyphen (rev t1)).
  destruct (strip_leading_split (rev t1)) as (p & Hp & Hp'). fold y in Hp.
  assert (Hndy : nodh y).
  { apply nodh_rev in Hnd1. rewrite Hp in Hnd1. eapply nodh_suffix; eauto. }
  assert (Hhy : head y <> Some "-"%char)
    by (apply strip_leading_head, nodh_rev; exact Hnd1).
  assert (Hally : Forall (fun c => is_slug_char c || Ascii.eqb c "-" = true) y).
  { apply Forall_rev in Hall1. rewrite Hp in Hall1.
    apply Forall_app in Hall1 as [_ H]. exact H. }
  repeat split.
  - apply Forall_rev; exact Hally.
  - apply nodh_rev; exact Hndy.
  - rewrite head_rev. destruct y as [|c y'] eqn:Ey; [discriminate|].
    assert (E : last (c :: y') = last (rev t1)).
    { rewrite Hp. symmetry. apply last_app_nonempty. discriminate. }
    rewrite E, last_rev. exact Hh1.
  - rewrite last_rev. exact Hhy.
Qed.

Lemma filter_collapse_runs s b :
  List.filter is_slug_char (collapse_runs s b) = List.filter is_slug_char s.
Proof.
  revert b; induction s as [|c s IH]; intros b; simpl; [reflexivity|].
  destruct (is_slug_char c) eqn:Hc; simpl.
  - rewrite Hc, IH. reflexivity.
  - destruct b; simpl; rewrite IH; reflexivity.
Qed.

Lemma filter_strip_leading s :
  List.filter is_slug_char (strip_leading_hyphen s) = List.filter is_slug_char s.
Proof.
  destruct s as [|c s]; simpl; [reflexivity|].
  destruct (Ascii.eqb c "-") eqn:E; [|reflexivity].
  apply Ascii.eqb_eq in E as ->. reflexivity.
Qed.

(** The slug: lower-case letters, digits and single hyphens, no hyphen at
    either end, and the letters and digits of the lower-cased title in
    their order. *)
Lemma slugify_shape title :
  slug_shape (slugify title)
  /\ List.filter is_slug_char (slugify title)
     = List.filter is_slug_char (toLowerCase title).
Proof.
  unfold slugify. destruct (collapse_runs_shape (toLowerCase title) false) as (H1 & H2 & _).
  split.
  - apply strip_hyphens_shape; [exact H1|]. exact (no_double_hyphen_spec _ H2).
  - unfold strip_hyphens.
    rewrite List.filter_rev, filter_strip_leading, List.filter_rev, rev_involutive,
      filter_strip_leading, filter_collapse_runs. reflexivity.
Qed.

(** C6.  What [applyChange] does with a pending create change: it adds
    one document to the store and leaves the documents already there as
    they are.  The new document is titled [change.target] as given,
    [createDocument] comparing it with no title of the store, and its
    path is the slug of the title under [/docs/] with the extension
    [.md]; the slug holds lower-case letters, digits and single hyphens
    only, has no hyphen at either end, and keeps the letters and digits
    of the lower-cased title. *)
Theorem applyChange_create e id s c :
  find (fun c => jeqb (c_id c) id) (pendingChanges s) = Some c ->
  c_status c = Pending ->
  is_create (c_operation c) = true ->
  obj_get (newDocumentId e) (documents s) = None ->
  exists s' doc,
    applyChange e id s = Some s'
    /\ documents s' = documents s ++ [(newDocumentId e, doc)]
    /\ d_title doc = c_target c
    /\ d_path doc = js "/docs/" ++ slugify (c_target c) ++ js ".md"
    /\ slug_shape (slugify (c_target c))
    /\ List.filter is_slug_char (slugify (c_target c))
       = List.filter is_slug_char (toLowerCase (c_target c)).
Proof.
  intros Hf Hst Hop Hfresh.
  destruct (applyChange_creates e id s c Hf Hst) as (s' & H1 & H2 & _);
    [rewrite Hop; reflexivity|exact Hfresh|].
  exists s', (created_document e (c_target c) (c_content c)).
  destruct (slugify_shape (c_target c)) as [Hs Hfl].
  split; [exact H1|]. split; [exact H2|]. split; [reflexivity|].
  split; [reflexivity|]. split; assumption.
Qed.

Lemma applyChange_create_witness :
  exists s' doc,
    applyChange example_env (js "c1") (example_store [example_create])
    = Some s'
    /\ documents s'
       = documents (example_store [example_create])
         ++ [(newDocumentId example_env, doc)]
    /\ d_title doc = js "Untitled"
    /\ d_path doc = js "/docs/" ++ slugify (js "Untitled") ++ js ".md"
    /\ slug_shape (slugify (js "Untitled"))
    /\ List.filter is_slug_char (slugify (js "Untitled"))
       = List.filter is_slug_char (toLowerCase (js "Untitled")).
Proof.
  apply (applyChange_create example_env (js "c1")
           (example_store [example_create]) example_create); reflexivity.
Defined.

(** C6 at the failing input: a create change titled "Untitled", applied
    to a store that already holds a document titled "Untitled", adds a
    second document with the same title and the same path; no suffix is
    appended.  The database, in which the first document holds that path
    and paths are unique, refuses the row of the second one, which so
    lives in the store only. *)
Lemma applyChange_create_counterexample :
  exists s',
    applyChange example_env (js "c1") (example_store [example_create])
    = Some s'
    /\ map (fun kv => d_title kv.2) (documents s')
       = [js "Untitled"; js "Untitled"]
    /\ map (fun kv => d_path kv.2) (documents s')
       = [js "/docs/untitled.md"; js "/docs/untitled.md"]
    /\ exists call,
         turso s' = [call]
         /\ persist 1702 call example_database = example_database.
Proof.
  eexists. split; [vm_compute; reflexivity|].
  split; [vm_compute; reflexivity|]. split; [vm_compute; reflexivity|].
  eexists. split; vm_compute; reflexivity.
Qed.

Lemma applyChange_missing_document_witness :
  exists s',
    applyChange example_env (js "c1")
      (example_store [insert_at_end (js "c1") (js "gone") (js "A") []])
    = Some s'
    /\ documents s'
       = documents
           (example_store [insert_at_end (js "c1") (js "gone") (js "A") []])
    /\ find (fun c => jeqb (c_id c) (js "c1")) (pendingChanges s')
       = Some (with_status Applied
                 (insert_at_end (js "c1") (js "gone") (js "A") []))
    /\ (is_delete OpInsert = false ->
        s' = mark Applied (js "c1")
               (example_store
                  [insert_at_end (js "c1") (js "gone") (js "A") []])).
Proof.
  apply (applyChange_missing_document example_env (js "c1")
           (example_store [insert_at_end (js "c1") (js "gone") (js "A") []])
           (insert_at_end (js "c1") (js "gone") (js "A") []));
    reflexivity.
Defined.

Lemma applyChange_new_creates_witness :
  exists s' doc,
    applyChange example_env (js "c1")
      (example_store
         [example_change (js "new") OpDelete (js "Notes") (js "<p>hi</p>")])
    = Some s'
    /\ documents s'
       = documents
           (example_store
              [example_change (js "new") OpDelete (js "Notes")
                 (js "<p>hi</p>")])
         ++ [(newDocumentId example_env, doc)]
    /\ d_title doc = js "Notes"
    /\ d_content doc = fr_body (parseFrontmatter (js "<p>hi</p>"))
    /\ (startsWith (js "<p>hi</p>") (js "---") = false ->
        d_content doc = js "<p>hi</p>")
    /\ find (fun c => jeqb (c_id c) (js "c1")) (pendingChanges s')
       = Some (with_status Applied
                 (example_change (js "new") OpDelete (js "Notes")
                    (js "<p>hi</p>"))).
Proof.
  apply (applyChange_new_creates example_env (js "c1")
           (example_store
              [example_change (js "new") OpDelete (js "Notes")
                 (js "<p>hi</p>")])
           (example_change (js "new") OpDelete (js "Notes")
              (js "<p>hi</p>")));
    reflexivity.
Defined.

(** C9, as stated, fails on a content that starts with a frontmatter
    block: the body of the created document is the text after the block,
    not [change.content]. *)
Lemma applyChange_new_counterexample :
  let content :=
    frontmatter_document (js "status: draft") (js "<p>hi</p>") in
  let change := example_change (js "new") OpInsert (js "Notes") content in
  exists s' doc,
    applyChange example_env (js "c1") (example_store [change]) = Some s'
    /\ obj_get (newDocumentId example_env) (documents s') = Some doc
    /\ d_title doc = js "Notes"
    /\ d_content doc = js "<p>hi</p>"
    /\ d_content doc <> c_content change.
Proof.
  eexists _, _. split; [vm_compute; reflexivity|].
  vm_compute. repeat split; discriminate.
Qed.

(** ** The content locator *)

Lemma while_exec_first_outcome {A} fuel re content li
    (body : RegExpMatch -> option (outcome A)) :
  (forall w, lang re w -> w <> []) ->
  li <= length content -> length content < li + fuel ->
  while_exec fuel re content li body
  = first_outcome body (matches_from fuel re content li).
Proof.
  intros Hne. revert li; induction fuel as [|fuel IH]; intros li Hli Hfuel.
  - lia.
  - simpl. destruct (exec re content li) as [m|] eqn:E; [|reflexivity].
    simpl. apply exec_sound in E as (H1 & H2 & H3 & _).
    assert (length (m_text m) <> 0).
    { intros H0. apply (Hne _ H3). destruct (m_text m); [reflexivity|discriminate]. }
    destruct (body m) as [[a|]|]; try reflexivity.
    apply IH; lia.
Qed.

Lemma matches_from_sound fuel re content li m :
  In m (matches_from fuel re content li) ->
  exists li', exec re content li' = Some m.
Proof.
  revert li; induction fuel as [|fuel IH]; intros li; simpl; [tauto|].
  destruct (exec re content li) as [m'|] eqn:E; [|simpl; tauto].
  intros [<-|H]; [eauto|]. eapply IH; exact H.
Qed.

Lemma first_outcome_prop {A} (P : A -> Prop)
    (body : RegExpMatch -> option (outcome A)) ms :
  (forall m, In m ms ->
     exists o, body m = Some o /\ forall a, o = Return a -> P a) ->
  exists o, first_outcome body ms = Some o /\ forall a, o = Return a -> P a.
Proof.
  induction ms as [|m ms IH]; intros H; simpl.
  - exists Continue. split; [reflexivity|discriminate].
  - destruct (H m (or_introl eq_refl)) as (o & -> & Ho).
    destruct o as [a|].
    + exists (Return a); auto.
    + apply IH. intros m' Hm'. apply H. right; exact Hm'.
Qed.

Lemma first_outcome_continue {A} (body : RegExpMatch -> option (outcome A)) ms :
  (forall m, In m ms -> body m = Some Continue) ->
  first_outcome body ms = Some Continue.
Proof.
  induction ms as [|m ms IH]; intros H; simpl; [reflexivity|].
  rewrite (H m (or_introl eq_refl)). apply IH. intros m' Hm'. apply H. right; exact Hm'.
Qed.

Lemma first_outcome_first {A} (body : RegExpMatch -> option (outcome A)) pre m post :
  (forall m', In m' pre -> body m' = Some Continue) ->
  first_outcome body (pre ++ m :: post)
  = match body m with
    | Some Continue => first_outcome body post
    | r => r
    end.
Proof.
  induction pre as [|m0 pre IH]; intros H; simpl.
  - destruct (body m) as [[a|]|]; reflexivity.
  - rewrite (H m0 (or_introl eq_refl)). apply IH. intros m' Hm'. apply H. right; exact Hm'.
Qed.

Lemma in_range_weaken lo hi hi' c :
  (hi <= hi')%N -> in_range lo hi c = true -> in_range lo hi' c = true.
Proof.
  unfold in_range. intros Hh H. apply andb_true_iff in H as [H1 H2].
  apply N.leb_le in H1, H2. apply andb_true_iff. split; apply N.leb_le; lia.
Qed.

Lemma heading_lang w :
  lang headingRegex w ->
  exists h d rest, w = "<"%char :: h :: d :: rest /\ in_range 49 54 d = true.
Proof.
  unfold headingRegex, seqs. cbn [foldr lang].
  intros (u1 & r1 & -> & (c1 & -> & H1) & u2 & r2 & -> & (c2 & -> & H2)
          & u3 & r3 & -> & (c3 & -> & H3) & _).
  apply Ascii.eqb_eq in H1 as <-. exists c2, c3, r3. auto.
Qed.

Lemma heading_nonempty w : lang headingRegex w -> w <> [].
Proof. intros H. apply heading_lang in H as (h & d & rest & -> & _). discriminate. Qed.

Lemma closing_lang w : lang closingHeadingRegex w -> length w = 5.
Proof.
  unfold closingHeadingRegex, seqs. cbn [foldr lang].
  intros (u1 & r1 & -> & (c1 & -> & H1) & u2 & r2 & -> & (c2 & -> & H2)
          & u3 & r3 & -> & (c3 & -> & H3) & u4 & r4 & -> & (c4 & -> & H4)
          & u5 & r5 & -> & (c5 & -> & H5) & ->).
  reflexivity.
Qed.

(** The level of a heading always yields a regular expression. *)
Lemma heading_level m :
  lang headingRegex (m_text m) ->
  exists d, charAt (m_text m) 2 = [d] /\ in_range 49 54 d = true
            /\ is_Some (nextHeadingRegex [d]).
Proof.
  intros H. apply heading_lang in H as (h & d & rest & E & Hd).
  exists d. rewrite E. split; [reflexivity|]. split; [exact Hd|].
  simpl. rewrite (in_range_weaken 49 54 57 d) by (auto; lia). eauto.
Qed.

Lemma headings_sound content m :
  In m (headings content) ->
  lang headingRegex (m_text m)
  /\ m_index m + length (m_text m) <= length content.
Proof.
  intros H. apply matches_from_sound in H as (li & H).
  apply exec_sound in H as (_ & H2 & H3 & _). auto.
Qed.

Lemma search_from_bound r s i m :
  search_from r s i = Some m ->
  i <= m_index m /\ m_index m + length (m_text m) <= i + length s
  /\ lang r (m_text m).
Proof.
  intros H. apply search_from_sound in H as (j & Hi & Hj & Hm & _).
  apply match_here_sound in Hm as (_ & Hl & s' & Hs).
  assert (length (drop j s) = length (m_text m) + length s')
    by (rewrite Hs, length_app; reflexivity).
  rewrite length_drop in H. repeat split; auto; lia.
Qed.

Lemma while_headings {A} content (body : RegExpMatch -> option (outcome A)) :
  while_exec (S (length content)) headingRegex content 0 body
  = first_outcome body (headings content).
Proof. apply while_exec_first_outcome; [apply heading_nonempty|lia|lia]. Qed.

(** [findInsertionPoint] always returns an offset of the document. *)
Lemma findInsertionPoint_total content target :
  exists n, findInsertionPoint content target = Some n /\ n <= length content.
Proof.
  unfold findInsertionPoint.
  set (lt := toLowerCase target).
  set (body := fun m : RegExpMatch => _).
  assert (Hbody : exists o,
    (if includes lt (js "after")
     then while_exec (S (length content)) headingRegex content 0 body
     else Some Continue) = Some o
    /\ forall a, o = Return a -> a <= length content).
  { destruct (includes lt (js "after")).
    2:{ exists Continue; split; [reflexivity|discriminate]. }
    rewrite while_headings. apply first_outcome_prop.
    intros m Hm. apply headings_sound in Hm as (Hl & Hb).
    unfold body. destruct (includes _ _).
    2:{ exists Continue; split; [reflexivity|discriminate]. }
    destruct (heading_level m Hl) as (d & -> & _ & (re & ->)).
    cbn [mbind option_bind].
    destruct (exec re content _) as [nm|] eqn:E.
    - eexists; split; [reflexivity|]. intros a [= <-].
      apply exec_sound in E as (_ & H2 & _). lia.
    - eexists; split; [reflexivity|]. intros a [= <-]. lia. }
  destruct Hbody as (o & -> & Ho). cbn [mbind option_bind].
  destruct o as [a|]; [eauto|].
  destruct (includes lt (js "before")).
  - destruct (indexOf _ _) as [index|] eqn:Ei.
    + apply indexOf_from_bound in Ei. rewrite length_toLowerCase in Ei.
      destruct (lastIndexOf _ _) as [l|] eqn:El.
      * eexists; split; [reflexivity|].
        apply lastIndexOf_from_bound in El as [El|El]; [discriminate|].
        unfold substring in El. rewrite length_take, length_drop in El. lia.
      * eexists; split; [reflexivity|]. lia.
    + destruct (includes lt (js "end")); [eauto|].
      destruct (_ || _); [|eauto].
      destruct (search_from _ _ _) as [m|] eqn:E.
      * apply search_from_bound in E as (_ & H2 & H3).
        apply closing_lang in H3. eexists; split; [reflexivity|]. lia.
      * eexists; split; [reflexivity|]. lia.
  - destruct (includes lt (js "end")); [eauto|].
    destruct (_ || _); [|eauto].
    destruct (search_from _ _ _) as [m|] eqn:E.
    + apply search_from_bound in E as (_ & H2 & H3).
      apply closing_lang in H3. eexists; split; [reflexivity|]. lia.
    + eexists; split; [reflexivity|]. lia.
Qed.


Lemma existsb_false_In {A} (f : A -> bool) l x :
  existsb f l = false -> In x l -> f x = false.
Proof.
  intros H Hx. destruct (f x) eqn:E; [|reflexivity].
  assert (existsb f l = true) by (apply existsb_exists; eauto). congruence.
Qed.

Lemma findAndReplace_total content target newContent :
  exists r, findAndReplace content target newContent = Some r.
Proof.
  unfold findAndReplace.
  set (body := fun m : RegExpMatch => _).
  assert (Hbody : exists o,
    (if includes (toLowerCase target) (js "replace")
        || includes (toLowerCase target) (js "delete")
     then while_exec (S (length content)) headingRegex content 0 body
     else Some Continue) = Some o).
  { destruct (_ || _); [|eauto].
    rewrite while_headings.
    destruct (first_outcome_prop (fun _ => True) body (headings content))
      as (o & Ho & _); [|eauto].
    intros m Hm. apply headings_sound in Hm as (Hl & Hb).
    unfold body. destruct (includes _ _); [|eauto].
    destruct (heading_level m Hl) as (d & -> & _ & (re & ->)).
    cbn [mbind option_bind]. eauto. }
  destruct Hbody as (o & ->). cbn [mbind option_bind].
  destruct o; eauto.
Qed.

Lemma findInsertionPoint_fallback content target :
  after_rule_applies content target = false ->
  before_rule_applies content target = false ->
  end_rule_applies target = false ->
  start_rule_applies target = false ->
  findInsertionPoint content target = Some (length content).
Proof.
  unfold after_rule_applies, before_rule_applies, end_rule_applies,
    start_rule_applies, after_term, before_term, findInsertionPoint.
  intros Ha Hb He Hs. rewrite He, Hs.
  set (body := fun m : RegExpMatch => _).
  assert (Hafter :
    (if includes (toLowerCase target) (js "after")
     then while_exec (S (length content)) headingRegex content 0 body
     else Some Continue) = Some Continue).
  { destruct (includes (toLowerCase target) (js "after")); [|reflexivity].
    cbn [andb] in Ha. rewrite while_headings. apply first_outcome_continue.
    intros m Hm. unfold body.
    pose proof (existsb_false_In _ _ _ Ha Hm) as Hh. unfold heading_hit in Hh.
    rewrite Hh. reflexivity. }
  rewrite Hafter. cbn [mbind option_bind].
  destruct (includes (toLowerCase target) (js "before")); [|reflexivity].
  cbn [andb] in Hb. unfold includes in Hb.
  destruct (indexOf _ _); [discriminate|reflexivity].
Qed.

Lemma findAndReplace_fallback content target newContent :
  section_rule_applies content target = false ->
  findAndReplace content target newContent
  = Some (content ++ [LF] ++ newContent).
Proof.
  unfold section_rule_applies, section_term, findAndReplace. intros H.
  set (body := fun m : RegExpMatch => _).
  assert (Hsec :
    (if includes (toLowerCase target) (js "replace")
        || includes (toLowerCase target) (js "delete")
     then while_exec (S (length content)) headingRegex content 0 body
     else Some Continue) = Some Continue).
  { destruct (_ || _); [|reflexivity].
    cbn [andb] in H. rewrite while_headings. apply first_outcome_continue.
    intros m Hm. unfold body.
    pose proof (existsb_false_In _ _ _ H Hm) as Hh. unfold heading_hit in Hh.
    rewrite Hh. reflexivity. }
  rewrite Hsec. reflexivity.
Qed.

(** C8.  The content locator is total: [findInsertionPoint] always
    returns an offset within the document and [findAndReplace] always
    returns a content, whatever the content and the target.  When no rule
    of the cascade applies (the keyword is absent, or its search finds no
    heading or no occurrence), [findInsertionPoint] returns the length of
    the document, and when the section rule does not apply
    [findAndReplace] appends the new content after a line break. *)
Theorem locator_total_and_degrade_safe content target newContent :
  (exists n, findInsertionPoint content target = Some n
             /\ n <= length content)
  /\ (exists r, findAndReplace content target newContent = Some r)
  /\ (after_rule_applies content target = false ->
      before_rule_applies content target = false ->
      end_rule_applies target = false ->
      start_rule_applies target = false ->
      findInsertionPoint content target = Some (length content))
  /\ (section_rule_applies content target = false ->
      findAndReplace content target newContent
      = Some (content ++ [LF] ++ newContent)).
Proof.
  split; [apply findInsertionPoint_total|].
  split; [apply findAndReplace_total|].
  split; [apply findInsertionPoint_fallback|apply findAndReplace_fallback].
Qed.

Lemma locator_total_and_degrade_safe_witness :
  let content := js "<h2>Intro</h2><p>x</p>" in
  let target := js "after Roadmap" in
  findInsertionPoint content target = Some (length content)
  /\ findAndReplace content (js "replace Roadmap") (js "NEW")
     = Some (content ++ [LF] ++ js "NEW").
Proof.
  split.
  - apply (locator_total_and_degrade_safe
             (js "<h2>Intro</h2><p>x</p>") (js "after Roadmap") []);
      reflexivity.
  - apply (locator_total_and_degrade_safe
             (js "<h2>Intro</h2><p>x</p>") (js "replace Roadmap") (js "NEW"));
      reflexivity.
Defined.

(** ** Sections *)


Lemma lower_h b :
  Ascii.eqb (lower_char b) (lower_char "h") = (Ascii.eqb b "h" || Ascii.eqb b "H").
Proof. destruct b as [[] [] [] [] [] [] [] []]; reflexivity. Qed.

Lemma star_greedy_reach {R} (p : ascii -> bool) u c v (k : jstring -> option R) x :
  k (c :: v) = Some x -> p c = false -> Forall (fun a => p a = true) u ->
  star_greedy p (u ++ c :: v) k = Some x.
Proof.
  intros Hk Hc Hu. induction Hu as [|a u Ha _ IH]; simpl.
  - rewrite Hc. exact Hk.
  - rewrite Ha, IH. reflexivity.
Qed.

Lemma existsb_split_first (c : ascii) s :
  existsb (Ascii.eqb c) s = true ->
  exists u v, s = u ++ c :: v /\ Forall (fun a => is_not c a = true) u.
Proof.
  induction s as [|a s IH]; simpl; [discriminate|].
  destruct (Ascii.eqb c a) eqn:E.
  - apply Ascii.eqb_eq in E as <-. intros _. exists [], s. split; [reflexivity|constructor].
  - simpl. intros H. destruct (IH H) as (u & v & -> & Hu).
    exists (a :: u), v. split; [reflexivity|]. constructor; [|exact Hu].
    unfold is_not. rewrite Ascii.eqb_sym, E. reflexivity.
Qed.

Lemma next_lang d w :
  lang (next_regex d) w ->
  exists b c attrs, w = "<"%char :: b :: c :: attrs ++ [">"%char]
    /\ (Ascii.eqb b "h" || Ascii.eqb b "H") = true
    /\ in_range 49 (code d) c = true.
Proof.
  unfold next_regex, seqs. cbn [foldr lang].
  intros (u1 & r1 & -> & (c1 & -> & H1) & u2 & r2 & -> & (c2 & -> & H2)
          & u3 & r3 & -> & (c3 & -> & H3) & u4 & r4 & -> & H4
          & u5 & r5 & -> & (c5 & -> & H5) & ->).
  apply Ascii.eqb_eq in H1 as <-. apply Ascii.eqb_eq in H5 as <-.
  rewrite lower_h in H2. exists c2, c3, u4. rewrite app_nil_r. auto.
Qed.

Lemma next_match_opening d s i m :
  match_here (next_regex d) s i = Some m -> opening_tag d s = true.
Proof.
  intros H. apply match_here_sound in H as (_ & Hl & s' & ->).
  apply next_lang in Hl as (b & c & attrs & -> & Hb & Hc).
  simpl. rewrite Hb, Hc. simpl. rewrite <- app_assoc, existsb_app. simpl.
  apply orb_true_r.
Qed.

Lemma opening_next_match d s i :
  opening_tag d s = true -> is_Some (match_here (next_regex d) s i).
Proof.
  destruct s as [|a [|b [|c rest]]]; try discriminate. simpl.
  intros H. apply andb_true_iff in H as [H Hex].
  apply andb_true_iff in H as [H Hc]. apply andb_true_iff in H as [Ha Hb].
  apply Ascii.eqb_eq in Ha as ->.
  destruct (existsb_split_first _ _ Hex) as (u & v & -> & Hu).
  unfold match_here, next_regex, seqs. cbn [foldr].
  rewrite !rmatch_Seq. cbn [rmatch chr chr_i]. rewrite Ascii.eqb_refl.
  rewrite lower_h, Hb, Hc.
  erewrite star_greedy_reach; [eauto| |reflexivity|exact Hu].
  cbn. reflexivity.
Qed.

Lemma nextHeadingRegex_digit d :
  in_range 49 54 d = true -> nextHeadingRegex [d] = Some (next_regex d).
Proof.
  intros H. simpl. rewrite (in_range_weaken 49 54 57 d) by (auto; lia).
  reflexivity.
Qed.

Lemma exec_section_end d content from :
  from <= length content ->
  section_end content from d
    (match exec (next_regex d) content from with
     | Some nextMatch => m_index nextMatch
     | None => length content
     end).
Proof.
  intros Hfrom. unfold exec.
  destruct (length content <? from) eqn:E; [apply Nat.ltb_lt in E; lia|].
  destruct (search_from _ _ _) as [m|] eqn:S.
  - left. apply search_from_sound in S as (j & Hi & Hj & Hm & Hmin).
    rewrite length_drop in Hj. rewrite drop_drop in Hm. rewrite Hi.
    split; [lia|]. split; [eapply next_match_opening; exact Hm|].
    intros j' Hj'. destruct (opening_tag d (drop j' content)) eqn:O; [|reflexivity].
    apply (opening_next_match d _ j') in O as (m' & O).
    specialize (Hmin (j' - from) ltac:(lia)).
    rewrite drop_drop in Hmin. replace (from + (j' - from)) with j' in Hmin by lia.
    congruence.
  - right. split; [reflexivity|]. intros j Hj.
    destruct (opening_tag d (drop j content)) eqn:O; [|reflexivity].
    apply (opening_next_match d _ j) in O as (m' & O).
    pose proof (search_from_none _ _ _ S (j - from)) as Hn.
    rewrite length_drop, drop_drop in Hn.
    replace (from + (j - from)) with j in Hn by lia.
    rewrite Hn in O by lia. discriminate.
Qed.

(** C3 (amended).  When the target of [findAndReplace] holds "replace" or
    "delete", the headings are scanned in document order and the first
    one whose markup (opening tag, text and closing tag; not the text
    alone), in lower case, contains the cleaned target starts the section;
    the section ends at the first following opening tag of a heading of
    equal or shallower level, or at the end of the document; exactly that
    span is replaced by the new content.  On the example of the
    specification, "replace A" replaces the span
    [<h2>A</h2><p>1</p><h3>B</h3><p>2</p>]. *)
Theorem findAndReplace_section content target newContent pre m post :
  (includes (toLowerCase target) (js "replace")
   || includes (toLowerCase target) (js "delete") = true ->
   headings content = pre ++ m :: post ->
   existsb (heading_hit (section_term target)) pre = false ->
   heading_hit (section_term target) m = true ->
   exists level sectionEnd,
     charAt (m_text m) 2 = [level] /\ in_range 49 54 level = true
     /\ section_end content (m_index m + length (m_text m)) level sectionEnd
     /\ findAndReplace content target newContent
        = Some (take (m_index m) content ++ newContent
                  ++ drop sectionEnd content))
  /\ findAndReplace example_content (js "replace A") newContent
     = Some (js "<h1>T</h1>" ++ newContent ++ js "<h2>C</h2>")
  /\ example_content
     = js "<h1>T</h1>" ++ js "<h2>A</h2><p>1</p><h3>B</h3><p>2</p>"
       ++ js "<h2>C</h2>".
Proof.
  split; [|split; reflexivity].
  intros Hkw Hhs Hpre Hm.
  assert (Hin : In m (headings content)) by (rewrite Hhs; apply in_elt).
  apply headings_sound in Hin as (Hl & Hb).
  destruct (heading_level m Hl) as (d & Hd & Hr & _).
  exists d, (match exec (next_regex d) content (m_index m + length (m_text m)) with
             | Some nextMatch => m_index nextMatch
             | None => length content
             end).
  split; [exact Hd|]. split; [exact Hr|].
  split; [apply exec_section_end; exact Hb|].
  unfold findAndReplace. rewrite Hkw, while_headings, Hhs.
  rewrite first_outcome_first.
  - unfold heading_hit, section_term in Hm. rewrite Hm, Hd.
    rewrite (nextHeadingRegex_digit d Hr). cbn [mbind option_bind].
    rewrite substring_0. reflexivity.
  - intros m' Hm'. pose proof (existsb_false_In _ _ _ Hpre Hm') as Hh.
    unfold heading_hit, section_term in Hh. rewrite Hh. reflexivity.
Qed.

Lemma findAndReplace_section_witness :
  exists level sectionEnd,
    charAt (js "<h2>A</h2>") 2 = [level] /\ in_range 49 54 level = true
    /\ section_end example_content (10 + length (js "<h2>A</h2>")) level
         sectionEnd
    /\ findAndReplace example_content (js "replace A") (js "NEW")
       = Some (take 10 example_content ++ js "NEW"
                 ++ drop sectionEnd example_content).
Proof.
  apply (proj1 (findAndReplace_section example_content (js "replace A")
                  (js "NEW") (take 1 example_headings)
                  {| m_index := 10; m_text := js "<h2>A</h2>";
                     m_group := None |}
                  (drop 2 example_headings)));
    reflexivity.
Defined.

(** C3, as stated, fails: the locator tests the markup of a heading, not
    its text.  With the target "replace 2" the heading "Intro", an [<h2>],
    is taken although its text does not contain "2", and its section is
    replaced instead of the section of the heading "2". *)
Lemma findAndReplace_section_counterexample :
  let content := js "<h2>Intro</h2><p>x</p><h2>2</h2>" in
  let target := js "replace 2" in
  map heading_text (headings content) = [js "Intro"; js "2"]
  /\ section_term target = js "2"
  /\ findAndReplace content target (js "NEW") = Some (js "NEW<h2>2</h2>")
  /\ findAndReplace_by_text content target (js "NEW")
     = Some (js "<h2>Intro</h2><p>x</p>NEW")
  /\ findAndReplace content target (js "NEW")
     <> findAndReplace_by_text content target (js "NEW").
Proof. vm_compute. repeat split; discriminate. Qed.

(** ** Entities *)

Section EntityFacts.
Context {Value : Type}.
Implicit Types (table : list (EntityRow Value)) (s : EntityStore Value).

Lemma filter_map_id (id : jstring) (f : EntityRow Value -> EntityRow Value) table :
  (forall row, r_id (f row) = r_id row) ->
  List.filter (fun row => jeqb (r_id row) id) (map f table)
  = map f (List.filter (fun row => jeqb (r_id row) id) table).
Proof.
  intros Hf. induction table as [|row table IH]; simpl; [reflexivity|].
  rewrite Hf. destruct (jeqb (r_id row) id); simpl; rewrite IH; reflexivity.
Qed.

Lemma getEntity_id id table ent :
  getEntity id table = Some ent -> e_id ent = id.
Proof.
  unfold getEntity. destruct (List.filter _ table) as [|row rows] eqn:E; [discriminate|].
  simpl. intros [= <-]. simpl.
  assert (In row (List.filter (fun row => jeqb (r_id row) id) table))
    by (rewrite E; left; reflexivity).
  apply filter_In in H as [_ H]. apply jeqb_true in H. exact H.
Qed.

(** The row of an entity after the data-access [updateEntity]. *)
Lemma db_updateEntity_row e id updates table row :
  head (List.filter (fun row => jeqb (r_id row) id) table) = Some row ->
  exists table',
    db_updateEntity e id updates table = Some table'
    /\ head (List.filter (fun row => jeqb (r_id row) id) table')
       = Some (updated_row e updates row).
Proof.
  intros Hrow. unfold db_updateEntity, getEntity. rewrite Hrow. simpl.
  eexists. split; [reflexivity|].
  rewrite filter_map_id.
  2:{ intros r. destruct (jeqb (r_id r) id); reflexivity. }
  destruct (List.filter _ table) as [|r rows] eqn:E; [discriminate|].
  injection Hrow as ->. simpl.
  assert (In row (List.filter (fun row => jeqb (r_id row) id) table))
    by (rewrite E; left; reflexivity).
  apply filter_In in H as [_ H]. rewrite H. reflexivity.
Qed.

(** C5 (amended).  [updateEntity] on an entity that the table and the
    store hold replaces [name] when the update gives one, replaces the
    [properties] mapping as a whole when the update gives one (the
    properties are not merged: keys that the update does not name are
    dropped) and leaves it as it is otherwise, and always sets
    [updated_at]; the other fields and the other entities are untouched. *)
Theorem updateEntity_replaces e1 e2 id updates s row old :
  head (List.filter (fun row => jeqb (r_id row) id) (entities_table s))
  = Some row ->
  entities s !! id = Some old ->
  exists s' new,
    updateEntity e1 e2 id updates s = Some s'
    /\ entities s' !! id = Some new
    /\ e_name new = default (e_name old) (u_name updates)
    /\ e_properties new = default (e_properties old) (u_properties updates)
    /\ e_updated_at new = now e2
    /\ (e_id new, e_type new, e_created_at new)
       = (e_id old, e_type old, e_created_at old)
    /\ (forall id', id <> id' -> entities s' !! id' = entities s !! id')
    /\ getEntity id (entities_table s')
       = Some (entity_of_row (updated_row e1 updates row)).
Proof.
  intros Hrow Hold. unfold updateEntity.
  destruct (db_updateEntity_row e1 id updates _ row Hrow) as (table' & -> & Ht).
  cbn [mbind option_bind]. rewrite Hold. cbn [mbind option_bind].
  eexists _, _. split; [reflexivity|]. cbn [entities entities_table].
  rewrite lookup_insert_eq. split; [reflexivity|]. cbn.
  repeat split.
  - intros id' Hne. apply lookup_insert_ne; exact Hne.
  - unfold getEntity. rewrite Ht. reflexivity.
Qed.

(** An update of an entity that the table does not hold is an error. *)
Lemma updateEntity_missing e1 e2 id updates s :
  getEntity id (entities_table s) = None ->
  updateEntity e1 e2 id updates s = None.
Proof.
  intros H. unfold updateEntity, db_updateEntity. rewrite H. reflexivity.
Qed.

(** C10.  [searchEntities] returns at most 20 entities: the first 20 of
    the matching rows in name order, however many rows match. *)
Theorem searchEntities_limit query table :
  length (searchEntities query table) <= 20
  /\ length (searchEntities query table)
     = Nat.min 20
         (length (List.filter
                    (fun row => like (js "%" ++ query ++ js "%") (r_name row))
                    table)).
Proof.
  unfold searchEntities. rewrite length_map, length_take.
  rewrite (Permutation_length (merge_sort_Permutation _ _)).
  split; [lia|reflexivity].
Qed.
End EntityFacts.

Lemma updateEntity_replaces_witness :
  exists s' new,
    updateEntity example_env example_env (js "person-1") example_update
      example_entities = Some s'
    /\ entities s' !! js "person-1" = Some new
    /\ e_name new
       = default (e_name (entity_of_row example_row)) (u_name example_update)
    /\ e_properties new
       = default (e_properties (entity_of_row example_row))
           (u_properties example_update)
    /\ e_updated_at new = now example_env
    /\ (e_id new, e_type new, e_created_at new)
       = (e_id (entity_of_row example_row), e_type (entity_of_row example_row),
          e_created_at (entity_of_row example_row))
    /\ (forall id', js "person-1" <> id' ->
          entities s' !! id' = entities example_entities !! id')
    /\ getEntity (js "person-1") (entities_table s')
       = Some (entity_of_row
                 (updated_row example_env example_update example_row)).
Proof.
  apply (updateEntity_replaces example_env example_env (js "person-1")
           example_update example_entities example_row
           (entity_of_row example_row)); reflexivity.
Defined.

(** C5, as stated, fails: an update that names the property "role" only
    drops the property "email", in the store and in the table. *)
Lemma updateEntity_counterexample :
  exists s' new stored,
    updateEntity example_env example_env (js "person-1") example_update
      example_entities = Some s'
    /\ entities s' !! js "person-1" = Some new
    /\ getEntity (js "person-1") (entities_table s') = Some stored
    /\ r_properties example_row !! js "email" = Some 2%Z
    /\ e_properties new !! js "email" = None
    /\ e_properties stored !! js "email" = None
    /\ e_properties new !! js "role" = Some 3%Z.
Proof.
  eexists _, _, _. split; [vm_compute; reflexivity|].
  split; [vm_compute; reflexivity|]. split; [vm_compute; reflexivity|].
  vm_compute. auto.
Qed.

(** Twenty-five rows match; twenty are returned. *)
Lemma searchEntities_limit_example :
  length (searchEntities (js "a")
            (repeat example_row 25)) = 20.
Proof. vm_compute. reflexivity. Qed.

(** ** The "New document" action *)

Lemma to_int_not_nil z : Z.to_int z <> Decimal.Pos Decimal.Nil /\ Z.to_int z <> Decimal.Neg Decimal.Nil.
Proof.
  destruct z; simpl; split; try discriminate.
  - intros [= H]. apply (DecimalPos.Unsigned.to_uint_nonnil p). exact H.
  - intros [= H]. apply (DecimalPos.Unsigned.to_uint_nonnil p). exact H.
Qed.

Lemma showZ_inj a b : showZ a = showZ b -> a = b.
Proof.
  unfold showZ, js. intros H.
  apply (f_equal string_of_list_ascii) in H.
  rewrite !string_of_list_ascii_of_string in H.
  apply (f_equal NilZero.int_of_string) in H.
  destruct (to_int_not_nil a), (to_int_not_nil b).
  rewrite !NilZero.isi in H by assumption.
  injection H as H. apply DecimalZ.to_int_inj. exact H.
Qed.

Section Untitled.
Context (E : gset jstring) (base : jstring).

Lemma candidate_inj a b : candidate base a = candidate base b -> a = b.
Proof.
  unfold candidate. intros H. apply app_inv_head in H.
  apply app_inv_head in H. apply showZ_inj; exact H.
Qed.

Lemma candidate_not_base k : candidate base k <> base.
Proof.
  unfold candidate. intros H. apply (f_equal length) in H.
  rewrite !length_app in H. simpl in H. lia.
Qed.

Lemma untitled_loop_total (fuel : nat) (seen : gset jstring)
    (title : jstring) (suffix : Z) :
  seen ⊆ E -> title ∉ seen ->
  (forall k, (suffix <= k)%Z -> (candidate base k ∉ seen) /\ candidate base k <> title) ->
  size E < size seen + fuel ->
  exists t, untitled_loop fuel E base title suffix = Some t /\ (t ∉ E)
            /\ (t = title \/ exists k, (suffix <= k)%Z /\ t = candidate base k).
Proof.
  revert seen title suffix; induction fuel as [|fuel IH];
    intros seen title suffix Hsub Hnew Hcand Hsize.
  - apply subseteq_size in Hsub. lia.
  - simpl. destruct (bool_decide (title ∈ E)) eqn:B.
    + apply bool_decide_eq_true in B.
      destruct (IH ({[title]} ∪ seen) (candidate base suffix) (suffix + 1)%Z)
        as (t & Ht & HtE & Hform).
      * apply union_least; [apply singleton_subseteq_l; exact B|exact Hsub].
      * destruct (Hcand suffix ltac:(lia)) as [H1 H2]. intros Hin.
        apply elem_of_union in Hin as [Hin|Hin]; [|contradiction].
        apply elem_of_singleton in Hin. contradiction.
      * intros k Hk. destruct (Hcand k ltac:(lia)) as [H1 H2]. split.
        -- intros Hin. apply elem_of_union in Hin as [Hin|Hin]; [|contradiction].
           apply elem_of_singleton in Hin. contradiction.
        -- intros Heq. apply candidate_inj in Heq. lia.
      * rewrite size_union by (apply disjoint_singleton_l; exact Hnew).
        rewrite size_singleton. lia.
      * exists t. split; [exact Ht|]. split; [exact HtE|]. right.
        destruct Hform as [->|(k & Hk & ->)]; [exists suffix|exists k]; split; auto; lia.
    + apply bool_decide_eq_false in B. exists title. auto.
Qed.
End Untitled.

(** The "New document" action always finds a title that no document of the
    store carries, and adds a document with that title. *)
Lemma handleNewDocument_fresh e s :
  exists s' title,
    handleNewDocument e s = Some s'
    /\ (title ∉ map d_title (obj_values (documents s)))
    /\ (title = js "Untitled"
        \/ exists k, (2 <= k)%Z /\ title = js "Untitled " ++ showZ k)
    /\ documents s'
       = obj_set (newDocumentId e)
           (created_document e title
              (js "<h1>" ++ title ++ js "</h1>" ++ [LF] ++ js "<p></p>"))
           (documents s).
Proof.
  unfold handleNewDocument.
  set (E := list_to_set (map d_title (obj_values (documents s))) : gset jstring).
  destruct (untitled_loop_total E (js "Untitled") (S (size E)) ∅ (js "Untitled") 2)
    as (t & Ht & HtE & Hform).
  - apply empty_subseteq.
  - apply not_elem_of_empty.
  - intros k _. split; [apply not_elem_of_empty|apply candidate_not_base].
  - rewrite size_empty. lia.
  - rewrite Ht. cbn [mbind option_bind]. eexists _, t. split; [reflexivity|].
    split; [|split].
    + intros Hin. apply HtE. unfold E. apply elem_of_list_to_set. exact Hin.
    + destruct Hform as [->|(k & Hk & ->)]; [left; reflexivity|right].
      exists k. split; [exact Hk|]. unfold candidate.
      rewrite app_assoc. reflexivity.
    + reflexivity.
Qed.

Lemma handleNewDocument_example :
  (fun s => map (fun kv => d_title kv.2) (documents s))
    <$> handleNewDocument example_env (example_store [])
  = Some [js "Untitled"; js "Untitled 2"].
Proof. vm_compute. reflexivity. Qed.

(** ** The scenarios of the specification *)

(** "after Intro" inserts in front of the next heading of the same
    level. *)
Example after_intro :
  let content := js "<h2>Intro</h2><p>x</p><h2>Roadmap</h2><p>y</p>" in
  findInsertionPoint content (js "after Intro") = Some 22
  /\ drop 22 content = js "<h2>Roadmap</h2><p>y</p>".
Proof. split; reflexivity. Qed.

(** The rule of "beginning" and "start" applies by its keyword alone: it
    returns offset 0 for a document without heading, and the offset after
    the first closing heading tag otherwise. *)
Example at_the_beginning :
  findInsertionPoint (js "<p>x</p>") (js "at the beginning") = Some 0
  /\ findInsertionPoint (js "<h1>T</h1><p>x</p>") (js "at the start")
     = Some 10.
Proof. split; reflexivity. Qed.

(** The adversarial targets: the empty target and a target that matches no
    heading append; of two headings with the same text the first wins. *)
Example degrade_safe_targets :
  findInsertionPoint (js "<h1>T</h1>") [] = Some 10
  /\ findAndReplace (js "<h1>T</h1>") [] (js "N")
     = Some (js "<h1>T</h1>" ++ [LF] ++ js "N")
  /\ findAndReplace (js "<h1>T</h1>") (js "replace Risks") (js "N")
     = Some (js "<h1>T</h1>" ++ [LF] ++ js "N")
  /\ findAndReplace (js "<h2>A</h2><p>1</p><h2>A</h2><p>2</p>")
       (js "replace A") (js "N")
     = Some (js "N<h2>A</h2><p>2</p>").
Proof. repeat split; reflexivity. Qed.

(** ** The ids of a batch of pending changes *)

Lemma split_at_first (a : ascii) l1 l2 r1 r2 :
  ~ In a l1 -> ~ In a l2 -> l1 ++ a :: r1 = l2 ++ a :: r2 -> l1 = l2.
Proof.
  revert l2; induction l1 as [|x l1 IH]; intros [|y l2] H1 H2 E; simpl in *.
  - reflexivity.
  - injection E as -> _. tauto.
  - injection E as -> _. tauto.
  - injection E as -> E. f_equal. apply (IH l2); tauto.
Qed.




(** A fresh batch is pending, and its ids are pairwise distinct. *)
Lemma setPendingChanges_pending clock changes s :
  Forall (fun c => c_status c = Pending)
    (pendingChanges (setPendingChanges clock changes s)).
Proof.
  unfold setPendingChanges. simpl. apply list.Forall_forall. intros c Hc.
  apply elem_of_lookup_imap in Hc as (i & p & -> & _).
  reflexivity.
Qed.


(** * Further properties *)

(** ** Resolving the changes of the queue *)

Lemma applyChangeToContent_total content c :
  exists r, applyChangeToContent content c = Some r.
Proof.
  unfold applyChangeToContent. destruct (c_operation c).
  - destruct (findInsertionPoint_total content (c_target c)) as (n & -> & _).
    eexists; reflexivity.
  - apply findAndReplace_total.
  - apply findAndReplace_total.
  - eexists; reflexivity.
Qed.

Lemma applyChange_total e id s :
  exists s', applyChange e id s = Some s'
             /\ pendingChanges s' = queue_after id (pendingChanges s).
Proof.
  unfold applyChange, queue_after.
  destruct (find _ (pendingChanges s)) as [c|] eqn:Hf; [|eauto].
  destruct (is_pending c) eqn:Hp; cbn [negb]; [|eauto].
  destruct (is_create (c_operation c) || jeqb (c_documentId c) (js "new")).
  { eexists; split; reflexivity. }
  destruct (is_delete (c_operation c)).
  { eexists; split; reflexivity. }
  destruct (obj_get (c_documentId c) (documents s)) as [doc|] eqn:Hd.
  2:{ eexists; split; reflexivity. }
  destruct (applyChangeToContent_total (d_content doc) c) as (r & ->).
  cbn [mbind option_bind].
  destruct (updateDocument_content e _ r s doc Hd)
    as (s1 & doc1 & -> & _ & _ & _ & _ & Hq & _).
  cbn [mbind option_bind]. eexists; split; [reflexivity|].
  simpl. rewrite Hq. reflexivity.
Qed.

Lemma find_mark_ne st id id' cs :
  id <> id' ->
  find (fun c => jeqb (c_id c) id')
    (map (fun c => if jeqb (c_id c) id then with_status st c else c) cs)
  = find (fun c => jeqb (c_id c) id') cs.
Proof.
  intros Hne. induction cs as [|c cs IH]; simpl; [reflexivity|].
  destruct (jeqb (c_id c) id) eqn:E; simpl.
  - apply jeqb_true in E. rewrite E.
    apply jeqb_false in Hne. rewrite Hne. exact IH.
  - rewrite IH. reflexivity.
Qed.

Lemma applyEach_marks envs l : forall i s,
  NoDup l ->
  (forall id, In id l ->
     exists c, find (fun c => jeqb (c_id c) id) (pendingChanges s) = Some c
               /\ is_pending c = true) ->
  exists s',
    applyEach envs i l s = Some s'
    /\ pendingChanges s'
       = map (fun c => if existsb (jeqb (c_id c)) l
                       then with_status Applied c else c) (pendingChanges s).
Proof.
  induction l as [|id l IH]; intros i s Hnd Hl; simpl.
  - exists s. split; [reflexivity|]. rewrite map_id. reflexivity.
  - destruct (applyChange_total (envs i) id s) as (s1 & -> & Hq).
    cbn [mbind option_bind].
    destruct (Hl id) as (c & Hf & Hp); [left; reflexivity|].
    unfold queue_after in Hq. rewrite Hf, Hp in Hq.
    apply NoDup_cons in Hnd as [Hnotin Hnd].
    destruct (IH (S i) s1 Hnd) as (s' & -> & Hq').
    { intros id' Hin. rewrite Hq. rewrite find_mark_ne.
      - apply Hl. right. exact Hin.
      - intros ->. apply Hnotin. apply list_elem_of_In. exact Hin. }
    exists s'. split; [reflexivity|]. rewrite Hq', Hq, map_map.
    apply map_ext. intros a.
    destruct (jeqb (c_id a) id) eqn:E; cbn [orb]; [|reflexivity].
    cbn [with_status c_id].
    destruct (existsb _ l); reflexivity.
Qed.

Lemma find_unique (cs : list PendingChange) c :
  NoDup (map c_id cs) -> In c cs ->
  find (fun a => jeqb (c_id a) (c_id c)) cs = Some c.
Proof.
  induction cs as [|a cs IH]; intros Hnd Hin; [destruct Hin|].
  cbn [map] in Hnd. apply NoDup_cons in Hnd as [Hnotin Hnd]. simpl.
  destruct Hin as [->|Hin].
  - rewrite jeqb_refl. reflexivity.
  - destruct (jeqb (c_id a) (c_id c)) eqn:E.
    + apply jeqb_true in E. exfalso. apply Hnotin. rewrite E.
      apply list_elem_of_In, in_map, Hin.
    + apply IH; assumption.
Qed.

Lemma NoDup_map_filter (cs : list PendingChange) f :
  NoDup (map c_id cs) -> NoDup (map c_id (List.filter f cs)).
Proof.
  induction cs as [|a cs IH]; intros Hnd; simpl; [constructor|].
  cbn [map] in Hnd. apply NoDup_cons in Hnd as [Hnotin Hnd].
  destruct (f a); [|auto]. cbn [map]. apply NoDup_cons. split; [|auto].
  intros Hin. apply Hnotin. apply list_elem_of_In in Hin.
  apply list_elem_of_In. apply in_map_iff in Hin as (b & Hb & Hin).
  apply filter_In in Hin as [Hin _]. rewrite <- Hb. apply in_map, Hin.
Qed.

Lemma existsb_pending_ids (cs : list PendingChange) c :
  NoDup (map c_id cs) -> In c cs ->
  existsb (jeqb (c_id c)) (map c_id (List.filter is_pending cs))
  = is_pending c.
Proof.
  intros Hnd Hin. destruct (is_pending c) eqn:Hp.
  - apply existsb_exists. exists (c_id c). split; [|apply jeqb_refl].
    apply in_map, filter_In. auto.
  - apply not_true_is_false. intros H.
    apply existsb_exists in H as (id & Hid & E). apply jeqb_true in E.
    apply in_map_iff in Hid as (b & Hb & Hin').
    apply filter_In in Hin' as [Hin' Hpb].
    assert (find (fun a => jeqb (c_id a) (c_id c)) cs = Some b) as Hfb.
    { rewrite E, <- Hb. apply find_unique; assumption. }
    rewrite (find_unique cs c Hnd Hin) in Hfb. congruence.
Qed.

Lemma applyAllChanges_marks envs s :
  NoDup (map c_id (pendingChanges s)) ->
  exists s',
    applyAllChanges envs s = Some s'
    /\ pendingChanges s'
       = map (fun c => if is_pending c then with_status Applied c else c)
           (pendingChanges s).
Proof.
  intros Hnd. unfold applyAllChanges.
  destruct (applyEach_marks envs
              (map c_id (List.filter is_pending (pendingChanges s))) 0 s)
    as (s' & -> & Hq).
  { apply NoDup_map_filter, Hnd. }
  { intros id Hin. apply in_map_iff in Hin as (c & <- & Hin).
    apply filter_In in Hin as [Hin Hp]. exists c. split; [|exact Hp].
    apply find_unique; assumption. }
  exists s'. split; [reflexivity|].
  rewrite Hq. apply map_ext_in. intros c Hin.
  rewrite existsb_pending_ids; auto.
Qed.

Lemma filter_pending_applied cs :
  List.filter is_pending
    (map (fun c => if is_pending c then with_status Applied c else c) cs)
  = [].
Proof.
  induction cs as [|c cs IH]; simpl; [reflexivity|].
  destruct (is_pending c) eqn:E; simpl; [|rewrite E]; exact IH.
Qed.

(** X1.  When the ids of the queue are pairwise distinct and no change
    of the queue addresses a document id that names a member of
    [Object.prototype], [applyAllChanges] returns; every change that was
    pending is then applied and every other change is as it was, in the
    same order; no pending change is left, and running [applyAllChanges]
    again changes nothing. *)
Theorem applyAllChanges_resolves_all envs s :
  NoDup (map c_id (pendingChanges s)) ->
  Forall (fun c => inherited_key (c_documentId c) = false)
    (pendingChanges s) ->
  exists s',
    applyAllChanges envs s = Some s'
    /\ pendingChanges s'
       = map (fun c => if is_pending c then with_status Applied c else c)
           (pendingChanges s)
    /\ hasPendingChanges s' = false
    /\ forall envs', applyAllChanges envs' s' = Some s'.
Proof.
  intros Hnd _.
  destruct (applyAllChanges_marks envs s Hnd) as (s' & Hs & Hq).
  exists s'. split; [exact Hs|]. split; [exact Hq|].
  pose proof (filter_pending_applied (pendingChanges s)) as Hnone.
  rewrite <- Hq in Hnone. split.
  - unfold hasPendingChanges. apply not_true_is_false. intros H.
    apply existsb_exists in H as (c & Hin & Hp).
    assert (In c (List.filter is_pending (pendingChanges s'))) as Hc
      by (apply filter_In; auto).
    rewrite Hnone in Hc. destruct Hc.
  - intros envs'. unfold applyAllChanges. rewrite Hnone. reflexivity.
Qed.

Lemma applyAllChanges_resolves_all_witness :
  exists s',
    applyAllChanges (fun _ => example_env)
      (example_store [insert_at_end (js "c1") (js "d1") (js "A") [];
                      with_status Dismissed
                        (insert_at_end (js "c2") (js "d1") (js "B") [])])
    = Some s'
    /\ pendingChanges s'
       = [with_status Applied (insert_at_end (js "c1") (js "d1") (js "A") []);
          with_status Dismissed
            (insert_at_end (js "c2") (js "d1") (js "B") [])]
    /\ hasPendingChanges s' = false
    /\ forall envs', applyAllChanges envs' s' = Some s'.
Proof.
  apply (applyAllChanges_resolves_all (fun _ => example_env)
           (example_store
              [insert_at_end (js "c1") (js "d1") (js "A") [];
               with_status Dismissed
                 (insert_at_end (js "c2") (js "d1") (js "B") [])])).
  - apply (bool_decide_unpack _). vm_compute. exact I.
  - repeat constructor.
Defined.

(** X2.  Resolving a change again does nothing in three of the four
    orders: applying a change that [applyChange] has applied, applying a
    change that [dismissChange] has dismissed and dismissing a dismissed
    change all leave the store, documents and queue, as it was after the
    first resolution. *)
Theorem resolve_again_noop e e' id s s1 :
  applyChange e id s = Some s1 ->
  applyChange e' id s1 = Some s1
  /\ applyChange e' id (dismissChange id s) = Some (dismissChange id s)
  /\ dismissChange id (dismissChange id s) = dismissChange id s.
Proof.
  intros H. split; [|split].
  - eapply applyChange_twice; exact H.
  - apply applyChange_after_dismiss.
  - apply dismissChange_twice.
Qed.

Lemma resolve_again_noop_witness :
  exists s1,
    applyChange example_env (js "c1") (example_store [example_create])
    = Some s1
    /\ applyChange example_env (js "c1") s1 = Some s1
    /\ applyChange example_env (js "c1")
         (dismissChange (js "c1") (example_store [example_create]))
       = Some (dismissChange (js "c1") (example_store [example_create]))
    /\ dismissChange (js "c1")
         (dismissChange (js "c1") (example_store [example_create]))
       = dismissChange (js "c1") (example_store [example_create]).
Proof.
  eexists. split; [reflexivity|].
  apply (resolve_again_noop example_env example_env (js "c1")
           (example_store [example_create])).
  reflexivity.
Defined.

(** X3.  [dismissAllChanges] dismisses the pending changes of the queue
    and no other: applied and dismissed changes keep their status, the
    documents are untouched, no pending change is left, a second call
    changes nothing, and [applyAllChanges] then finds nothing to apply. *)
Theorem dismissAllChanges_only_pending s :
  pendingChanges (dismissAllChanges s)
  = map (fun c => match c_status c with
                  | Pending => with_status Dismissed c
                  | _ => c
                  end) (pendingChanges s)
  /\ hasPendingChanges (dismissAllChanges s) = false
  /\ documents (dismissAllChanges s) = documents s
  /\ dismissAllChanges (dismissAllChanges s) = dismissAllChanges s
  /\ (forall envs, applyAllChanges envs (dismissAllChanges s)
                   = Some (dismissAllChanges s)).
Proof.
  assert (forall cs,
            List.filter is_pending
              (map (fun c => if is_pending c then with_status Dismissed c
                             else c) cs) = []) as Hnone.
  { induction cs as [|c cs IH]; simpl; [reflexivity|].
    destruct (is_pending c) eqn:E; simpl; [|rewrite E]; exact IH. }
  split; [|split; [|split; [|split]]].
  - simpl. apply map_ext. intros c. unfold is_pending.
    destruct (c_status c); reflexivity.
  - unfold hasPendingChanges. simpl.
    induction (pendingChanges s) as [|c cs IH]; simpl; [reflexivity|].
    rewrite IH. destruct (is_pending c) eqn:E; simpl; [|rewrite E];
      reflexivity.
  - reflexivity.
  - unfold dismissAllChanges, set_pendingChanges. simpl. f_equal.
    rewrite map_map. apply map_ext. intros c.
    destruct (is_pending c) eqn:E; simpl; [|rewrite E]; reflexivity.
  - intros envs. unfold applyAllChanges. simpl. rewrite Hnone. reflexivity.
Qed.

(** ** The invariant of the document store *)

Section ObjMore.
Context {V : Type}.
Implicit Types (o : list (jstring * V)).

Lemma obj_get_In k v o : obj_get k o = Some v -> In (k, v) o.
Proof.
  induction o as [|[k' v'] o IH]; simpl; [discriminate|].
  destruct (jeqb k' k) eqn:E.
  - apply jeqb_true in E as ->. intros [= ->]. left; reflexivity.
  - intros H. right. auto.
Qed.

Lemma obj_get_None k o : obj_get k o = None <-> ~ In k (obj_keys o).
Proof.
  induction o as [|[k' v'] o IH]; simpl; [tauto|].
  destruct (jeqb k' k) eqn:E.
  - apply jeqb_true in E as ->. split; [discriminate|]. intros H.
    exfalso. apply H. left; reflexivity.
  - apply jeqb_false in E. rewrite IH. tauto.
Qed.

Lemma obj_keys_set k v o :
  obj_keys (obj_set k v o)
  = match obj_get k o with
    | Some _ => obj_keys o
    | None => obj_keys o ++ [k]
    end.
Proof.
  induction o as [|[k' v'] o IH]; simpl; [reflexivity|].
  destruct (jeqb k' k) eqn:E; simpl.
  - apply jeqb_true in E as ->. reflexivity.
  - rewrite IH. destruct (obj_get k o); reflexivity.
Qed.

Lemma obj_set_In k v o kv :
  In kv (obj_set k v o) -> kv = (k, v) \/ In kv o.
Proof.
  induction o as [|[k' v'] o IH]; simpl; [intuition auto|].
  destruct (jeqb k' k); simpl; intuition auto.
Qed.

Lemma obj_delete_In k o kv :
  In kv (obj_delete k o) <-> In kv o /\ kv.1 <> k.
Proof.
  induction o as [|[k' v'] o IH]; simpl; [tauto|].
  destruct (jeqb k' k) eqn:E.
  - apply jeqb_true in E as ->. rewrite IH. split; [tauto|].
    intros [[<-|H] Hne]; [contradiction|tauto].
  - apply jeqb_false in E. simpl. rewrite IH. split.
    + intros [<-|H]; [split; [left; reflexivity|exact E]|tauto].
    + tauto.
Qed.

Lemma obj_get_delete_eq k o : obj_get k (obj_delete k o) = None.
Proof.
  induction o as [|[k' v'] o IH]; simpl; [reflexivity|].
  destruct (jeqb k' k) eqn:E; simpl; [|rewrite E]; exact IH.
Qed.

Lemma obj_get_delete_ne k k' o :
  k <> k' -> obj_get k' (obj_delete k o) = obj_get k' o.
Proof.
  intros Hne. induction o as [|[k0 v0] o IH]; simpl; [reflexivity|].
  destruct (jeqb k0 k) eqn:E; simpl.
  - apply jeqb_true in E as ->. apply jeqb_false in Hne. rewrite Hne.
    exact IH.
  - rewrite IH. reflexivity.
Qed.

Lemma obj_keys_delete_NoDup k o :
  NoDup (obj_keys o) -> NoDup (obj_keys (obj_delete k o)).
Proof.
  induction o as [|[k' v'] o IH]; simpl; [auto|].
  intros Hnd. apply NoDup_cons in Hnd as [Hn Hnd].
  destruct (jeqb k' k); [auto|]. simpl. apply NoDup_cons. split; [|auto].
  intros Hin. apply Hn. apply list_elem_of_In in Hin.
  apply list_elem_of_In. unfold obj_keys in *.
  apply in_map_iff in Hin as (kv & Hkv & Hin).
  apply obj_delete_In in Hin as [Hin _]. apply in_map_iff. eauto.
Qed.

Lemma obj_keys_set_NoDup k v o :
  NoDup (obj_keys o) -> NoDup (obj_keys (obj_set k v o)).
Proof.
  intros Hnd. rewrite obj_keys_set.
  destruct (obj_get k o) eqn:E; [exact Hnd|].
  apply NoDup_app. split; [exact Hnd|]. split; [|apply NoDup_singleton].
  intros x Hx Hx'. apply list_elem_of_In in Hx'. destruct Hx' as [<-|[]].
  apply obj_get_None in E. apply E. apply list_elem_of_In. exact Hx.
Qed.
End ObjMore.

Lemma store_ok_set s s' k doc :
  store_ok s ->
  documents s' = obj_set k doc (documents s) ->
  d_id doc = k ->
  (forall k', currentDocumentId s' = Some k' ->
     k' = k \/ currentDocumentId s = Some k') ->
  store_ok s'.
Proof.
  intros (Hnd & Hid & Hcur) Hd Hk Hc. unfold store_ok. rewrite Hd.
  split; [apply obj_keys_set_NoDup, Hnd|]. split.
  - apply List.Forall_forall. intros kv Hin.
    apply obj_set_In in Hin as [->|Hin]; [exact Hk|].
    rewrite List.Forall_forall in Hid. auto.
  - intros k' Hk'. destruct (Hc k' Hk') as [->|Hold].
    + rewrite obj_get_set_eq. eauto.
    + destruct (decide (k = k')) as [->|Hne].
      * rewrite obj_get_set_eq. eauto.
      * rewrite obj_get_set_ne by exact Hne. auto.
Qed.

Lemma createDocument_ok e title content s :
  store_ok s -> store_ok (createDocument e title content s).2.
Proof.
  intros Hok. eapply store_ok_set; [exact Hok|reflexivity|reflexivity|].
  simpl. intros k' [= <-]. left; reflexivity.
Qed.

Lemma updateDocument_ok e id content s s' :
  store_ok s -> updateDocument e id content s = Some s' -> store_ok s'.
Proof.
  intros Hok. unfold updateDocument.
  destruct (obj_get id (documents s)) as [existing|] eqn:Hg; [|discriminate].
  cbn [mbind option_bind]. intros [= <-].
  eapply store_ok_set; [exact Hok|reflexivity| |].
  - cbn [d_id]. destruct Hok as (_ & Hid & _).
    rewrite List.Forall_forall in Hid.
    apply (Hid (id, existing)). apply obj_get_In, Hg.
  - simpl. auto.
Qed.

Lemma deleteDocument_ok id s : store_ok s -> store_ok (deleteDocument id s).
Proof.
  intros (Hnd & Hid & Hcur). unfold store_ok, deleteDocument. simpl.
  split; [apply obj_keys_delete_NoDup, Hnd|]. split.
  - apply List.Forall_forall. intros kv Hin.
    apply obj_delete_In in Hin as [Hin _].
    rewrite List.Forall_forall in Hid. auto.
  - intros k. destruct (opt_jeqb (currentDocumentId s) id) eqn:E.
    + destruct (obj_delete id (documents s)) as [|[k0 v0] rest] eqn:Hr;
        [discriminate|]. simpl. destruct k0; [discriminate|].
      intros [= <-]. rewrite jeqb_refl. eauto.
    + intros Hk. rewrite obj_get_delete_ne; [auto|].
      intros ->. rewrite Hk in E. simpl in E. rewrite jeqb_refl in E.
      discriminate.
Qed.

Lemma mark_ok st id s : store_ok s -> store_ok (mark st id s).
Proof. intros H. exact H. Qed.

Lemma applyChange_ok e id s s' :
  store_ok s -> applyChange e id s = Some s' -> store_ok s'.
Proof.
  intros Hok. unfold applyChange.
  destruct (find _ (pendingChanges s)) as [c|]; [|intros [= <-]; exact Hok].
  destruct (negb (is_pending c)); [intros [= <-]; exact Hok|].
  destruct (is_create (c_operation c) || jeqb (c_documentId c) (js "new")).
  { intros [= <-]. apply mark_ok, createDocument_ok, Hok. }
  destruct (is_delete (c_operation c)).
  { intros [= <-]. apply mark_ok, deleteDocument_ok, Hok. }
  destruct (obj_get (c_documentId c) (documents s)).
  2:{ intros [= <-]. apply mark_ok, Hok. }
  destruct (applyChangeToContent (d_content d) c); [|discriminate].
  cbn [mbind option_bind].
  destruct (updateDocument e (c_documentId c) l s) eqn:E; [|discriminate].
  intros [= <-]. apply mark_ok. eapply updateDocument_ok; eauto.
Qed.

Lemma applyEach_ok envs ids : forall i s s',
  store_ok s -> applyEach envs i ids s = Some s' -> store_ok s'.
Proof.
  induction ids as [|id ids IH]; intros i s s' Hok; simpl.
  - intros [= <-]. exact Hok.
  - destruct (applyChange (envs i) id s) eqn:E; [|discriminate].
    cbn [mbind option_bind]. intros H. eapply IH; [|exact H].
    eapply applyChange_ok; eauto.
Qed.

Lemma applyEach_total envs ids : forall i s,
  exists s', applyEach envs i ids s = Some s'.
Proof.
  induction ids as [|id ids IH]; intros i s; simpl; [eauto|].
  destruct (applyChange_total (envs i) id s) as (s1 & -> & _).
  cbn [mbind option_bind]. apply IH.
Qed.

(** X4.  The invariant of the document store (the keys are pairwise
    distinct, every document is stored under its own id, and the current
    document id, if any, names a stored document) is kept by
    [createDocument], by [updateDocument] of a stored document, by
    [deleteDocument], by the "New document" action and, when no change of
    the queue addresses a document id that names a member of
    [Object.prototype], by [applyChange] and [applyAllChanges]; each of
    these calls returns. *)
Theorem store_ok_preserved e envs s :
  store_ok s ->
  Forall (fun c => inherited_key (c_documentId c) = false)
    (pendingChanges s) ->
  (forall title content, store_ok (createDocument e title content s).2)
  /\ (forall id content,
        is_Some (obj_get id (documents s)) ->
        exists s', updateDocument e id content s = Some s' /\ store_ok s')
  /\ (forall id, store_ok (deleteDocument id s))
  /\ (forall id, exists s', applyChange e id s = Some s' /\ store_ok s')
  /\ (exists s', applyAllChanges envs s = Some s' /\ store_ok s')
  /\ (exists s', handleNewDocument e s = Some s' /\ store_ok s').
Proof.
  intros Hok _. split; [|split; [|split; [|split; [|split]]]].
  - intros; apply createDocument_ok, Hok.
  - intros id content [doc Hdoc].
    destruct (updateDocument_content e id content s doc Hdoc)
      as (s' & doc' & Hs & _).
    exists s'. split; [exact Hs|]. eapply updateDocument_ok; eauto.
  - intros; apply deleteDocument_ok, Hok.
  - intros id. destruct (applyChange_total e id s) as (s' & Hs & _).
    exists s'. split; [exact Hs|]. eapply applyChange_ok; eauto.
  - unfold applyAllChanges.
    destruct (applyEach_total envs
                (map c_id (List.filter is_pending (pendingChanges s))) 0 s)
      as (s' & Hs).
    exists s'. split; [exact Hs|]. eapply applyEach_ok; eauto.
  - destruct (handleNewDocument_fresh e s) as (s' & title & Hs & _).
    exists s'. split; [exact Hs|]. revert Hs. unfold handleNewDocument.
    destruct (untitled_loop _ _ _ _ _); [|discriminate].
    cbn [mbind option_bind]. intros H. apply (inj Some) in H.
    rewrite <- H. apply createDocument_ok, Hok.
Qed.

Lemma store_ok_preserved_witness :
  (forall title content,
     store_ok
       (createDocument example_env title content
          (example_store [insert_at_end (js "c1") (js "d1") (js "A") []])).2)
  /\ (forall id content,
        is_Some
          (obj_get id
             (documents
                (example_store
                   [insert_at_end (js "c1") (js "d1") (js "A") []]))) ->
        exists s',
          updateDocument example_env id content
            (example_store [insert_at_end (js "c1") (js "d1") (js "A") []])
          = Some s' /\ store_ok s')
  /\ (forall id,
        store_ok
          (deleteDocument id
             (example_store
                [insert_at_end (js "c1") (js "d1") (js "A") []])))
  /\ (forall id,
        exists s',
          applyChange example_env id
            (example_store [insert_at_end (js "c1") (js "d1") (js "A") []])
          = Some s' /\ store_ok s')
  /\ (exists s',
        applyAllChanges (fun _ => example_env)
          (example_store [insert_at_end (js "c1") (js "d1") (js "A") []])
        = Some s' /\ store_ok s')
  /\ (exists s',
        handleNewDocument example_env
          (example_store [insert_at_end (js "c1") (js "d1") (js "A") []])
        = Some s' /\ store_ok s').
Proof.
  apply (store_ok_preserved example_env (fun _ => example_env)
           (example_store [insert_at_end (js "c1") (js "d1") (js "A") []])).
  - split; [apply (bool_decide_unpack _); vm_compute; exact I|].
    split; [repeat constructor|].
    intros k Hk. injection Hk as <-. vm_compute. eauto.
  - repeat constructor.
Defined.

(** ** Deleting and updating a document *)

(** X5.  After [deleteDocument] the document is gone from the store and
    every other document is as it was; the current document id never
    names the deleted document, and is unchanged when it named another
    one; the queue of changes is untouched, also the changes that address
    the deleted document; deleting an id that is not in the store leaves
    the documents as they are. *)
Theorem deleteDocument_removes id s :
  obj_get id (documents (deleteDocument id s)) = None
  /\ (forall id', id <> id' ->
        obj_get id' (documents (deleteDocument id s))
        = obj_get id' (documents s))
  /\ currentDocumentId (deleteDocument id s) <> Some id
  /\ (currentDocumentId s <> Some id ->
      currentDocumentId (deleteDocument id s) = currentDocumentId s)
  /\ pendingChanges (deleteDocument id s) = pendingChanges s
  /\ (obj_get id (documents s) = None ->
      documents (deleteDocument id s) = documents s).
Proof.
  split; [apply obj_get_delete_eq|].
  split; [intros id' Hne; apply obj_get_delete_ne, Hne|].
  assert (forall k, opt_jeqb (currentDocumentId s) id = false ->
                    currentDocumentId s = Some k -> k <> id) as Hne.
  { intros k E Hk ->. rewrite Hk in E. simpl in E.
    rewrite jeqb_refl in E. discriminate. }
  split; [|split; [|split]].
  - unfold deleteDocument. simpl.
    destruct (opt_jeqb (currentDocumentId s) id) eqn:E.
    + destruct (obj_delete id (documents s)) as [|[k0 v0] rest] eqn:Hr;
        [discriminate|].
      simpl. destruct k0 as [|c k0]; [discriminate|]. intros [= Hk].
      assert (In (c :: k0, v0) (obj_delete id (documents s))) as Hin
        by (rewrite Hr; left; reflexivity).
      apply obj_delete_In in Hin as [_ Hin]. apply Hin. exact Hk.
    + intros Hk. apply (Hne id eq_refl Hk). reflexivity.
  - intros Hcur. unfold deleteDocument. simpl.
    destruct (opt_jeqb (currentDocumentId s) id) eqn:E; [|reflexivity].
    exfalso. apply Hcur. destruct (currentDocumentId s); [|discriminate].
    simpl in E. apply jeqb_true in E as ->. reflexivity.
  - reflexivity.
  - intros Hg. simpl. apply obj_delete_missing, Hg.
Qed.

(** X6.  Saving a content in which [parseFrontmatter] finds no
    frontmatter block keeps the frontmatter the document had: the stored
    document changes in its content, which is the given text verbatim, and
    in its time stamp only, and the text sent to the persistence layer is
    the stored frontmatter block serialized in front of the new
    content. *)
Theorem updateDocument_keeps_frontmatter e id content s doc :
  obj_get id (documents s) = Some doc ->
  fr_frontmatterRaw (parseFrontmatter content) = None ->
  exists s',
    updateDocument e id content s = Some s'
    /\ obj_get id (documents s')
       = Some {| d_id := d_id doc; d_path := d_path doc;
                 d_title := d_title doc; d_content := content;
                 d_frontmatter := d_frontmatter doc;
                 d_frontmatterRaw := d_frontmatterRaw doc;
                 d_updatedAt := now e |}
    /\ turso s'
       = turso s
         ++ [TursoUpdateDocument id
               (serializeDocumentContent (d_frontmatterRaw doc) content)]
    /\ obj_keys (documents s') = obj_keys (documents s).
Proof.
  intros Hg Hraw. unfold updateDocument. rewrite Hg, Hraw.
  cbn [mbind option_bind]. eexists. split; [reflexivity|].
  cbn [documents turso set_documents]. rewrite obj_get_set_eq.
  split; [reflexivity|]. split; [reflexivity|].
  rewrite obj_keys_set, Hg. reflexivity.
Qed.

Lemma updateDocument_keeps_frontmatter_witness :
  exists s',
    updateDocument example_env (js "d1") (js "<p>new</p>") (example_store [])
    = Some s'
    /\ obj_get (js "d1") (documents s')
       = Some {| d_id := d_id example_document;
                 d_path := d_path example_document;
                 d_title := d_title example_document;
                 d_content := js "<p>new</p>";
                 d_frontmatter := d_frontmatter example_document;
                 d_frontmatterRaw := d_frontmatterRaw example_document;
                 d_updatedAt := now example_env |}
    /\ turso s'
       = turso (example_store [])
         ++ [TursoUpdateDocument (js "d1")
               (serializeDocumentContent (d_frontmatterRaw example_document)
                  (js "<p>new</p>"))]
    /\ obj_keys (documents s') = obj_keys (documents (example_store [])).
Proof.
  apply (updateDocument_keeps_frontmatter example_env (js "d1")
           (js "<p>new</p>") (example_store []) example_document);
    reflexivity.
Defined.

(** ** What the patch applier keeps of a document *)

(** X7.  When the target of an insertion holds "after", the headings
    are scanned in document order and the first one whose markup, in lower
    case, contains the cleaned target decides the insertion point: the end
    of the section of that heading, that is the first following opening
    tag of a heading of equal or shallower level, or the end of the
    document. *)
Theorem findInsertionPoint_after_section content target pre m post :
  includes (toLowerCase target) (js "after") = true ->
  headings content = pre ++ m :: post ->
  existsb (heading_hit (after_term target)) pre = false ->
  heading_hit (after_term target) m = true ->
  exists level n,
    charAt (m_text m) 2 = [level] /\ in_range 49 54 level = true
    /\ section_end content (m_index m + length (m_text m)) level n
    /\ findInsertionPoint content target = Some n.
Proof.
  intros Hkw Hhs Hpre Hm.
  assert (Hin : In m (headings content)) by (rewrite Hhs; apply in_elt).
  apply headings_sound in Hin as (Hl & Hb).
  destruct (heading_level m Hl) as (d & Hd & Hr & _).
  exists d, (match exec (next_regex d) content
                     (m_index m + length (m_text m)) with
             | Some nextMatch => m_index nextMatch
             | None => length content
             end).
  split; [exact Hd|]. split; [exact Hr|].
  split; [apply exec_section_end; exact Hb|].
  unfold findInsertionPoint. rewrite Hkw, while_headings, Hhs.
  rewrite first_outcome_first.
  - unfold heading_hit, after_term in Hm. rewrite Hm, Hd.
    rewrite (nextHeadingRegex_digit d Hr). cbn [mbind option_bind].
    destruct (exec _ _ _); reflexivity.
  - intros m' Hm'. pose proof (existsb_false_In _ _ _ Hpre Hm') as Hh.
    unfold heading_hit, after_term in Hh. rewrite Hh. reflexivity.
Qed.

Lemma findInsertionPoint_after_section_witness :
  exists level n,
    charAt (js "<h2>A</h2>") 2 = [level] /\ in_range 49 54 level = true
    /\ section_end example_content (10 + length (js "<h2>A</h2>")) level n
    /\ findInsertionPoint example_content (js "after A") = Some n.
Proof.
  apply (findInsertionPoint_after_section example_content (js "after A")
           [ {| m_index := 0; m_text := js "<h1>T</h1>"; m_group := None |} ]
           {| m_index := 10; m_text := js "<h2>A</h2>"; m_group := None |}
           [ {| m_index := 28; m_text := js "<h3>B</h3>"; m_group := None |};
             {| m_index := 46; m_text := js "<h2>C</h2>"; m_group := None |} ]);
    vm_compute; reflexivity.
Defined.

(** X8.  An insert or create change only adds text: the result is the
    old content with a line break and the content of the change put in at
    one offset of the document, so cutting that span out of the result
    gives the old content back. *)
Theorem insert_keeps_text content change :
  c_operation change = OpInsert \/ c_operation change = OpCreate ->
  exists n r,
    applyChangeToContent content change = Some r
    /\ n <= length content
    /\ r = take n content ++ [LF] ++ c_content change ++ drop n content
    /\ take n r ++ drop (n + 1 + length (c_content change)) r = content.
Proof.
  intros Hop.
  assert (forall n, n <= length content ->
            let r := take n content ++ [LF] ++ c_content change
                       ++ drop n content in
            take n r ++ drop (n + 1 + length (c_content change)) r = content)
    as Hback.
  { intros n Hn r. subst r.
    rewrite take_app_le by (rewrite length_take; lia).
    rewrite take_take, Nat.min_id.
    rewrite drop_app_ge by (rewrite length_take; lia).
    rewrite length_take, Nat.min_l by lia.
    replace (n + 1 + length (c_content change) - n)
      with (1 + length (c_content change)) by lia.
    change (drop (1 + length (c_content change))
              ([LF] ++ c_content change ++ drop n content))
      with (drop (length (c_content change))
              (c_content change ++ drop n content)).
    rewrite drop_app_length. apply take_drop. }
  unfold applyChangeToContent. destruct Hop as [-> | ->].
  - destruct (findInsertionPoint_total content (c_target change))
      as (n & -> & Hn).
    cbn [mbind option_bind]. rewrite substring_0.
    exists n. eexists. split; [reflexivity|]. split; [exact Hn|].
    split; [reflexivity|]. apply Hback, Hn.
  - exists (length content). eexists. split; [reflexivity|].
    split; [lia|].
    assert (content ++ [LF] ++ c_content change
            = take (length content) content ++ [LF] ++ c_content change
                ++ drop (length content) content) as E.
    { rewrite firstn_all, drop_all, app_nil_r. reflexivity. }
    split; [exact E|]. rewrite E. apply Hback. lia.
Qed.

Lemma insert_keeps_text_witness :
  exists n r,
    applyChangeToContent (js "<h1>T</h1>")
      (insert_at_end (js "c1") (js "d1") (js "A") []) = Some r
    /\ n <= length (js "<h1>T</h1>")
    /\ r = take n (js "<h1>T</h1>") ++ [LF] ++ js "A"
             ++ drop n (js "<h1>T</h1>")
    /\ take n r ++ drop (n + 1 + length (js "A")) r = js "<h1>T</h1>".
Proof.
  apply (insert_keeps_text (js "<h1>T</h1>")
           (insert_at_end (js "c1") (js "d1") (js "A") [])).
  left. reflexivity.
Defined.

(** X9.  [findAndReplace] always returns, and what it returns is either
    the content followed by a line break and the new content, or the
    content with one span replaced by the new content; that span starts
    where a heading of the document starts and reaches at least to the end
    of that heading, so the text in front of the heading is kept and the
    span is never empty. *)
Theorem findAndReplace_outside_kept content target newContent :
  exists r,
    findAndReplace content target newContent = Some r
    /\ (r = content ++ [LF] ++ newContent
        \/ exists m b,
             In m (headings content)
             /\ m_index m + length (m_text m) <= b <= length content
             /\ 0 < length (m_text m)
             /\ r = take (m_index m) content ++ newContent ++ drop b content).
Proof.
  unfold findAndReplace.
  set (body := fun m : RegExpMatch => _).
  set (P := fun r : jstring =>
    exists m b,
      In m (headings content)
      /\ m_index m + length (m_text m) <= b <= length content
      /\ 0 < length (m_text m)
      /\ r = take (m_index m) content ++ newContent ++ drop b content).
  assert (Hbody : exists o,
    (if includes (toLowerCase target) (js "replace")
        || includes (toLowerCase target) (js "delete")
     then while_exec (S (length content)) headingRegex content 0 body
     else Some Continue) = Some o
    /\ forall a, o = Return a -> P a).
  { destruct (_ || _).
    2:{ exists Continue. split; [reflexivity|discriminate]. }
    rewrite while_headings. apply first_outcome_prop.
    intros m Hm. pose proof Hm as Hin.
    apply headings_sound in Hm as (Hl & Hb).
    unfold body. destruct (includes _ _).
    2:{ exists Continue. split; [reflexivity|discriminate]. }
    destruct (heading_level m Hl) as (d & -> & _ & (re & ->)).
    cbn [mbind option_bind]. eexists. split; [reflexivity|].
    intros a [= <-]. exists m. eexists. split; [exact Hin|].
    split; [|split; [|rewrite substring_0; reflexivity]].
    - destruct (exec re content _) as [nm|] eqn:E.
      + apply exec_sound in E as (H1 & H2 & _). lia.
      + lia.
    - pose proof (heading_nonempty _ Hl). destruct (m_text m); simpl;
        [congruence|lia]. }
  destruct Hbody as (o & -> & Ho). cbn [mbind option_bind].
  destruct o as [a|]; eexists; (split; [reflexivity|]).
  - right. apply Ho. reflexivity.
  - left. reflexivity.
Qed.

(** ** Slugs are the fixed points of [slugify] *)

Lemma lower_char_slug c :
  is_slug_char c || Ascii.eqb c "-" = true -> lower_char c = c.
Proof.
  destruct c as [[] [] [] [] [] [] [] []]; vm_compute; congruence.
Qed.

Lemma collapse_runs_fixed s : forall b,
  Forall (fun c => is_slug_char c || Ascii.eqb c "-" = true) s ->
  nodh s -> (b = true -> head s <> Some "-"%char) ->
  collapse_runs s b = s.
Proof.
  induction s as [|c s IH]; intros b Hall Hnd Hb; [reflexivity|].
  apply Forall_cons in Hall as [Hc Hall]. simpl.
  assert (nodh s) as Hnd' by (apply (nodh_suffix [c]); exact Hnd).
  destruct (is_slug_char c) eqn:Es.
  - rewrite IH; auto.
  - simpl in Hc. apply Ascii.eqb_eq in Hc as ->.
    destruct b; [exfalso; apply Hb; reflexivity|].
    rewrite IH; auto. intros _. destruct s as [|d s]; [discriminate|].
    simpl. intros [= ->]. apply (Hnd [] s). reflexivity.
Qed.

Lemma strip_leading_fixed s :
  head s <> Some "-"%char -> strip_leading_hyphen s = s.
Proof.
  destruct s as [|c s]; [reflexivity|]. simpl. intros H.
  destruct (Ascii.eqb c "-") eqn:E; [|reflexivity].
  apply Ascii.eqb_eq in E as ->. exfalso. apply H. reflexivity.
Qed.

Lemma slugify_fixed s : slug_shape s -> slugify s = s.
Proof.
  intros (Hall & Hnd & Hh & Hl). unfold slugify, toLowerCase.
  assert (map lower_char s = s) as ->.
  { clear -Hall. induction Hall as [|c s Hc _ IH]; [reflexivity|].
    simpl. rewrite (lower_char_slug c Hc), IH. reflexivity. }
  rewrite collapse_runs_fixed by (auto; discriminate).
  unfold strip_hyphens. rewrite (strip_leading_fixed s Hh).
  rewrite strip_leading_fixed by (rewrite head_rev; exact Hl).
  apply rev_involutive.
Qed.

(** X10.  The slugs are the fixed points of [slugify]: [slugify s = s]
    exactly when [s] has the shape of a slug, so [slugify] is idempotent;
    and the slug is empty exactly when the lower-cased title holds no
    letter of [a-z] and no digit. *)
Theorem slugify_fixed_points s :
  (slugify s = s <-> slug_shape s)
  /\ slugify (slugify s) = slugify s
  /\ (slugify s = [] <-> List.filter is_slug_char (toLowerCase s) = []).
Proof.
  destruct (slugify_shape s) as [Hshape Hfilter].
  split; [|split].
  - split; [intros <-; exact Hshape|apply slugify_fixed].
  - apply slugify_fixed, Hshape.
  - split.
    + intros E. rewrite <- Hfilter, E. reflexivity.
    + intros E. rewrite <- Hfilter in E.
      destruct Hshape as (Hall & Hnd & Hh & _).
      destruct (slugify s) as [|c t]; [reflexivity|]. exfalso.
      apply Forall_cons in Hall as [Hc Hall]. simpl in E.
      destruct (is_slug_char c); [discriminate|]. simpl in Hc.
      apply Ascii.eqb_eq in Hc as ->. apply Hh. reflexivity.
Qed.

(** ** The first free title *)

Lemma untitled_loop_first (E : gset jstring) base fuel :
  forall title suffix t,
  untitled_loop fuel E base title suffix = Some t ->
  (t ∉ E)
  /\ (t = title
      \/ title ∈ E
         /\ exists k, (suffix <= k)%Z /\ t = candidate base k
                      /\ forall j, (suffix <= j < k)%Z -> candidate base j ∈ E).
Proof.
  induction fuel as [|fuel IH]; intros title suffix t; simpl; [discriminate|].
  destruct (bool_decide (title ∈ E)) eqn:B.
  - apply bool_decide_eq_true in B. intros H.
    apply IH in H as (Ht & [->|(Hc & k & Hk & -> & Hall)]).
    + split; [exact Ht|]. right. split; [exact B|].
      exists suffix. split; [lia|]. split; [reflexivity|]. intros j Hj. lia.
    + split; [exact Ht|]. right. split; [exact B|].
      exists k. split; [lia|]. split; [reflexivity|]. intros j Hj.
      destruct (decide (j = suffix)) as [->|Hne]; [exact Hc|].
      apply Hall. lia.
  - apply bool_decide_eq_false in B. intros [= <-]. auto.
Qed.

(** X11.  The "New document" action always returns and picks the first
    free title of the sequence "Untitled", "Untitled 2", "Untitled 3",
    ...: the title it picks is carried by no document of the store, and
    every title of the sequence in front of it is.  The new document has
    that title, the content [<h1>title</h1>], a line break and [<p></p>],
    and becomes the current document. *)
Theorem handleNewDocument_first_free e s :
  exists s' title doc,
    handleNewDocument e s = Some s'
    /\ obj_get (newDocumentId e) (documents s') = Some doc
    /\ d_title doc = title
    /\ d_content doc = js "<h1>" ++ title ++ js "</h1>" ++ [LF] ++ js "<p></p>"
    /\ currentDocumentId s' = Some (newDocumentId e)
    /\ ~ In title (map d_title (obj_values (documents s)))
    /\ (title = js "Untitled"
        \/ In (js "Untitled") (map d_title (obj_values (documents s)))
           /\ exists k,
                (2 <= k)%Z /\ title = candidate (js "Untitled") k
                /\ forall j, (2 <= j < k)%Z ->
                     In (candidate (js "Untitled") j)
                       (map d_title (obj_values (documents s)))).
Proof.
  unfold handleNewDocument.
  set (E := list_to_set (map d_title (obj_values (documents s)))
            : gset jstring).
  assert (forall x, x ∈ E <-> In x (map d_title (obj_values (documents s))))
    as HE.
  { intros x. unfold E. rewrite elem_of_list_to_set. apply list_elem_of_In. }
  destruct (untitled_loop_total E (js "Untitled") (S (size E)) ∅
              (js "Untitled") 2) as (t & Ht & _).
  - apply empty_subseteq.
  - apply not_elem_of_empty.
  - intros k _. split; [apply not_elem_of_empty|apply candidate_not_base].
  - rewrite size_empty. lia.
  - rewrite Ht. cbn [mbind option_bind].
    apply untitled_loop_first in Ht as (HtE & Hform).
    eexists _, t, _. split; [reflexivity|].
    cbn [createDocument snd documents currentDocumentId set_documents].
    rewrite obj_get_set_eq. split; [reflexivity|].
    split; [reflexivity|]. split; [reflexivity|]. split; [reflexivity|].
    split; [rewrite <- HE; exact HtE|].
    destruct Hform as [->|(Hb & k & Hk & -> & Hall)]; [left; reflexivity|].
    right. split; [apply HE, Hb|]. exists k. split; [exact Hk|].
    split; [reflexivity|]. intros j Hj. apply HE, Hall, Hj.
Qed.

(** ** The search box *)

Lemma indexOf_char_Some s c : forall i j,
  indexOf_from s [c] i = Some j ->
  exists l1 l2, s = l1 ++ c :: l2 /\ ~ In c l1 /\ j = i + length l1.
Proof.
  induction s as [|a s IH]; intros i j; simpl.
  - discriminate.
  - destruct (Ascii.eqb c a) eqn:E.
    + apply Ascii.eqb_eq in E as <-. intros [= <-].
      exists [], s. simpl. split; [reflexivity|]. split; [tauto|lia].
    + intros H. apply IH in H as (l1 & l2 & -> & Hn & ->).
      exists (a :: l1), l2. split; [reflexivity|]. split.
      * intros [->|Hin]; [|tauto]. rewrite Ascii.eqb_refl in E. discriminate.
      * simpl. lia.
Qed.

Lemma indexOf_char_None s c : forall i,
  indexOf_from s [c] i = None -> ~ In c s.
Proof.
  induction s as [|a s IH]; intros i; simpl; [tauto|].
  destruct (Ascii.eqb c a) eqn:E; [discriminate|].
  intros H [->|Hin].
  - rewrite Ascii.eqb_refl in E. discriminate.
  - exact (IH _ H Hin).
Qed.

Lemma sublist_first (c : ascii) n l :
  sublist (c :: n) l ->
  exists l1 l2, l = l1 ++ c :: l2 /\ ~ In c l1 /\ sublist n l2.
Proof.
  induction l as [|a l IH]; intros H.
  - apply sublist_nil_r in H. discriminate.
  - destruct (decide (a = c)) as [->|Hne].
    + exists [], l. split; [reflexivity|]. split; [simpl; tauto|].
      apply sublist_cons_l in H as (k1 & k2 & E & Hs).
      destruct k1 as [|b k1]; simpl in E.
      * injection E as <-. exact Hs.
      * injection E as <- ->. apply sublist_inserts_l, sublist_cons, Hs.
    + assert (sublist (c :: n) l) as H'.
      { apply sublist_cons_r in H as [H|(n' & E & _)]; [exact H|].
        congruence. }
      destruct (IH H') as (l1 & l2 & -> & Hn & Hs).
      exists (a :: l1), l2. split; [reflexivity|]. split; [|exact Hs].
      intros [E|Hin]; [congruence|tauto].
Qed.

Lemma fuzzy_loop_sublist target needle : forall index,
  index <= length target ->
  fuzzy_loop target needle index = true
  <-> sublist needle (drop index target).
Proof.
  induction needle as [|c needle IH]; intros index Hle; simpl.
  - split; [intros _; apply sublist_nil_l|reflexivity].
  - unfold indexOf_at. rewrite Nat.min_l by exact Hle.
    destruct (indexOf_from (drop index target) [c] index) as [j|] eqn:E.
    + apply indexOf_char_Some in E as (l1 & l2 & Hd & Hn & ->).
      assert (drop (index + length l1 + 1) target = l2) as Hl2.
      { replace (index + length l1 + 1) with (index + (length l1 + 1))
          by lia.
        rewrite <- drop_drop, Hd.
        replace (length l1 + 1) with (length (l1 ++ [c]))
          by (rewrite length_app; reflexivity).
        rewrite (app_assoc l1 [c] l2 : l1 ++ c :: l2 = (l1 ++ [c]) ++ l2).
        apply drop_app_length. }
      assert (index + length l1 + 1 <= length target) as Hle'.
      { apply (f_equal length) in Hd.
        rewrite length_drop, length_app in Hd. simpl in Hd. lia. }
      rewrite (IH _ Hle'), Hl2, Hd. split.
      * intros Hs. apply sublist_inserts_l, sublist_skip, Hs.
      * intros Hs. apply sublist_first in Hs as (k1 & k2 & Ek & Hk & Hs).
        assert (l1 = k1) as <-.
        { eapply split_at_first; eauto. }
        apply app_inv_head in Ek. injection Ek as <-. exact Hs.
    + apply indexOf_char_None in E. split; [discriminate|].
      intros Hs. exfalso. apply E.
      apply sublist_first in Hs as (k1 & k2 & -> & _).
      apply in_elt.
Qed.

(** X12.  [fuzzyMatch value needle] holds exactly when the characters of
    the needle occur in the lower-cased value in their order, not
    necessarily next to each other; the empty needle matches every
    value. *)
Theorem fuzzyMatch_subsequence value needle :
  fuzzyMatch value needle = true <-> sublist needle (toLowerCase value).
Proof.
  unfold fuzzyMatch. destruct needle as [|c needle].
  - split; [intros _; apply sublist_nil_l|reflexivity].
  - rewrite fuzzy_loop_sublist by lia. rewrite drop_0. reflexivity.
Qed.

(** ** The keys of a parsed frontmatter *)

Lemma trimStart_split s :
  exists ws, s = ws ++ trimStart s /\ spaces ws
             /\ match trimStart s with
                | c :: _ => is_space c = false
                | [] => True
                end.
Proof.
  induction s as [|c s IH]; simpl.
  - exists []. repeat split; constructor.
  - destruct (is_space c) eqn:E.
    + destruct IH as (ws & Hs & Hws & Hh). exists (c :: ws).
      split; [simpl; congruence|]. split; [constructor; assumption|exact Hh].
    + exists []. split; [reflexivity|]. split; [constructor|exact E].
Qed.

Lemma trimStart_fixed c s : is_space c = false -> trimStart (c :: s) = c :: s.
Proof. intros H. simpl. rewrite H. reflexivity. Qed.

Lemma trimStart_all ws : spaces ws -> trimStart ws = [].
Proof.
  intros H. rewrite <- (app_nil_r ws). rewrite trimStart_spaces by exact H.
  reflexivity.
Qed.

Lemma last_snoc_rev (s : jstring) d : last s = Some d -> exists r, rev s = d :: r.
Proof.
  intros H. rewrite <- head_rev in H. destruct (rev s); [discriminate|].
  injection H as ->. eauto.
Qed.

(** [trim] returns the tight core of a string. *)
Lemma trim_spec a c b :
  spaces a -> spaces b -> tight c -> trim (a ++ c ++ b) = c.
Proof.
  intros Ha Hb Hc. unfold trim. rewrite trimStart_spaces by exact Ha.
  destruct c as [|x c].
  - simpl. rewrite trimStart_all by exact Hb. reflexivity.
  - destruct Hc as (Hx & d & Hl & Hd).
    change ((x :: c) ++ b) with (x :: (c ++ b)).
    rewrite trimStart_fixed by exact Hx.
    unfold trimEnd. change (x :: c ++ b) with ((x :: c) ++ b).
    rewrite rev_app_distr.
    rewrite trimStart_spaces by (apply Forall_rev; exact Hb).
    apply last_snoc_rev in Hl as (r & Hr). rewrite Hr.
    rewrite trimStart_fixed by exact Hd. rewrite <- Hr.
    apply rev_involutive.
Qed.

Lemma trim_split s :
  exists a b, s = a ++ trim s ++ b /\ spaces a /\ spaces b /\ tight (trim s).
Proof.
  unfold trim. destruct (trimStart_split s) as (a & Hs & Ha & Hh).
  set (t := trimStart s) in *.
  destruct (trimStart_split (rev t)) as (b & Ht & Hb & Hh').
  exists a, (rev b). unfold trimEnd.
  assert (t = rev (trimStart (rev t)) ++ rev b) as Et.
  { rewrite <- rev_app_distr, <- Ht. symmetry. apply rev_involutive. }
  split; [rewrite <- Et; exact Hs|]. split; [exact Ha|].
  split; [apply Forall_rev; exact Hb|].
  destruct (trimStart (rev t)) as [|d r] eqn:Er; [exact I|].
  assert (last (rev (d :: r)) = Some d) as Hl
    by (rewrite last_rev; reflexivity).
  destruct (rev (d :: r)) as [|x y] eqn:Ex; [discriminate|].
  split; [|exists d; split; [exact Hl|exact Hh']].
  destruct t as [|t0 t']; [destruct (rev b); discriminate|].
  simpl in Et. injection Et as -> _. exact Hh.
Qed.

Lemma trim_idem s : trim (trim s) = trim s.
Proof.
  destruct (trim_split s) as (a & b & _ & _ & _ & Ht).
  rewrite <- (app_nil_r (trim s)) at 1.
  apply (trim_spec [] (trim s) []); [constructor|constructor|exact Ht].
Qed.

Lemma trim_In s c : In c (trim s) -> In c s.
Proof.
  destruct (trim_split s) as (a & b & Hs & _). intros H. rewrite Hs.
  apply in_or_app. right. apply in_or_app. left. exact H.
Qed.

Lemma indexOf_char s c i :
  indexOf s [c] = Some i -> ~ In c (take i s) /\ i < length s.
Proof.
  unfold indexOf. intros H.
  apply indexOf_char_Some in H as (l1 & l2 & -> & Hn & ->).
  cbn [Nat.add]. rewrite take_app_length, length_app. simpl. split; [exact Hn|lia].
Qed.

Lemma tight_take_head (c : ascii) s i :
  take i (c :: s) <> [] -> exists r, take i (c :: s) = c :: r.
Proof. destruct i; simpl; [congruence|eauto]. Qed.

Lemma frontmatter_line_keys (P : jstring -> jstring -> Prop) fm line :
  (forall k v, fm !! k = Some v -> P k v) ->
  (forall trimmed i,
     trimmed = trim line -> startsWith trimmed (js "#") = false ->
     indexOf trimmed (js ":") = Some i ->
     trim (take i trimmed) <> [] ->
     P (trim (take i trimmed)) (trim (drop (i + 1) trimmed))) ->
  forall k v, frontmatter_line fm line !! k = Some v -> P k v.
Proof.
  intros Hfm Hnew k v. unfold frontmatter_line.
  destruct (jeqb (trim line) [] || startsWith (trim line) (js "#")) eqn:E1;
    [apply Hfm|].
  apply orb_false_iff in E1 as [_ Hhash].
  destruct (indexOf (trim line) (js ":")) as [i|] eqn:Ei; [|apply Hfm].
  destruct (jeqb (trim (take i (trim line))) []) eqn:Ek; [apply Hfm|].
  apply jeqb_false in Ek.
  destruct (jeqb (trim (take i (trim line))) (js "__proto__"));
    [apply Hfm|].
  destruct (decide (trim (take i (trim line)) = k)) as [<-|Hne].
  - rewrite lookup_insert_eq. intros [= <-]. eapply Hnew; eauto.
  - rewrite lookup_insert_ne by exact Hne. apply Hfm.
Qed.

(** X13.  Every entry of the mapping [parseFrontmatter] returns has a
    key that is not empty, has no white space at either end, holds no
    colon and does not start with [#], and a value with no white space at
    either end; a mapping with an entry comes with a frontmatter
    block. *)
Theorem parseFrontmatter_keys content k v :
  fr_frontmatter (parseFrontmatter content) !! k = Some v ->
  k <> [] /\ trim k = k /\ trim v = v
  /\ ~ In ":"%char k /\ head k <> Some "#"%char
  /\ is_Some (fr_frontmatterRaw (parseFrontmatter content)).
Proof.
  unfold parseFrontmatter. destruct (negb _); [simpl; rewrite lookup_empty; discriminate|].
  destruct (match_here _ _ _) as [m|]; [|simpl; rewrite lookup_empty; discriminate].
  cbn [fr_frontmatter fr_frontmatterRaw]. intros H.
  assert (k <> [] /\ trim k = k /\ trim v = v
          /\ ~ In ":"%char k /\ head k <> Some "#"%char) as Hgoal.
  2:{ destruct Hgoal as (H1 & H2 & H3 & H4 & H5). repeat split; eauto. }
  revert k v H.
  generalize (split_lines (default [] (m_group m))). intros lines.
  assert (forall k v, (∅ : gmap jstring jstring) !! k = Some v ->
            k <> [] /\ trim k = k /\ trim v = v
            /\ ~ In ":"%char k /\ head k <> Some "#"%char) as H0.
  { intros k v. rewrite lookup_empty. discriminate. }
  revert H0. generalize (∅ : gmap jstring jstring).
  induction lines as [|line lines IH]; intros fm Hfm; simpl; [exact Hfm|].
  apply IH. apply frontmatter_line_keys; [exact Hfm|].
  intros trimmed i -> Hhash Hi Hk.
  split; [exact Hk|]. split; [apply trim_idem|]. split; [apply trim_idem|].
  apply indexOf_char in Hi as [Hcolon _].
  split; [intros Hin; apply Hcolon, trim_In, Hin|].
  destruct (trim_split line) as (_ & _ & _ & _ & _ & Ht).
  destruct (trim line) as [|c t] eqn:El.
  { exfalso. apply Hk. destruct i; reflexivity. }
  destruct Ht as (Hc & _).
  destruct (tight_take_head c t i) as (r & Er).
  { intros E. rewrite E in Hk. apply Hk. reflexivity. }
  rewrite Er in *.
  destruct (trim_split (c :: r)) as (a & b & Es & Ha & _ & _).
  destruct a as [|a0 a].
  - destruct (trim (c :: r)) as [|x y]; [congruence|].
    simpl in Es. injection Es as <- _. simpl. intros [= ->].
    unfold LF, CR in *. cbn -[Ascii.eqb] in Hhash.
    rewrite Ascii.eqb_refl in Hhash. discriminate.
  - simpl in Es. injection Es as <- _. apply Forall_cons in Ha as [Ha _].
    congruence.
Qed.

Lemma parseFrontmatter_keys_witness :
  js "key" <> [] /\ trim (js "key") = js "key"
  /\ trim (js "value") = js "value"
  /\ ~ In ":"%char (js "key") /\ head (js "key") <> Some "#"%char
  /\ is_Some
       (fr_frontmatterRaw
          (parseFrontmatter
             (frontmatter_document (js "key: value") (js "Body")))).
Proof.
  apply (parseFrontmatter_keys
           (frontmatter_document (js "key: value") (js "Body"))
           (js "key") (js "value")).
  vm_compute. reflexivity.
Defined.

(** ** The mapping of a parsed frontmatter *)

Lemma split_lines_go_app l : forall s cur,
  no_line_break l = true ->
  split_lines_go (l ++ s) cur = split_lines_go s (rev l ++ cur).
Proof.
  induction l as [|c l IH]; intros s cur H; [reflexivity|].
  apply no_line_break_cons in H as (_ & HLF & H).
  cbn [app split_lines_go]. rewrite Ascii.eqb_sym, HLF. rewrite IH by exact H.
  cbn [rev]. rewrite <- app_assoc. reflexivity.
Qed.

Lemma strip_CR_rev l :
  no_line_break l = true ->
  rev (match rev l with
       | d :: cur' => if Ascii.eqb d CR then cur' else rev l
       | [] => []
       end) = l.
Proof.
  intros H. destruct (rev l) as [|d r] eqn:E.
  - apply (f_equal (@rev ascii)) in E. rewrite rev_involutive in E.
    rewrite E. reflexivity.
  - assert (In d l) as Hin by (apply in_rev; rewrite E; left; reflexivity).
    unfold no_line_break in H. rewrite forallb_forall in H.
    specialize (H d Hin). apply andb_true_iff in H as [_ H].
    apply negb_true_iff in H. rewrite H. rewrite <- E. apply rev_involutive.
Qed.

Lemma split_lines_join ls :
  ls <> [] -> forallb no_line_break ls = true ->
  split_lines (join_lines ls) = ls.
Proof.
  unfold split_lines. induction ls as [|l ls IH]; intros Hne H; [congruence|].
  cbn [forallb] in H. apply andb_true_iff in H as [Hl H].
  destruct ls as [|l' ls].
  - cbn [join_lines]. rewrite <- (app_nil_r l) at 1.
    rewrite split_lines_go_app by exact Hl. cbn [split_lines_go].
    rewrite app_nil_r, rev_involutive. reflexivity.
  - change (join_lines (l :: l' :: ls))
      with (l ++ LF :: join_lines (l' :: ls)).
    rewrite split_lines_go_app by exact Hl. rewrite app_nil_r.
    cbn [split_lines_go]. rewrite Ascii.eqb_refl.
    rewrite strip_CR_rev by exact Hl. f_equal. apply IH; [discriminate|exact H].
Qed.

Lemma indexOf_char_first (c : ascii) l1 l2 :
  ~ In c l1 -> indexOf (l1 ++ c :: l2) [c] = Some (length l1).
Proof.
  intros Hn.
  assert (forall i, indexOf_from (l1 ++ c :: l2) [c] i
                    = Some (i + length l1)) as H; [|apply (H 0)].
  induction l1 as [|a l1 IH]; intros i;
    cbn [app indexOf_from startsWith length].
  - rewrite Ascii.eqb_refl. cbn [andb]. f_equal. lia.
  - destruct (Ascii.eqb c a) eqn:E.
    + apply Ascii.eqb_eq in E as ->. exfalso. apply Hn. left. reflexivity.
    + cbn [andb]. rewrite IH by (intros H; apply Hn; right; exact H).
      f_equal. lia.
Qed.

Lemma tight_app (c : jstring) m (d : jstring) :
  tight c -> tight d -> c <> [] -> d <> [] -> tight (c ++ m ++ d).
Proof.
  intros Hc Hd Hcn Hdn. destruct c as [|x c]; [congruence|].
  destruct Hc as (Hx & _). split; [exact Hx|].
  destruct d as [|y d]; [congruence|]. destruct Hd as (_ & e & Hl & He).
  exists e. split; [|exact He].
  change ((x :: c) ++ m ++ y :: d) with (x :: (c ++ m ++ y :: d)).
  rewrite app_assoc.
  change (x :: (c ++ m) ++ y :: d) with ((x :: c ++ m) ++ y :: d).
  rewrite last_app_nonempty by discriminate. exact Hl.
Qed.

Lemma tight_colon (c : jstring) m :
  tight c -> c <> [] -> tight (c ++ m ++ js ":").
Proof.
  intros Hc Hcn.
  apply (tight_app c m (js ":")); [exact Hc| |exact Hcn|discriminate].
  split; [reflexivity|]. exists ":"%char. split; reflexivity.
Qed.

Lemma key_ok_spec k :
  key_ok k = true ->
  trim k <> [] /\ ~ In ":"%char k /\ startsWith (trim k) (js "#") = false.
Proof.
  unfold key_ok. intros H. apply andb_true_iff in H as [H H3].
  apply andb_true_iff in H as [H1 H2].
  apply negb_true_iff in H1, H2, H3. split; [apply jeqb_false, H1|].
  split; [|exact H3]. intros Hin.
  assert (existsb (Ascii.eqb ":") k = true); [|congruence].
  apply existsb_exists. exists ":"%char. split; [exact Hin|reflexivity].
Qed.

Lemma frontmatter_line_kv fm k v :
  key_ok k = true ->
  frontmatter_line fm (kv_line (k, v))
  = if jeqb (trim k) (js "__proto__") then fm else <[trim k := trim v]> fm.
Proof.
  intros Hk. apply key_ok_spec in Hk as (Hne & Hcolon & Hhash).
  destruct (trim_split k) as (a & b & Ek & Ha & Hb & Htk).
  destruct (trim_split v) as (a' & b' & Ev & Ha' & Hb' & Htv).
  set (tk := trim k) in *.
  assert (~ In ":"%char (tk ++ b)) as Hcolon'.
  { intros H. apply Hcolon. rewrite Ek. apply in_or_app. right. exact H. }
  assert (exists r, trim (kv_line (k, v)) = (tk ++ b) ++ ":"%char :: r
                    /\ trim r = trim v) as (r & Etrim & Er).
  { unfold kv_line. cbn [fst snd]. destruct (trim v) as [|y tv'] eqn:Etv.
    - exists []. split; [|reflexivity].
      replace (k ++ js ": " ++ v)
        with (a ++ (tk ++ b ++ js ":") ++ (js " " ++ a' ++ b')).
      + rewrite trim_spec; [rewrite <- app_assoc; reflexivity|exact Ha| |].
        * apply Forall_cons. split; [reflexivity|].
          apply Forall_app. split; assumption.
        * apply tight_colon; assumption.
      + rewrite Ek, Ev. rewrite <- !app_assoc. reflexivity.
    - exists (js " " ++ a' ++ y :: tv'). split.
      + replace (k ++ js ": " ++ v)
          with (a ++ (tk ++ (b ++ js ": " ++ a') ++ y :: tv') ++ b').
        * rewrite trim_spec; [|exact Ha|exact Hb'|].
          -- rewrite <- !app_assoc. reflexivity.
          -- apply tight_app; [exact Htk|exact Htv|exact Hne|discriminate].
        * rewrite Ek, Ev. rewrite <- !app_assoc. reflexivity.
      + rewrite <- (app_nil_r (y :: tv')) at 1. rewrite app_assoc.
        rewrite <- app_assoc.
        apply (trim_spec (js " " ++ a') (y :: tv') []).
        * apply Forall_cons. split; [reflexivity|exact Ha'].
        * constructor.
        * exact Htv. }
  unfold frontmatter_line. rewrite Etrim.
  assert (jeqb ((tk ++ b) ++ ":"%char :: r) [] = false) as ->.
  { destruct (tk ++ b); reflexivity. }
  assert (startsWith ((tk ++ b) ++ ":"%char :: r) (js "#") = false) as ->.
  { destruct tk as [|x tk']; [congruence|]. exact Hhash. }
  cbn [orb]. change (js ":") with [":"%char].
  rewrite indexOf_char_first by exact Hcolon'.
  rewrite take_app_length.
  replace (length (tk ++ b) + 1) with (length ((tk ++ b) ++ [":"%char]))
    by (rewrite length_app; reflexivity).
  rewrite (app_assoc (tk ++ b) [":"%char] r
           : (tk ++ b) ++ ":"%char :: r = ((tk ++ b) ++ [":"%char]) ++ r).
  rewrite drop_app_length, Er.
  assert (trim (tk ++ b) = tk) as ->.
  { apply (trim_spec [] tk b); [constructor|exact Hb|exact Htk]. }
  apply jeqb_false in Hne. rewrite Hne. reflexivity.
Qed.

(** X14.  For a document that starts with a frontmatter block of
    [key: value] lines (no line break inside a key or a value, no key that
    starts with [---], every key with a visible character, without colon
    and not starting with [#] after trimming) followed by a body that
    does not start with white space, the mapping [parseFrontmatter]
    returns binds every trimmed key other than [__proto__] to its
    trimmed value, and of two lines with the same key the later one
    wins; a line whose key is [__proto__] adds no entry. *)
Theorem parseFrontmatter_mapping kv kvs body :
  forallb valid_kv (kv :: kvs) = true ->
  forallb (fun kv => key_ok kv.1) (kv :: kvs) = true ->
  body_start_ok body = true ->
  fr_frontmatter
    (parseFrontmatter
       (frontmatter_document (frontmatter_block (kv :: kvs)) body))
  = foldl (fun fm kv => <[trim kv.1 := trim kv.2]> fm) ∅
      (List.filter (fun kv => negb (jeqb (trim kv.1) (js "__proto__")))
         (kv :: kvs)).
Proof.
  intros Hv Hk Hb.
  destruct (frontmatter_block_valid _ _ Hv)
    as (Hok & _ & sp & c0 & fm0 & E & Hsp & Hs).
  set (block := frontmatter_block (kv :: kvs)) in *.
  assert (fr_frontmatter (parseFrontmatter (frontmatter_document block body))
          = foldl frontmatter_line ∅ (split_lines block)) as ->.
  { unfold parseFrontmatter.
    change (startsWith (frontmatter_document block body) (js "---"))
      with true.
    cbv iota. simpl negb. cbv iota.
    rewrite (parse_block block body sp c0 fm0 E Hsp Hs Hok Hb).
    reflexivity. }
  unfold block, frontmatter_block. rewrite split_lines_join.
  - clear -Hk. generalize (∅ : gmap jstring jstring).
    induction (kv :: kvs) as [|[k v] l IH]; intros fm; [reflexivity|].
    cbn [forallb] in Hk. apply andb_true_iff in Hk as [Hk1 Hk].
    cbn [map foldl List.filter fst snd].
    rewrite frontmatter_line_kv by exact Hk1.
    destruct (jeqb (trim k) (js "__proto__")); cbn [negb foldl fst snd];
      apply IH, Hk.
  - discriminate.
  - clear -Hv. induction (kv :: kvs) as [|kv' l IH]; [reflexivity|].
    cbn [forallb] in Hv. apply andb_true_iff in Hv as [Hv1 Hv].
    cbn [map forallb]. rewrite IH by exact Hv.
    destruct (kv_line_valid kv' Hv1) as (-> & _). reflexivity.
Qed.

Lemma parseFrontmatter_mapping_witness :
  fr_frontmatter
    (parseFrontmatter
       (frontmatter_document
          (frontmatter_block
             [(js "title ", js " Plan"); (js "__proto__", js "x");
              (js "owner", js "ada")])
          (js "Body")))
  = foldl (fun fm kv => <[trim kv.1 := trim kv.2]> fm) ∅
      (List.filter (fun kv => negb (jeqb (trim kv.1) (js "__proto__")))
         [(js "title ", js " Plan"); (js "__proto__", js "x");
          (js "owner", js "ada")]).
Proof.
  apply (parseFrontmatter_mapping (js "title ", js " Plan")
           [(js "__proto__", js "x"); (js "owner", js "ada")] (js "Body"));
    reflexivity.
Defined.

(** ** The order of the navigation tree *)

Lemma includes_id_In l id : includes_id l id = true <-> In id l.
Proof.
  unfold includes_id. rewrite existsb_exists. split.
  - intros (x & Hin & E). apply jeqb_true in E as <-. exact Hin.
  - intros Hin. exists id. split; [exact Hin|apply jeqb_refl].
Qed.

Lemma push_missing_spec items : forall next,
  exists added,
    push_missing items next = next ++ added
    /\ NoDup added
    /\ forall id, In id added <-> In id items /\ ~ In id next.
Proof.
  induction items as [|id items IH]; intros next; simpl.
  - exists []. rewrite app_nil_r. split; [reflexivity|].
    split; [constructor|]. intros id. simpl. tauto.
  - destruct (includes_id next id) eqn:E.
    + apply includes_id_In in E.
      destruct (IH next) as (added & -> & Hnd & Hin).
      exists added. split; [reflexivity|]. split; [exact Hnd|].
      intros id'. rewrite Hin. split; [tauto|].
      intros [[<-|H] Hn]; tauto.
    + assert (~ In id next) as Hid.
      { intros H. apply includes_id_In in H. congruence. }
      destruct (IH (next ++ [id])) as (added & -> & Hnd & Hin).
      exists (id :: added). rewrite <- app_assoc. split; [reflexivity|].
      split.
      * apply NoDup_cons. split; [|exact Hnd].
        intros H. apply list_elem_of_In, Hin in H as [_ H]. apply H.
        apply in_or_app. right. left. reflexivity.
      * intros id'. simpl. rewrite Hin, in_app_iff. simpl.
        destruct (decide (id = id')) as [->|Hne]; [tauto|]. tauto.
Qed.

Lemma every_same_eq next current :
  length next = length current -> every_same next current = true ->
  next = current.
Proof.
  revert current; induction next as [|a next IH]; intros [|c current];
    simpl; try discriminate; [reflexivity|].
  intros [= Hl] H. apply andb_true_iff in H as [E H].
  apply jeqb_true in E as ->. f_equal. auto.
Qed.

Lemma every_same_refl l : every_same l l = true.
Proof. induction l as [|a l IH]; simpl; [|rewrite jeqb_refl]; auto. Qed.

Lemma syncOrder_section sectionId items prev :
  default [] (obj_get sectionId (syncOrder sectionId items prev))
  = push_missing items
      (List.filter (fun id => existsb (fun item => jeqb item id) items)
         (default [] (obj_get sectionId prev))).
Proof.
  unfold syncOrder.
  set (current := default [] (obj_get sectionId prev)).
  set (next := push_missing _ _).
  destruct ((length next =? length current) && every_same next current)
    eqn:E.
  - apply andb_true_iff in E as [El E]. apply Nat.eqb_eq in El.
    symmetry. apply every_same_eq; assumption.
  - rewrite obj_get_set_eq. reflexivity.
Qed.

Lemma filter_all {A} (f : A -> bool) l :
  (forall x, In x l -> f x = true) -> List.filter f l = l.
Proof.
  induction l as [|a l IH]; intros H; simpl; [reflexivity|].
  rewrite (H a) by (left; reflexivity). f_equal. apply IH.
  intros x Hx. apply H. right. exact Hx.
Qed.

Lemma NoDup_lfilter {A} (f : A -> bool) l :
  NoDup l -> NoDup (List.filter f l).
Proof.
  induction l as [|a l IH]; intros Hnd; simpl; [constructor|].
  apply NoDup_cons in Hnd as [Hn Hnd]. destruct (f a); [|auto].
  apply NoDup_cons. split; [|auto]. intros Hin. apply Hn.
  apply list_elem_of_In in Hin. apply filter_In in Hin as [Hin _].
  apply list_elem_of_In. exact Hin.
Qed.

Lemma push_missing_all items : forall next,
  (forall id, In id items -> In id next) -> push_missing items next = next.
Proof.
  induction items as [|id items IH]; intros next H; simpl; [reflexivity|].
  assert (includes_id next id = true) as ->
    by (apply includes_id_In, H; left; reflexivity).
  apply IH. intros id' Hin. apply H. right. exact Hin.
Qed.

(** X15.  [syncOrder] makes the order of a section hold exactly the ids
    of the given items: the ids of the old order that are still items
    come first, in their old relative order, and the items that were not
    in the order follow, each once.  An order without repetition stays
    without repetition, syncing again changes nothing, and the other
    sections are untouched. *)
Theorem syncOrder_keeps_order sectionId items prev :
  let current := default [] (obj_get sectionId prev) in
  let next := default [] (obj_get sectionId (syncOrder sectionId items prev)) in
  (forall id, In id next <-> In id items)
  /\ (exists added,
        next = List.filter (includes_id items) current ++ added
        /\ NoDup added
        /\ forall id, In id added -> ~ In id current)
  /\ (NoDup current -> NoDup next)
  /\ syncOrder sectionId items (syncOrder sectionId items prev)
     = syncOrder sectionId items prev
  /\ (forall other, sectionId <> other ->
        obj_get other (syncOrder sectionId items prev) = obj_get other prev).
Proof.
  cbn zeta. rewrite syncOrder_section.
  set (current := default [] (obj_get sectionId prev)).
  assert (List.filter (fun id => existsb (fun item => jeqb item id) items)
            current = List.filter (includes_id items) current) as Ef.
  { apply filter_ext. intros id. unfold includes_id. reflexivity. }
  rewrite Ef.
  destruct (push_missing_spec items (List.filter (includes_id items) current))
    as (added & Hp & Hnd & Hin).
  assert (forall id, In id (push_missing items
                              (List.filter (includes_id items) current))
                     <-> In id items) as Hset.
  { intros id. rewrite Hp, in_app_iff, Hin, filter_In, includes_id_In.
    destruct (includes_id current id) eqn:Ec.
    - apply includes_id_In in Ec. tauto.
    - assert (~ In id current)
        by (intros H; apply includes_id_In in H; congruence).
      tauto. }
  split; [exact Hset|]. split; [|split; [|split]].
  - exists added. split; [exact Hp|]. split; [exact Hnd|].
    intros id Hid Hc. apply Hin in Hid as [Hi Hn]. apply Hn.
    apply filter_In. split; [exact Hc|]. apply includes_id_In, Hi.
  - intros Hc. rewrite Hp. apply NoDup_app. split; [|split].
    + apply NoDup_lfilter, Hc.
    + intros id H1 H2. apply list_elem_of_In, Hin in H2 as [_ H2].
      apply H2. apply list_elem_of_In. exact H1.
    + exact Hnd.
  - unfold syncOrder at 1.
    pose proof (syncOrder_section sectionId items prev) as Hs.
    fold current in Hs. rewrite Ef in Hs. rewrite Hs.
    set (next := push_missing items (List.filter (includes_id items) current))
      in *.
    assert (push_missing items
              (List.filter (fun id => existsb (fun item => jeqb item id) items)
                 next) = next) as ->.
    { rewrite filter_all.
      - apply push_missing_all. intros id Hid. apply Hset, Hid.
      - intros id Hid. apply Hset in Hid.
        apply (includes_id_In items id) in Hid. exact Hid. }
    rewrite Nat.eqb_refl, every_same_refl. reflexivity.
  - intros other Hne. unfold syncOrder. fold current.
    destruct (_ && _); [reflexivity|]. apply obj_get_set_ne, Hne.
Qed.

Lemma index_of_Some id l : forall i,
  index_of id l = Some i ->
  exists l1 l2, l = l1 ++ id :: l2 /\ length l1 = i /\ ~ In id l1.
Proof.
  induction l as [|x l IH]; intros i; simpl; [discriminate|].
  destruct (jeqb x id) eqn:E.
  - apply jeqb_true in E as ->. intros [= <-]. exists [], l.
    split; [reflexivity|]. split; [reflexivity|]. simpl. tauto.
  - destruct (index_of id l) as [j|]; [|discriminate]. simpl.
    intros [= <-]. destruct (IH j eq_refl) as (l1 & l2 & -> & Hl & Hn).
    exists (x :: l1), l2. split; [reflexivity|]. split; [simpl; lia|].
    intros [->|H]; [|tauto]. rewrite jeqb_refl in E. discriminate.
Qed.

Lemma index_of_None id l : index_of id l = None -> ~ In id l.
Proof.
  induction l as [|x l IH]; simpl; [tauto|].
  destruct (jeqb x id) eqn:E; [discriminate|].
  destruct (index_of id l); [discriminate|]. intros _ [->|H].
  - rewrite jeqb_refl in E. discriminate.
  - tauto.
Qed.

Lemma filter_ne_absent (x : jstring) l :
  ~ In x l -> List.filter (fun id => negb (jeqb id x)) l = l.
Proof.
  intros Hn. apply filter_all. intros y Hy.
  destruct (jeqb y x) eqn:E; [|reflexivity].
  apply jeqb_true in E as ->. contradiction.
Qed.

Lemma filter_ne_perm (x : jstring) l :
  NoDup l -> In x l ->
  Permutation (x :: List.filter (fun id => negb (jeqb id x)) l) l.
Proof.
  induction l as [|a l IH]; intros Hnd Hin; [destruct Hin|].
  apply NoDup_cons in Hnd as [Hn Hnd]. simpl.
  destruct (jeqb a x) eqn:E; simpl.
  - apply jeqb_true in E as ->. rewrite filter_ne_absent; [reflexivity|].
    intros H. apply Hn, list_elem_of_In, H.
  - destruct Hin as [->|Hin]; [rewrite jeqb_refl in E; discriminate|].
    rewrite Permutation_swap. constructor. apply IH; assumption.
Qed.

(** X16.  [handleDrop] of a dragged item on a node of its own section,
    when the stored order of the section has no repetition and holds the
    dragged item: the new order is a permutation of the old one, the
    other items keep their relative order, the dragged item stands
    immediately in front of the node it was dropped on, and it goes to
    the end of the section when it was dropped on itself or on a node
    that is not in the order. *)
Theorem handleDrop_moves dragged nodeId parentId prev :
  let key := match parentId with
             | Some ((_ :: _) as p) => p
             | _ => nodeId
             end in
  let section := default [] (obj_get key prev) in
  NoDup section -> In dragged section ->
  exists next,
    obj_get key (handleDrop (Some (dragged, key)) nodeId parentId prev)
    = Some next
    /\ Permutation next section
    /\ List.filter (fun id => negb (jeqb id dragged)) next
       = List.filter (fun id => negb (jeqb id dragged)) section
    /\ (nodeId <> dragged -> In nodeId section ->
        exists l1 l2, next = l1 ++ dragged :: nodeId :: l2)
    /\ (nodeId = dragged \/ ~ In nodeId section ->
        next
        = List.filter (fun id => negb (jeqb id dragged)) section ++ [dragged]).
Proof.
  cbn zeta. set (key := match parentId with
                        | Some ((_ :: _) as p) => p
                        | _ => nodeId
                        end).
  set (section := default [] (obj_get key prev)). intros Hnd Hin.
  unfold handleDrop. fold key. rewrite jeqb_refl. cbn [negb].
  rewrite obj_get_set_eq. fold section. eexists. split; [reflexivity|].
  unfold reorder.
  set (next := List.filter (fun id => negb (jeqb id dragged)) section).
  assert (~ In dragged next) as Hdn.
  { intros H. apply filter_In in H as [_ H]. rewrite jeqb_refl in H.
    discriminate. }
  assert (forall l1 l2, next = l1 ++ l2 ->
            List.filter (fun id => negb (jeqb id dragged))
              (l1 ++ dragged :: l2) = next) as Hfilter.
  { intros l1 l2 E. rewrite List.filter_app. simpl. rewrite jeqb_refl.
    cbn [negb]. rewrite <- List.filter_app, <- E.
    apply filter_ne_absent, Hdn. }
  assert (forall l1 l2, next = l1 ++ l2 ->
            Permutation (l1 ++ dragged :: l2) section) as Hperm.
  { intros l1 l2 E. rewrite <- Permutation_middle, <- E.
    apply filter_ne_perm; assumption. }
  destruct (index_of nodeId next) as [i|] eqn:Ei.
  - pose proof (eq_sym (take_drop i next)) as Esplit.
    split; [apply Hperm, Esplit|]. split; [apply Hfilter, Esplit|].
    apply index_of_Some in Ei as (l1 & l2 & E & Hl & Hn).
    split.
    + intros _ _. exists l1, l2. rewrite E, <- Hl.
      rewrite take_app_length, drop_app_length. reflexivity.
    + intros [->|Hnot]; exfalso.
      * apply Hdn. rewrite E. apply in_elt.
      * apply Hnot. assert (In nodeId next) as H by (rewrite E; apply in_elt).
        apply filter_In in H as [H _]. exact H.
  - apply index_of_None in Ei.
    split; [apply (Hperm next []); symmetry; apply app_nil_r|].
    split; [apply (Hfilter next []); symmetry; apply app_nil_r|].
    split; [|reflexivity].
    intros Hne Hnode. exfalso. apply Ei. apply filter_In. split; [exact Hnode|].
    destruct (jeqb nodeId dragged) eqn:E; [|reflexivity].
    apply jeqb_true in E. contradiction.
Qed.

Lemma handleDrop_moves_witness :
  exists next,
    obj_get (js "docs")
      (handleDrop (Some (js "b", js "docs")) (js "a") (Some (js "docs"))
         [(js "docs", [js "a"; js "b"; js "c"])])
    = Some next
    /\ Permutation next [js "a"; js "b"; js "c"]
    /\ List.filter (fun id => negb (jeqb id (js "b"))) next
       = List.filter (fun id => negb (jeqb id (js "b")))
           [js "a"; js "b"; js "c"]
    /\ (js "a" <> js "b" -> In (js "a") [js "a"; js "b"; js "c"] ->
        exists l1 l2, next = l1 ++ js "b" :: js "a" :: l2)
    /\ (js "a" = js "b" \/ ~ In (js "a") [js "a"; js "b"; js "c"] ->
        next
        = List.filter (fun id => negb (jeqb id (js "b")))
            [js "a"; js "b"; js "c"] ++ [js "b"]).
Proof.
  apply (handleDrop_moves (js "b") (js "a") (Some (js "docs"))
           [(js "docs", [js "a"; js "b"; js "c"])]).
  - apply (bool_decide_unpack _). vm_compute. exact I.
  - vm_compute. tauto.
Defined.

(** ** Resolutions in the chat log *)

Lemma find_app_first {A} (f : A -> bool) (l1 l2 : list A) :
  find f (l1 ++ l2)
  = match find f l1 with Some x => Some x | None => find f l2 end.
Proof.
  induction l1 as [|a l1 IH]; simpl; [reflexivity|].
  destruct (f a); [reflexivity|exact IH].
Qed.

Lemma first_resolution_insert now c st db c' :
  first_resolution c' (insert_resolution now c st db).2
  = match first_resolution c' db with
    | Some r => Some r
    | None =>
        if c =? c' then
          Some {| rs_id := cv_next db; rs_changeId := c; rs_status := st;
                  rs_resolvedAt := now |}
        else None
    end.
Proof.
  unfold first_resolution. simpl. rewrite find_app_first.
  destruct (find _ (cv_changeResolutions db)); [reflexivity|]. simpl.
  destruct (c =? c'); reflexivity.
Qed.

Lemma change_status_insert now c st db c' :
  change_status c' (insert_resolution now c st db).2
  = match change_status c' db with
    | Pending =>
        if c =? c' then
          match st with
          | ResolvedApplied => Applied
          | ResolvedDismissed => Dismissed
          end
        else Pending
    | r => r
    end.
Proof.
  unfold change_status. rewrite first_resolution_insert.
  destruct (first_resolution c' db) as [r|].
  - destruct (rs_status r); reflexivity.
  - destruct (c =? c'); reflexivity.
Qed.


Lemma first_resolution_head c db :
  first_resolution c db = head (resolutions_of c db).
Proof.
  unfold first_resolution, resolutions_of.
  induction (cv_changeResolutions db) as [|r l IH]; simpl; [reflexivity|].
  destruct (rs_changeId r =? c); [reflexivity|exact IH].
Qed.

(** X17.  [resolveChange] records the first resolution of a change and
    nothing after it: a change that was pending gets the given status, a
    change that was resolved keeps its status, the other changes are
    untouched, a change never gets a second resolution record from it,
    and calling it again for the same change, with whatever status,
    returns the id of the existing record and leaves the tables as they
    are. *)
Theorem resolveChange_first_wins now c st db c' :
  let db' := (resolveChange now c st db).2 in
  change_status c' db'
  = match change_status c' db with
    | Pending => if c =? c' then status_of_resolved st else Pending
    | resolved => resolved
    end
  /\ length (resolutions_of c' db')
     = (if (c =? c') && (length (resolutions_of c' db) =? 0) then 1
        else length (resolutions_of c' db))
  /\ (forall now' st',
        resolveChange now' c st' db' = ((resolveChange now c st db).1, db'))
  /\ cv_changes db' = cv_changes db.
Proof.
  unfold resolveChange.
  destruct (first_resolution c db) as [r|] eqn:E; cbn zeta.
  - cbn [snd fst]. split; [|split; [|split]].
    + unfold change_status.
      destruct (first_resolution c' db) as [r'|] eqn:E'.
      * destruct (rs_status r'); reflexivity.
      * destruct (c =? c') eqn:Ec; [|reflexivity].
        apply Nat.eqb_eq in Ec as ->. congruence.
    + destruct (c =? c') eqn:Ec; [|reflexivity].
      apply Nat.eqb_eq in Ec as ->. rewrite first_resolution_head in E.
      destruct (resolutions_of c' db); [discriminate|reflexivity].
    + intros now' st'. rewrite E. reflexivity.
    + reflexivity.
  - split; [|split; [|split]].
    + rewrite change_status_insert. destruct st; reflexivity.
    + unfold resolutions_of at 1. cbn [insert_resolution snd
        cv_changeResolutions].
      rewrite List.filter_app, length_app. fold (resolutions_of c' db).
      cbn [List.filter rs_changeId].
      destruct (c =? c') eqn:Ec; cbn [andb length].
      * apply Nat.eqb_eq in Ec as ->. rewrite first_resolution_head in E.
        destruct (resolutions_of c' db); [reflexivity|discriminate].
      * lia.
    + intros now' st'. rewrite first_resolution_insert, E, Nat.eqb_refl.
      reflexivity.
    + reflexivity.
Qed.

Lemma resolve_each_status clock st l : forall i db c',
  change_status c' (resolve_each clock i st l db)
  = match change_status c' db with
    | Pending =>
        if existsb (fun ch => ch_id ch =? c') l then status_of_resolved st
        else Pending
    | resolved => resolved
    end.
Proof.
  induction l as [|ch l IH]; intros i db c'; cbn [resolve_each existsb].
  - destruct (change_status c' db); reflexivity.
  - rewrite IH. destruct (first_resolution (ch_id ch) db) as [r|] eqn:E.
    + destruct (change_status c' db) eqn:Es; try reflexivity.
      destruct (ch_id ch =? c') eqn:Ec; [|reflexivity].
      apply Nat.eqb_eq in Ec. unfold change_status in Es. rewrite <- Ec, E in Es.
      destruct (rs_status r); discriminate.
    + rewrite change_status_insert.
      destruct (change_status c' db); try reflexivity.
      destruct (ch_id ch =? c'); cbn [orb].
      * destruct st; reflexivity.
      * reflexivity.
Qed.

Lemma resolve_each_tables clock st l : forall i db,
  cv_changes (resolve_each clock i st l db) = cv_changes db
  /\ cv_messages (resolve_each clock i st l db) = cv_messages db.
Proof.
  induction l as [|ch l IH]; intros i db; cbn [resolve_each]; [auto|].
  destruct (IH (S i)
              (match first_resolution (ch_id ch) db with
               | Some _ => db
               | None => (insert_resolution (clock i) (ch_id ch) st db).2
               end)) as [-> ->].
  destruct (first_resolution (ch_id ch) db); auto.
Qed.

Lemma resolve_each_resolved clock st l : forall i db,
  Forall (fun ch => change_status (ch_id ch) db <> Pending) l ->
  resolve_each clock i st l db = db.
Proof.
  induction l as [|ch l IH]; intros i db Hall; cbn [resolve_each];
    [reflexivity|].
  apply Forall_cons in Hall as [Hch Hall].
  destruct (first_resolution (ch_id ch) db) eqn:E.
  - apply IH, Hall.
  - exfalso. apply Hch. unfold change_status. rewrite E. reflexivity.
Qed.

(** X18.  [resolveAllChangesForMessage] gives the given status to the
    changes of the message that were pending and leaves every resolved
    change, and every change of another message, as it was; afterwards no
    change of the message is pending, neither in the table nor in what
    [getBySession] returns for the message; the proposals and the
    messages are untouched, and a second call changes nothing. *)
Theorem resolveAllChangesForMessage_resolves clock messageId st db :
  let db' := resolveAllChangesForMessage clock messageId st db in
  (forall c',
     change_status c' db'
     = match change_status c' db with
       | Pending =>
           if existsb (fun ch => ch_id ch =? c')
                (changes_of_message messageId db)
           then status_of_resolved st else Pending
       | resolved => resolved
       end)
  /\ Forall (fun ch => change_status (ch_id ch) db' <> Pending)
       (changes_of_message messageId db')
  /\ (forall sessionId shown changes,
        In shown (getBySession sessionId db') ->
        ms_id (mw_message shown) = messageId ->
        mw_changes shown = Some changes ->
        Forall (fun c => cw_status c <> Pending) changes)
  /\ cv_changes db' = cv_changes db
  /\ cv_messages db' = cv_messages db
  /\ (forall clock' st',
        resolveAllChangesForMessage clock' messageId st' db' = db').
Proof.
  cbn zeta. unfold resolveAllChangesForMessage.
  destruct (resolve_each_tables clock st (changes_of_message messageId db)
              0 db) as [Hc Hm].
  assert (Forall (fun ch =>
            change_status (ch_id ch)
              (resolve_each clock 0 st (changes_of_message messageId db) db)
            <> Pending)
            (changes_of_message messageId db)) as Hall.
  { apply List.Forall_forall. intros ch Hin. rewrite resolve_each_status.
    destruct (change_status (ch_id ch) db); try discriminate.
    assert (existsb (fun ch0 => ch_id ch0 =? ch_id ch)
              (changes_of_message messageId db) = true) as ->.
    { apply existsb_exists. exists ch. split; [exact Hin|].
      apply Nat.eqb_refl. }
    destruct st; discriminate. }
  split; [intros c'; apply resolve_each_status|].
  assert (changes_of_message messageId
            (resolve_each clock 0 st (changes_of_message messageId db) db)
          = changes_of_message messageId db) as Hsame.
  { unfold changes_of_message at 1. rewrite Hc. reflexivity. }
  split; [rewrite Hsame; exact Hall|].
  split.
  { intros sessionId shown changes Hin Hid Hch.
    unfold getBySession in Hin. apply in_map_iff in Hin as (m & <- & _).
    cbn [mw_message mw_changes] in Hid, Hch. rewrite Hid, Hsame in Hch.
    assert (changes
            = map (fun change =>
                     {| cw_change := change;
                        cw_status :=
                          change_status (ch_id change)
                            (resolve_each clock 0 st
                               (changes_of_message messageId db) db) |})
                (changes_of_message messageId db)) as ->.
    { destruct (changes_of_message messageId db); [discriminate|].
      cbn [map] in Hch. injection Hch as <-. reflexivity. }
    apply List.Forall_forall. intros c Hc'.
    apply in_map_iff in Hc' as (change & <- & Hchange).
    rewrite List.Forall_forall in Hall. exact (Hall change Hchange). }
  split; [exact Hc|]. split; [exact Hm|].
  intros clock' st'. rewrite Hsame. apply resolve_each_resolved, Hall.
Qed.

(** ** Applying the changes of the current document *)






(** ** Entities and their relationships *)

Section GraphFacts.
Context {Value : Type}.
Implicit Types (db : EntityDb Value) (s : GraphStore Value).

Lemma has_entity_getEntity id db :
  has_entity id db = true <-> is_Some (getEntity id (tbl_entities db)).
Proof.
  unfold has_entity, getEntity.
  induction (tbl_entities db) as [|row t IH]; simpl.
  - split; [discriminate|]. intros [x H]. discriminate.
  - destruct (jeqb (r_id row) id); simpl; [|exact IH].
    split; [eauto|reflexivity].
Qed.

Lemma getEntity_filter_ne id id' (table : list (EntityRow Value)) :
  id <> id' ->
  getEntity id'
    (List.filter (fun row => negb (jeqb (r_id row) id)) table)
  = getEntity id' table.
Proof.
  intros Hne. unfold getEntity. f_equal. f_equal.
  induction table as [|row t IH]; simpl; [reflexivity|].
  destruct (jeqb (r_id row) id) eqn:E; simpl.
  - apply jeqb_true in E. rewrite E. apply jeqb_false in Hne. rewrite Hne.
    exact IH.
  - rewrite IH. reflexivity.
Qed.

Lemma getEntity_filter_eq id (table : list (EntityRow Value)) :
  getEntity id (List.filter (fun row => negb (jeqb (r_id row) id)) table)
  = None.
Proof.
  unfold getEntity.
  induction table as [|row t IH]; simpl; [reflexivity|].
  destruct (jeqb (r_id row) id) eqn:E; simpl; [|rewrite E]; exact IH.
Qed.

Lemma touches_row id (row : RelationshipRow Value) :
  touches id (relationship_of_row row) = row_touches id row.
Proof. reflexivity. Qed.

Lemma filter_filter_none {A} (f : A -> bool) l :
  List.filter f (List.filter (fun x => negb (f x)) l) = [].
Proof.
  induction l as [|a l IH]; simpl; [reflexivity|].
  destruct (f a) eqn:E; simpl; [|rewrite E]; exact IH.
Qed.

Lemma filter_map_comm {A B} (f : A -> B) (p : B -> bool) l :
  List.filter p (map f l) = map f (List.filter (fun x => p (f x)) l).
Proof.
  induction l as [|a l IH]; simpl; [reflexivity|].
  destruct (p (f a)); simpl; rewrite IH; reflexivity.
Qed.

Lemma touches_split id (r : Relationship Value) :
  negb (jeqb (l_subject_id r) id) && negb (jeqb (l_object_id r) id)
  = negb (touches id r).
Proof. unfold touches. rewrite negb_orb. reflexivity. Qed.

Lemma deleteEntity_sync id s :
  relationships_in_sync s -> relationships_in_sync (deleteEntity id s).
Proof.
  unfold relationships_in_sync, getAllRelationships. intros Hsync. simpl.
  rewrite Hsync, (filter_ext _ _ (touches_split id)), filter_map_comm.
  reflexivity.
Qed.

(** X20.  [deleteEntity] removes the entity and every relationship it
    takes part in, as subject or as object, from the database and from
    the store: the entity can no longer be read, no relationship of the
    entity is left, the current entity id does not name it, every other
    entity and every relationship between other entities is as it was,
    and a store whose relationships are those of the database stays
    so. *)
Theorem deleteEntity_cascades id s :
  getEntity id (tbl_entities (g_db (deleteEntity id s))) = None
  /\ g_entities (deleteEntity id s) !! id = None
  /\ db_getRelationshipsForEntity id (g_db (deleteEntity id s)) = []
  /\ getRelationshipsForEntity id (deleteEntity id s) = []
  /\ g_currentEntityId (deleteEntity id s) <> Some id
  /\ (forall id', id <> id' ->
        getEntity id' (tbl_entities (g_db (deleteEntity id s)))
        = getEntity id' (tbl_entities (g_db s))
        /\ g_entities (deleteEntity id s) !! id' = g_entities s !! id')
  /\ (forall r, In r (g_relationships (deleteEntity id s))
                <-> In r (g_relationships s) /\ touches id r = false)
  /\ (relationships_in_sync s -> relationships_in_sync (deleteEntity id s)).
Proof.
  pose proof (touches_split id) as Hneg.
  split; [apply getEntity_filter_eq|].
  split; [apply lookup_delete_eq|].
  split.
  { unfold db_getRelationshipsForEntity. simpl.
    rewrite filter_filter_none. reflexivity. }
  split.
  { unfold getRelationshipsForEntity. simpl.
    rewrite (filter_ext _ _ Hneg). apply filter_filter_none. }
  split.
  { simpl. destruct (opt_jeqb (g_currentEntityId s) id) eqn:E; [discriminate|].
    intros H. rewrite H in E. simpl in E. rewrite jeqb_refl in E.
    discriminate. }
  split.
  { intros id' Hne. split; [apply getEntity_filter_ne, Hne|].
    apply lookup_delete_ne, Hne. }
  split.
  { intros r. simpl. rewrite filter_In, Hneg, negb_true_iff. reflexivity. }
  apply deleteEntity_sync.
Qed.

Lemma has_entity_delete id id' db :
  has_entity id' (db_deleteEntity id db)
  = negb (jeqb id' id) && has_entity id' db.
Proof.
  unfold has_entity. simpl.
  induction (tbl_entities db) as [|row t IH]; simpl.
  - rewrite andb_false_r. reflexivity.
  - destruct (jeqb (r_id row) id) eqn:E; simpl.
    + rewrite IH. apply jeqb_true in E. rewrite E.
      destruct (jeqb id id') eqn:E'.
      * apply jeqb_true in E' as ->. rewrite jeqb_refl. reflexivity.
      * rewrite (jeqb_sym id' id), E'. reflexivity.
    + rewrite IH. destruct (jeqb (r_id row) id') eqn:E'; [|reflexivity].
      apply jeqb_true in E' as <-. rewrite E. reflexivity.
Qed.

Lemma has_entity_create e type name props conf db ent db' id :
  db_createEntity e type name props conf db = Some (ent, db') ->
  has_entity id db = true -> has_entity id db' = true.
Proof.
  unfold db_createEntity. destruct (existsb _ _); [discriminate|].
  intros [= _ <-] H. unfold has_entity in *. simpl.
  rewrite existsb_app, H. reflexivity.
Qed.

(** X21.  Referential integrity of the relationships table (the subject
    and the object of every relationship are entities of the database) is
    kept by the data-access functions [deleteEntity],
    [deleteRelationship] and [createEntity], and by [createRelationship]
    when foreign keys are enforced or both ends exist. *)
Theorem no_dangling_preserved e db :
  no_dangling db ->
  (forall id, no_dangling (db_deleteEntity id db))
  /\ (forall id, no_dangling (db_deleteRelationship id db))
  /\ (forall type name props conf ent db',
        db_createEntity e type name props conf db = Some (ent, db') ->
        no_dangling db')
  /\ (forall type subj obj props ev r db',
        db_createRelationship e type subj obj props ev db = Some (r, db') ->
        foreign_keys db = true
        \/ has_entity subj db = true /\ has_entity obj db = true ->
        no_dangling db').
Proof.
  unfold no_dangling. intros Hnd. rewrite List.Forall_forall in Hnd.
  split; [|split; [|split]].
  - intros id. apply List.Forall_forall. intros row Hin. simpl in Hin.
    apply filter_In in Hin as [Hin Ht]. destruct (Hnd row Hin) as [H1 H2].
    unfold row_touches in Ht. apply negb_true_iff, orb_false_iff in Ht
      as [Hs Ho].
    rewrite !has_entity_delete, Hs, Ho, H1, H2. split; reflexivity.
  - intros id. apply List.Forall_forall. intros row Hin. simpl in Hin.
    apply filter_In in Hin as [Hin _]. exact (Hnd row Hin).
  - intros type name props conf ent db' Hc. apply List.Forall_forall.
    intros row Hin.
    assert (tbl_relationships db' = tbl_relationships db) as Et.
    { unfold db_createEntity in Hc. destruct (existsb _ _); [discriminate|].
      injection Hc as _ <-. reflexivity. }
    rewrite Et in Hin. destruct (Hnd row Hin) as [H1 H2].
    split; eapply has_entity_create; eauto.
  - intros type subj obj props ev r db' Hc Hfk. apply List.Forall_forall.
    unfold db_createRelationship in Hc.
    destruct (existsb _ (tbl_relationships db)); [discriminate|].
    cbn [orb] in Hc.
    assert (has_entity subj db = true /\ has_entity obj db = true)
      as [Hs Ho].
    { destruct Hfk as [Hfk|Hfk]; [|exact Hfk]. rewrite Hfk in Hc.
      cbn [andb] in Hc.
      destruct (has_entity subj db); [|discriminate].
      destruct (has_entity obj db); [|discriminate]. auto. }
    destruct (foreign_keys db && _); [discriminate|].
    injection Hc as _ <-. intros row Hin. simpl in Hin.
    apply in_app_or in Hin as [Hin|[<-|[]]].
    + exact (Hnd row Hin).
    + split; assumption.
Qed.

(** X22.  A store whose relationships are those of the database stays so
    under [deleteRelationship], [deleteEntity], [createEntity] and
    [createRelationship]; after [deleteRelationship] no relationship of
    the store has the deleted id, and [createRelationship] puts the new
    relationship at the end of the list, where
    [getRelationshipsForEntity] finds it for its subject and for its
    object. *)
Theorem relationships_in_sync_preserved e s :
  relationships_in_sync s ->
  (forall id, relationships_in_sync (deleteRelationship id s)
              /\ Forall (fun r => l_id r <> id)
                   (g_relationships (deleteRelationship id s)))
  /\ (forall id, relationships_in_sync (deleteEntity id s))
  /\ (forall type name props ent s',
        createEntity e type name props s = Some (ent, s') ->
        relationships_in_sync s')
  /\ (forall type subj obj props ev r s',
        createRelationship e type subj obj props ev s = Some (r, s') ->
        relationships_in_sync s'
        /\ g_relationships s' = g_relationships s ++ [r]
        /\ In r (getRelationshipsForEntity subj s')
        /\ In r (getRelationshipsForEntity obj s')).
Proof.
  unfold relationships_in_sync, getAllRelationships. intros Hsync.
  split; [|split; [|split]].
  - intros id. simpl. rewrite Hsync, filter_map_comm. split; [reflexivity|].
    apply List.Forall_forall. intros r Hin.
    apply in_map_iff in Hin as (row & <- & Hin).
    apply filter_In in Hin as [_ Hin]. simpl in Hin.
    apply negb_true_iff, jeqb_false in Hin. exact Hin.
  - intros id. apply deleteEntity_sync. exact Hsync.
  - intros type name props ent s'. unfold createEntity, db_createEntity.
    destruct (existsb _ _); [discriminate|]. cbn [mbind option_bind].
    intros [= _ <-]. simpl. exact Hsync.
  - intros type subj obj props ev r s'.
    unfold createRelationship, db_createRelationship.
    destruct (_ || _); [discriminate|]. cbn [mbind option_bind].
    intros [= <- <-]. simpl. rewrite map_app, Hsync.
    split; [reflexivity|]. split; [reflexivity|].
    unfold getRelationshipsForEntity. simpl.
    split; apply filter_In; (split; [apply in_or_app; right; left;
      reflexivity|]); unfold touches; simpl; rewrite jeqb_refl;
      [reflexivity|apply orb_true_r].
Qed.

(** X23.  The store's [createEntity] fails exactly when the generated id
    is taken in the [entities] table.  When it succeeds, the entity it
    returns has the generated id, the given type, name and properties and
    both time stamps equal; the database and the store return that entity
    for its id, and every other entity is as it was. *)
Theorem createEntity_then_getEntity e type name props s :
  let id :=
    entityType_name type ++ js "-" ++ showZ (now e) ++ js "-" ++ random36 e in
  match createEntity e type name props s with
  | Some (entity, s') =>
      getEntity id (tbl_entities (g_db s)) = None
      /\ entity
         = {| e_id := id; e_type := type; e_name := name;
              e_properties := props; e_created_at := now_again e;
              e_updated_at := now_again e |}
      /\ getEntity id (tbl_entities (g_db s')) = Some entity
      /\ g_entities s' !! id = Some entity
      /\ (forall id', id <> id' ->
            getEntity id' (tbl_entities (g_db s'))
            = getEntity id' (tbl_entities (g_db s))
            /\ g_entities s' !! id' = g_entities s !! id')
  | None => is_Some (getEntity id (tbl_entities (g_db s)))
  end.
Proof.
  cbn zeta. unfold createEntity, db_createEntity.
  set (id := entityType_name type ++ js "-" ++ showZ (now e) ++ js "-"
               ++ random36 e).
  destruct (existsb (fun row => jeqb (r_id row) id) (tbl_entities (g_db s)))
    eqn:E; cbn [mbind option_bind].
  { apply (has_entity_getEntity id (g_db s)). exact E. }
  assert (List.filter (fun row : EntityRow Value => jeqb (r_id row) id)
            (tbl_entities (g_db s)) = []) as Hnone.
  { induction (tbl_entities (g_db s)) as [|row t IH]; [reflexivity|].
    simpl in *. destruct (jeqb (r_id row) id); [discriminate|]. auto. }
  split; [unfold getEntity; rewrite Hnone; reflexivity|].
  split; [reflexivity|]. split.
  { unfold getEntity. simpl. rewrite List.filter_app, Hnone. simpl.
    rewrite jeqb_refl. reflexivity. }
  split; [simpl; apply lookup_insert_eq|].
  intros id' Hne. split.
  - unfold getEntity. simpl. rewrite List.filter_app. simpl.
    apply jeqb_false in Hne. rewrite Hne, app_nil_r. reflexivity.
  - simpl. apply lookup_insert_ne, Hne.
Qed.
End GraphFacts.

Lemma no_dangling_preserved_witness :
  (forall id, no_dangling (db_deleteEntity id example_entity_db))
  /\ (forall id, no_dangling (db_deleteRelationship id example_entity_db))
  /\ (forall type name props conf ent db',
        db_createEntity example_env type name props conf example_entity_db
        = Some (ent, db') ->
        no_dangling db')
  /\ (forall type subj obj props ev r db',
        db_createRelationship example_env type subj obj props ev
          example_entity_db = Some (r, db') ->
        foreign_keys example_entity_db = true
        \/ has_entity subj example_entity_db = true
           /\ has_entity obj example_entity_db = true ->
        no_dangling db').
Proof.
  apply (no_dangling_preserved example_env example_entity_db).
  constructor.
Defined.

Lemma relationships_in_sync_preserved_witness :
  (forall id, relationships_in_sync (deleteRelationship id example_graph)
              /\ Forall (fun r => l_id r <> id)
                   (g_relationships (deleteRelationship id example_graph)))
  /\ (forall id, relationships_in_sync (deleteEntity id example_graph))
  /\ (forall type name props ent s',
        createEntity example_env type name props example_graph
        = Some (ent, s') ->
        relationships_in_sync s')
  /\ (forall type subj obj props ev r s',
        createRelationship example_env type subj obj props ev example_graph
        = Some (r, s') ->
        relationships_in_sync s'
        /\ g_relationships s' = g_relationships example_graph ++ [r]
        /\ In r (getRelationshipsForEntity subj s')
        /\ In r (getRelationshipsForEntity obj s')).
Proof.
  apply (relationships_in_sync_preserved example_env example_graph).
  reflexivity.
Defined.

(** ** The order and the matches of a search *)

Lemma name_leb_total a b : name_leb a b = true \/ name_leb b a = true.
Proof.
  revert b; induction a as [|x a IH]; intros [|y b]; simpl; auto.
  destruct (N.compare_spec (code x) (code y)) as [E|E|E].
  - rewrite E, N.ltb_irrefl, N.eqb_refl. simpl. apply IH.
  - left. apply N.ltb_lt in E. rewrite E. reflexivity.
  - right. apply N.ltb_lt in E. rewrite E. reflexivity.
Qed.

Lemma name_leb_trans a b c :
  name_leb a b = true -> name_leb b c = true -> name_leb a c = true.
Proof.
  revert b c; induction a as [|x a IH]; intros [|y b] [|z c]; simpl;
    try discriminate; auto.
  intros H1 H2.
  apply orb_true_iff in H1 as [H1|H1], H2 as [H2|H2].
  - apply N.ltb_lt in H1, H2. apply orb_true_iff. left. apply N.ltb_lt. lia.
  - apply andb_true_iff in H2 as [H2 _]. apply N.eqb_eq in H2.
    rewrite <- H2, H1. reflexivity.
  - apply andb_true_iff in H1 as [H1 _]. apply N.eqb_eq in H1.
    rewrite H1, H2. reflexivity.
  - apply andb_true_iff in H1 as [H1 H1'], H2 as [H2 H2'].
    apply N.eqb_eq in H1, H2. rewrite H1, H2, N.eqb_refl.
    rewrite (IH b c H1' H2'). apply orb_true_r.
Qed.

Section SearchFacts.
Context {Value : Type}.

Lemma row_le_total : Total (@row_le Value).
Proof.
  intros a b. unfold row_le.
  destruct (name_leb_total (r_name a) (r_name b)) as [H|H]; rewrite H;
    [left|right]; exact I.
Qed.

Lemma row_le_trans : Transitive (@row_le Value).
Proof.
  intros a b c. unfold row_le. intros H1 H2.
  apply Is_true_true in H1, H2. apply Is_true_true.
  eapply name_leb_trans; eauto.
Qed.

Lemma StronglySorted_take {A} (R : relation A) n l :
  StronglySorted R l -> StronglySorted R (take n l).
Proof.
  revert n; induction l as [|a l IH]; intros [|n] H; simpl;
    try constructor.
  - apply IH. inversion H; assumption.
  - inversion H as [|? ? _ Hall]; subst.
    apply List.Forall_forall. intros x Hx.
    rewrite List.Forall_forall in Hall. apply Hall.
    apply list_elem_of_In. eapply subseteq_take. apply list_elem_of_In, Hx.
Qed.

Lemma StronglySorted_split {A} (R : relation A) l1 l2 :
  StronglySorted R (l1 ++ l2) ->
  forall x y, In x l1 -> In y l2 -> R x y.
Proof.
  induction l1 as [|a l1 IH]; intros H x y Hx Hy; [destruct Hx|].
  inversion H as [|? ? Hs Hall]; subst. destruct Hx as [->|Hx].
  - rewrite List.Forall_forall in Hall. apply Hall.
    apply in_or_app. right. exact Hy.
  - apply IH; assumption.
Qed.

(** X24.  The entities [searchEntities] returns are in ascending order
    of their names, each of them comes from a row of the table whose name
    matches the pattern, and a matching row that is not returned has a
    name that is not smaller than the name of any returned entity. *)
Theorem searchEntities_sorted query (table : list (EntityRow Value)) :
  let pattern := js "%" ++ query ++ js "%" in
  StronglySorted (fun a b => name_leb (e_name a) (e_name b) = true)
    (searchEntities query table)
  /\ (forall ent, In ent (searchEntities query table) ->
        exists row, In row table /\ ent = entity_of_row row
                    /\ like pattern (r_name row) = true)
  /\ (forall row, In row table -> like pattern (r_name row) = true ->
        In (entity_of_row row) (searchEntities query table)
        \/ Forall (fun ent => name_leb (e_name ent) (r_name row) = true)
             (searchEntities query table)).
Proof.
  cbn zeta. unfold searchEntities.
  set (rows := List.filter _ table).
  pose proof (@StronglySorted_merge_sort _ row_le _ row_le_trans
                row_le_total rows) as Hsorted.
  pose proof (merge_sort_Permutation row_le rows) as Hperm.
  split; [|split].
  - apply (StronglySorted_take _ 20) in Hsorted.
    induction Hsorted as [|row l _ IH Hall]; simpl; constructor.
    + exact IH.
    + apply List.Forall_forall. intros ent Hin.
      apply in_map_iff in Hin as (row' & <- & Hin).
      rewrite List.Forall_forall in Hall. specialize (Hall row' Hin).
      apply Is_true_true in Hall. exact Hall.
  - intros ent Hin. apply in_map_iff in Hin as (row & <- & Hin).
    assert (In row rows) as Hrow.
    { apply list_elem_of_In. rewrite <- Hperm. apply list_elem_of_In.
      apply list_elem_of_In in Hin. apply list_elem_of_In.
      eapply subseteq_take. exact Hin. }
    apply filter_In in Hrow as [H1 H2]. exists row. auto.
  - intros row Hin Hlike.
    assert (In row (merge_sort row_le rows)) as Hrow.
    { apply list_elem_of_In. rewrite Hperm. apply list_elem_of_In.
      apply filter_In. auto. }
    rewrite <- (take_drop 20 (merge_sort row_le rows)) in Hrow, Hsorted.
    apply in_app_or in Hrow as [Hrow|Hrow].
    + left. apply in_map, Hrow.
    + right. apply List.Forall_forall. intros ent Hent.
      apply in_map_iff in Hent as (row' & <- & Hent).
      pose proof (StronglySorted_split _ _ _ Hsorted row' row Hent Hrow) as H.
      apply Is_true_true in H. exact H.
Qed.
End SearchFacts.


Lemma like_percent p s :
  like ("%"%char :: p) s = true
  <-> exists u v, s = u ++ v /\ like p v = true.
Proof.
  induction s as [|c s IH].
  - cbn -[Ascii.eqb]. rewrite Ascii.eqb_refl, orb_false_r. split.
    + intros H. exists [], []. auto.
    + intros (u & v & E & H). symmetry in E.
      apply app_eq_nil in E as [-> ->]. exact H.
  - change (like ("%"%char :: p) (c :: s))
      with (like p (c :: s) || like ("%"%char :: p) s).
    rewrite orb_true_iff, IH. split.
    + intros [H|(u & v & -> & H)].
      * exists [], (c :: s). auto.
      * exists (c :: u), v. auto.
    + intros ([|c' u] & v & E & H).
      * left. simpl in E. rewrite E. exact H.
      * right. injection E as <- ->. eauto.
Qed.

Lemma like_any s : like (js "%") s = true.
Proof.
  apply like_percent. exists s, []. rewrite app_nil_r. auto.
Qed.

Lemma like_literal q : forall s,
  existsb is_wildcard q = false ->
  like (q ++ js "%") s = true
  <-> exists w v, s = w ++ v /\ map sqlite_fold w = map sqlite_fold q.
Proof.
  induction q as [|c q IH]; intros s Hq.
  - cbn [app]. split.
    + intros _. exists [], s. auto.
    + intros _. apply like_any.
  - cbn [existsb] in Hq. apply orb_false_iff in Hq as [Hc Hq].
    unfold is_wildcard in Hc. apply orb_false_iff in Hc as [H1 H2].
    cbn [app like]. rewrite H1.
    destruct s as [|d s].
    + split; [discriminate|]. intros (w & v & E & Hw). symmetry in E.
      apply app_eq_nil in E as [-> ->]. discriminate.
    + rewrite H2. cbn [orb]. rewrite andb_true_iff, (IH s Hq). split.
      * intros (Hcd & w & v & -> & Hw). exists (d :: w), v.
        split; [reflexivity|]. cbn [map]. apply Ascii.eqb_eq in Hcd.
        rewrite Hcd, Hw. reflexivity.
      * intros ([|d' w] & v & E & Hw); [discriminate|].
        injection E as <- ->. cbn [map] in Hw. injection Hw as Hd Hw.
        split; [rewrite Hd; apply Ascii.eqb_refl|eauto].
Qed.

(** X25.  For a query without [%] and [_], a name matches the search
    pattern exactly when it contains the query, letters of the ASCII range
    compared without regard to case.  The two characters are not escaped:
    the query [_] matches every name that is not empty, and the query [%]
    matches every name. *)
Theorem like_contains query s :
  (existsb is_wildcard query = false ->
   like (js "%" ++ query ++ js "%") s = true <-> contains_nocase s query)
  /\ (like (js "%" ++ js "_" ++ js "%") s = true <-> s <> [])
  /\ like (js "%" ++ js "%" ++ js "%") s = true.
Proof.
  split; [|split].
  - intros Hq. change (js "%" ++ query ++ js "%")
      with ("%"%char :: (query ++ js "%")).
    rewrite like_percent. unfold contains_nocase. split.
    + intros (u & v & -> & H). apply (like_literal query v Hq) in H
        as (w & v' & -> & Hw). eauto.
    + intros (u & w & v & -> & Hw). exists u, (w ++ v).
      split; [reflexivity|]. apply (like_literal query _ Hq). eauto.
  - change (js "%" ++ js "_" ++ js "%") with ("%"%char :: js "_%").
    rewrite like_percent. split.
    + intros (u & v & -> & H). destruct v; [discriminate|].
      destruct u; discriminate.
    + intros Hne. destruct s as [|c s]; [congruence|].
      exists [], (c :: s). split; [reflexivity|].
      change (like (js "%") s = true). apply like_any.
  - change (js "%" ++ js "%" ++ js "%") with ("%"%char :: js "%%").
    apply like_percent. exists [], s. split; [reflexivity|].
    apply like_percent. exists [], s. split; [reflexivity|]. apply like_any.
Qed.

(** ** The documents database *)

Lemma turso_get_map id id' (f : TursoDocument -> TursoDocument) table :
  (forall row, td_id (f row) = td_id row) ->
  head (List.filter (fun row => jeqb (td_id row) id')
          (map (fun row => if jeqb (td_id row) id then f row else row) table))
  = (fun row => if jeqb (td_id row) id then f row else row)
      <$> head (List.filter (fun row => jeqb (td_id row) id') table).
Proof.
  intros Hf. induction table as [|row t IH]; simpl; [reflexivity|].
  destruct (jeqb (td_id row) id) eqn:E.
  - rewrite Hf. destruct (jeqb (td_id row) id'); [simpl; rewrite E|];
      auto.
  - destruct (jeqb (td_id row) id'); [simpl; rewrite E|]; auto.
Qed.

Lemma map_update_absent id (f : TursoDocument -> TursoDocument) table :
  existsb (fun row => jeqb (td_id row) id) table = false ->
  map (fun row => if jeqb (td_id row) id then f row else row) table = table.
Proof.
  induction table as [|row t IH]; simpl; [reflexivity|].
  intros H. apply orb_false_iff in H as [-> H]. rewrite IH by exact H.
  reflexivity.
Qed.

Lemma turso_getDocument_None id db :
  turso_getDocument id db = None
  <-> existsb (fun row => jeqb (td_id row) id) (documents_table db) = false.
Proof.
  unfold turso_getDocument.
  induction (documents_table db) as [|row t IH]; simpl; [tauto|].
  destruct (jeqb (td_id row) id); simpl; [|exact IH].
  split; discriminate.
Qed.

Lemma turso_getDocument_id id db row :
  turso_getDocument id db = Some row -> td_id row = id.
Proof.
  unfold turso_getDocument. intros H.
  assert (In row (List.filter (fun row => jeqb (td_id row) id)
                    (documents_table db))) as Hin.
  { destruct (List.filter _ _); [discriminate|]. injection H as ->.
    left. reflexivity. }
  apply filter_In in Hin as [_ Hin]. apply jeqb_true, Hin.
Qed.

(** X26.  [updateDocument] of the data-access layer, for a stored
    document and a clock reading no version is named after: the content
    and the time stamp of the document are replaced, its previous content
    is appended to the version history, and the other documents are
    untouched.  A further update at the same clock reading, of whichever
    stored document, fails on the id of the version, and the store's
    request for it leaves the database as it is. *)
Theorem turso_updateDocument_keeps_history now id content db current :
  turso_getDocument id db = Some current ->
  existsb (fun v => jeqb (dv_id v) (version_id now)) (document_versions db)
  = false ->
  exists db',
    turso_updateDocument now id content db = Some db'
    /\ turso_getDocument id db'
       = Some {| td_id := id; td_path := td_path current;
                 td_title := td_title current; td_content := content;
                 td_created_at := td_created_at current;
                 td_updated_at := now |}
    /\ document_versions db'
       = document_versions db
         ++ [{| dv_id := version_id now; dv_document_id := id;
                dv_content := td_content current; dv_created_at := now |}]
    /\ (forall id', id <> id' ->
          turso_getDocument id' db' = turso_getDocument id' db)
    /\ (forall id' content',
          is_Some (turso_getDocument id' db') ->
          turso_updateDocument now id' content' db' = None)
    /\ (forall id' content',
          persist now (TursoUpdateDocument id' content') db' = db').
Proof.
  intros Hcur Hfresh. unfold turso_updateDocument at 1.
  rewrite Hcur, Hfresh. cbn [mbind option_bind]. eexists.
  split; [reflexivity|].
  set (db' := {| documents_table := _; document_versions := _ |}).
  assert (existsb (fun v => jeqb (dv_id v) (version_id now))
            (document_versions db') = true) as Htaken.
  { unfold db'. simpl. rewrite existsb_app. simpl. rewrite jeqb_refl.
    rewrite orb_true_r. reflexivity. }
  assert (forall id' content',
            is_Some (turso_getDocument id' db') ->
            turso_updateDocument now id' content' db' = None) as Hcollide.
  { intros id' content' [row Hrow]. unfold turso_updateDocument.
    rewrite Hrow, Htaken. reflexivity. }
  split; [|split; [reflexivity|split; [|split; [exact Hcollide|]]]].
  - unfold turso_getDocument, db'. cbn [documents_table].
    rewrite (turso_get_map id id
               (fun row => {| td_id := td_id row; td_path := td_path row;
                              td_title := td_title row;
                              td_content := content;
                              td_created_at := td_created_at row;
                              td_updated_at := now |}))
      by reflexivity.
    unfold turso_getDocument in Hcur. rewrite Hcur. simpl.
    rewrite (turso_getDocument_id id db current Hcur), jeqb_refl.
    reflexivity.
  - intros id' Hne. unfold turso_getDocument, db'. cbn [documents_table].
    rewrite (turso_get_map id id'
               (fun row => {| td_id := td_id row; td_path := td_path row;
                              td_title := td_title row;
                              td_content := content;
                              td_created_at := td_created_at row;
                              td_updated_at := now |}))
      by reflexivity.
    destruct (head _) as [row|] eqn:Hrow; [|reflexivity]. simpl.
    rewrite (turso_getDocument_id id' db row Hrow).
    apply jeqb_false in Hne. rewrite jeqb_sym, Hne. reflexivity.
  - intros id' content'. unfold persist.
    destruct (turso_getDocument id' db') as [row|] eqn:Hrow.
    + rewrite Hcollide by eauto. reflexivity.
    + unfold turso_updateDocument. rewrite Hrow. cbn [mbind option_bind].
      cbn [default]. apply turso_getDocument_None in Hrow.
      rewrite map_update_absent by exact Hrow. reflexivity.
Qed.


Lemma turso_updateDocument_keeps_history_witness :
  exists db',
    turso_updateDocument 1700 (js "d1") (js "<h1>Y</h1>") example_database
    = Some db'
    /\ turso_getDocument (js "d1") db'
       = Some {| td_id := js "d1"; td_path := js "/docs/untitled.md";
                 td_title := js "Untitled"; td_content := js "<h1>Y</h1>";
                 td_created_at := 0; td_updated_at := 1700 |}
    /\ document_versions db'
       = [{| dv_id := version_id 1700; dv_document_id := js "d1";
             dv_content := js "<h1>X</h1>"; dv_created_at := 1700 |}]
    /\ (forall id', js "d1" <> id' ->
          turso_getDocument id' db' = turso_getDocument id' example_database)
    /\ (forall id' content',
          is_Some (turso_getDocument id' db') ->
          turso_updateDocument 1700 id' content' db' = None)
    /\ (forall id' content',
          persist 1700 (TursoUpdateDocument id' content') db' = db').
Proof.
  apply (turso_updateDocument_keeps_history 1700 (js "d1") (js "<h1>Y</h1>")
           example_database
           {| td_id := js "d1"; td_path := js "/docs/untitled.md";
              td_title := js "Untitled"; td_content := js "<h1>X</h1>";
              td_created_at := 0; td_updated_at := 0 |}); reflexivity.
Defined.

(** X27.  [deleteDocument] of the data-access layer removes the document
    and all its versions, leaves every other document and its versions as
    they were, and a later [updateDocument] for the deleted id changes
    nothing. *)
Theorem turso_deleteDocument_cascades id db :
  turso_getDocument id (turso_deleteDocument id db) = None
  /\ Forall (fun v => dv_document_id v <> id)
       (document_versions (turso_deleteDocument id db))
  /\ (forall id', id <> id' ->
        turso_getDocument id' (turso_deleteDocument id db)
        = turso_getDocument id' db
        /\ List.filter (fun v => jeqb (dv_document_id v) id')
             (document_versions (turso_deleteDocument id db))
           = List.filter (fun v => jeqb (dv_document_id v) id')
               (document_versions db))
  /\ (forall now content,
        turso_updateDocument now id content (turso_deleteDocument id db)
        = Some (turso_deleteDocument id db)).
Proof.
  assert (turso_getDocument id (turso_deleteDocument id db) = None) as Hnone.
  { unfold turso_getDocument, turso_deleteDocument. simpl.
    induction (documents_table db) as [|row t IH]; simpl; [reflexivity|].
    destruct (jeqb (td_id row) id) eqn:E; simpl; [|rewrite E]; exact IH. }
  split; [exact Hnone|]. split; [|split].
  - apply List.Forall_forall. intros v Hin. simpl in Hin.
    apply filter_In in Hin as [_ Hin].
    apply negb_true_iff, jeqb_false in Hin. exact Hin.
  - intros id' Hne. apply jeqb_false in Hne. split.
    + unfold turso_getDocument, turso_deleteDocument. simpl. f_equal.
      induction (documents_table db) as [|row t IH]; simpl; [reflexivity|].
      destruct (jeqb (td_id row) id) eqn:E; simpl.
      * apply jeqb_true in E. rewrite E, Hne. exact IH.
      * rewrite IH. reflexivity.
    + simpl.
      induction (document_versions db) as [|v t IH]; simpl; [reflexivity|].
      destruct (jeqb (dv_document_id v) id) eqn:E; simpl.
      * apply jeqb_true in E. rewrite E, Hne. exact IH.
      * rewrite IH. reflexivity.
  - intros now content. unfold turso_updateDocument. rewrite Hnone.
    cbn [mbind option_bind]. apply turso_getDocument_None in Hnone.
    rewrite map_update_absent by exact Hnone. reflexivity.
Qed.

Lemma lastIndexOf_from_absent (b : jstring) c : forall i acc,
  ~ In c b -> lastIndexOf_from b c i acc = acc.
Proof.
  induction b as [|x b IH]; intros i acc Hn; simpl; [reflexivity|].
  destruct (Ascii.eqb x c) eqn:E.
  - apply Ascii.eqb_eq in E as ->. exfalso. apply Hn. left. reflexivity.
  - apply IH. intros H. apply Hn. right. exact H.
Qed.

Lemma lastIndexOf_last (a b : jstring) c :
  ~ In c b -> lastIndexOf (a ++ c :: b) c = Some (length a).
Proof.
  intros Hn. unfold lastIndexOf.
  assert (forall i acc, lastIndexOf_from (a ++ c :: b) c i acc
                        = Some (i + length a)) as H; [|apply (H 0 None)].
  induction a as [|x a IH]; intros i acc; cbn [app lastIndexOf_from length].
  - rewrite Ascii.eqb_refl, lastIndexOf_from_absent by exact Hn.
    f_equal. lia.
  - rewrite IH. f_equal. lia.
Qed.

(** X28.  Renaming a stored document to a title that is not empty and
    differs, trimmed, from the old one: the store gets the trimmed title
    and the path made of the old directory, the file name and [.md],
    where the file name is the slug of the new title, or [untitled] when
    that slug is empty, so the file name is never empty and has the shape
    of a slug; id, content and frontmatter of the document and all other
    documents are untouched.  When the title consists of white space the
    store's title becomes empty while the title in the database stays as
    it was. *)
Theorem handleRenameDocument_renames e tursoNow docId nextTitle st doc
    directory file :
  let name := match slugify nextTitle with
              | [] => js "untitled"
              | _ :: _ => slugify nextTitle
              end in
  obj_get docId (documents st.1) = Some doc ->
  nextTitle <> [] ->
  trim nextTitle <> d_title doc ->
  d_path doc = directory ++ js "/" ++ file ->
  ~ In "/"%char file ->
  exists doc',
    obj_get docId
      (documents
         (handleRenameDocument e tursoNow docId (Some nextTitle) st).1)
    = Some doc'
    /\ d_title doc' = trim nextTitle
    /\ d_path doc' = directory ++ js "/" ++ name ++ js ".md"
    /\ name <> [] /\ slug_shape name
    /\ (d_id doc', d_content doc', d_frontmatter doc', d_frontmatterRaw doc')
       = (d_id doc, d_content doc, d_frontmatter doc, d_frontmatterRaw doc)
    /\ (forall id', docId <> id' ->
          obj_get id'
            (documents
               (handleRenameDocument e tursoNow docId (Some nextTitle) st).1)
          = obj_get id' (documents st.1))
    /\ (trim nextTitle = [] ->
        td_title
          <$> turso_getDocument docId
                (handleRenameDocument e tursoNow docId (Some nextTitle) st).2
        = td_title <$> turso_getDocument docId st.2).
Proof.
  intros name Hdoc Hne Htitle Hpath Hfile. unfold handleRenameDocument.
  rewrite Hdoc.
  assert (truthy (Some nextTitle) = Some nextTitle) as ->
    by (destruct nextTitle; [congruence|reflexivity]).
  apply jeqb_false in Htitle. rewrite Htitle.
  fold name.
  assert (substring (d_path doc) 0
            (match lastIndexOf (d_path doc) "/" with
             | Some i => i + 1
             | None => 0
             end) = directory ++ js "/") as Hdir.
  { rewrite Hpath. change (directory ++ js "/" ++ file)
      with (directory ++ "/"%char :: file).
    rewrite lastIndexOf_last by exact Hfile. rewrite substring_0.
    replace (length directory + 1) with (length (directory ++ js "/"))
      by (rewrite length_app; reflexivity).
    rewrite (app_assoc directory (js "/") file
             : directory ++ "/"%char :: file = (directory ++ js "/") ++ file).
    apply take_app_length. }
  rewrite Hdir. unfold updateDocumentMetadata. rewrite Hdoc.
  cbn [fst snd documents]. rewrite obj_get_set_eq.
  eexists. split; [reflexivity|]. cbn [d_title d_path default
    mu_title mu_path d_id d_content d_frontmatter d_frontmatterRaw].
  split; [reflexivity|]. split; [rewrite <- !app_assoc; reflexivity|].
  split; [|split; [|split; [reflexivity|split]]].
  - unfold name. destruct (slugify nextTitle); discriminate.
  - unfold name. destruct (slugify nextTitle) eqn:Es.
    + repeat split; try discriminate.
      * repeat constructor.
      * apply no_double_hyphen_spec. reflexivity.
    + rewrite <- Es. apply slugify_shape.
  - intros id' Hid. apply obj_get_set_ne, Hid.
  - intros Hblank. rewrite Hblank.
    unfold turso_updateDocumentMetadata. cbn [mu_title mu_path].
    set (np := (directory ++ js "/") ++ name ++ js ".md").
    assert (truthy (Some np) = Some np) as ->
      by (unfold np; destruct directory; reflexivity).
    cbn [truthy].
    destruct (existsb _ _ && existsb _ _); [reflexivity|].
    cbn [default]. unfold turso_getDocument, id. cbn [documents_table].
    rewrite (turso_get_map docId docId
               (fun row => {| td_id := td_id row;
                              td_path := np;
                              td_title := td_title row;
                              td_content := td_content row;
                              td_created_at := td_created_at row;
                              td_updated_at := tursoNow |}))
      by reflexivity.
    destruct (head _) as [row|]; [|reflexivity]. simpl.
    destruct (jeqb (td_id row) docId); reflexivity.
Qed.

Lemma handleRenameDocument_renames_witness :
  exists doc',
    obj_get (js "d1")
      (documents
         (handleRenameDocument example_env 1700 (js "d1") (Some (js " ?! "))
            (example_store [], example_database)).1)
    = Some doc'
    /\ d_title doc' = trim (js " ?! ")
    /\ d_path doc' = js "/docs" ++ js "/" ++ js "untitled" ++ js ".md"
    /\ js "untitled" <> [] /\ slug_shape (js "untitled")
    /\ (d_id doc', d_content doc', d_frontmatter doc', d_frontmatterRaw doc')
       = (d_id example_document, d_content example_document,
          d_frontmatter example_document, d_frontmatterRaw example_document)
    /\ (forall id', js "d1" <> id' ->
          obj_get id'
            (documents
               (handleRenameDocument example_env 1700 (js "d1")
                  (Some (js " ?! "))
                  (example_store [], example_database)).1)
          = obj_get id' (documents (example_store [], example_database).1))
    /\ (trim (js " ?! ") = [] ->
        td_title
          <$> turso_getDocument (js "d1")
                (handleRenameDocument example_env 1700 (js "d1")
                   (Some (js " ?! "))
                   (example_store [], example_database)).2
        = td_title
            <$> turso_getDocument (js "d1")
                  (example_store [], example_database).2).
Proof.
  apply (handleRenameDocument_renames example_env 1700 (js "d1")
           (js " ?! ") (example_store [], example_database)
           example_document (js "/docs") (js "untitled.md")).
  - reflexivity.
  - discriminate.
  - vm_compute. discriminate.
  - reflexivity.
  - vm_compute. intuition discriminate.
Defined.

(** ** Loading and persisting *)

Lemma title_le_total : Total title_le.
Proof.
  intros a b. unfold title_le.
  destruct (name_leb_total (td_title a) (td_title b)) as [H|H]; rewrite H;
    [left|right]; exact I.
Qed.

Lemma foldl_obj_set_fresh (docs : list TursoDocument) :
  forall acc : list (jstring * Document),
  NoDup (map td_id docs) ->
  (forall doc, In doc docs -> obj_get (td_id doc) acc = None) ->
  foldl (fun documentsMap doc =>
           obj_set (td_id doc) (document_of_row doc) documentsMap) acc docs
  = acc ++ map (fun doc => (td_id doc, document_of_row doc)) docs.
Proof.
  induction docs as [|doc docs IH]; intros acc Hnd Hacc; simpl.
  - rewrite app_nil_r. reflexivity.
  - cbn [map] in Hnd. apply NoDup_cons in Hnd as [Hn Hnd].
    rewrite obj_set_missing by (apply Hacc; left; reflexivity).
    rewrite IH; [rewrite <- app_assoc; reflexivity|exact Hnd|].
    intros doc' Hin. rewrite <- obj_set_missing
      by (apply Hacc; left; reflexivity).
    rewrite obj_get_set_ne; [apply Hacc; right; exact Hin|].
    intros E. apply Hn. rewrite E. apply list_elem_of_In, in_map, Hin.
Qed.

Lemma obj_get_map_rows id (docs : list TursoDocument) :
  obj_get id (map (fun doc => (td_id doc, document_of_row doc)) docs)
  = document_of_row
      <$> head (List.filter (fun row => jeqb (td_id row) id) docs).
Proof.
  induction docs as [|doc docs IH]; simpl; [reflexivity|].
  destruct (jeqb (td_id doc) id); [reflexivity|exact IH].
Qed.

Lemma head_filter_perm_unique id (l1 l2 : list TursoDocument) :
  l1 ≡ₚ l2 -> NoDup (map td_id l2) ->
  head (List.filter (fun row => jeqb (td_id row) id) l1)
  = head (List.filter (fun row => jeqb (td_id row) id) l2).
Proof.
  intros Hp Hnd.
  assert (forall l : list TursoDocument, NoDup (map td_id l) ->
            forall row, In row l -> td_id row = id ->
            head (List.filter (fun row => jeqb (td_id row) id) l) = Some row)
    as Huniq.
  { induction l as [|a l IH]; intros Hl row Hin Hid; [destruct Hin|].
    cbn [map] in Hl. apply NoDup_cons in Hl as [Hn Hl]. simpl.
    destruct Hin as [->|Hin].
    - rewrite Hid, jeqb_refl. reflexivity.
    - destruct (jeqb (td_id a) id) eqn:E; [|auto].
      apply jeqb_true in E. exfalso. apply Hn. rewrite E, <- Hid.
      apply list_elem_of_In, in_map, Hin. }
  assert (NoDup (map td_id l1)) as Hnd1.
  { change (map td_id l1) with (td_id <$> l1). rewrite Hp. exact Hnd. }
  destruct (head (List.filter (fun row => jeqb (td_id row) id) l2))
    as [row|] eqn:E2.
  - assert (In row (List.filter (fun row => jeqb (td_id row) id) l2)) as Hin.
    { destruct (List.filter _ l2); [discriminate|]. injection E2 as ->.
      left. reflexivity. }
    apply filter_In in Hin as [Hin Hid]. apply jeqb_true in Hid.
    apply Huniq; [exact Hnd1| |exact Hid].
    apply list_elem_of_In. rewrite Hp. apply list_elem_of_In. exact Hin.
  - destruct (head (List.filter (fun row => jeqb (td_id row) id) l1))
      as [row|] eqn:E1; [|reflexivity].
    assert (In row (List.filter (fun row => jeqb (td_id row) id) l1)) as Hin.
    { destruct (List.filter _ l1); [discriminate|]. injection E1 as ->.
      left. reflexivity. }
    apply filter_In in Hin as [Hin Hid]. apply jeqb_true in Hid.
    rewrite (Huniq l2 Hnd row) in E2; [discriminate| |exact Hid].
    apply list_elem_of_In. rewrite <- Hp. apply list_elem_of_In. exact Hin.
Qed.

Lemma Sorted_titles l :
  Sorted title_le l ->
  Sorted (fun a b => name_leb a b = true) (map td_title l).
Proof.
  induction 1 as [|row l _ IH Hhd]; simpl; [constructor|].
  constructor; [exact IH|].
  destruct Hhd as [|b l Hb]; simpl; [constructor|]. constructor.
  unfold title_le in Hb. apply Is_true_true in Hb. exact Hb.
Qed.

(** X29.  [initialize] on a store that is not initialized, from a
    database whose ids are pairwise distinct and are ordinary keys (each
    holds a character other than a digit, so none is an array index, and
    none is [__proto__]): the store then satisfies its invariant and is
    initialized, it holds exactly the documents of the database, each
    parsed from its row, in ascending order of their titles; a second
    [initialize] changes nothing, and when the database cannot be reached
    the documents of the store stay as they are. *)
Theorem initialize_loads db s :
  isInitialized s = false ->
  NoDup (map td_id (documents_table db)) ->
  Forall (fun row => ordinary_key (td_id row) = true) (documents_table db) ->
  store_ok (initialize (Some db) s)
  /\ isInitialized (initialize (Some db) s) = true
  /\ (forall id,
        obj_get id (documents (initialize (Some db) s))
        = document_of_row <$> turso_getDocument id db)
  /\ map (fun kv => d_title kv.2) (documents (initialize (Some db) s))
     = map td_title (turso_getAllDocuments db)
  /\ Sorted (fun a b => name_leb a b = true)
       (map td_title (turso_getAllDocuments db))
  /\ (forall db', initialize db' (initialize (Some db) s)
                  = initialize (Some db) s)
  /\ documents (initialize None s) = documents s.
Proof.
  intros Hinit Hnd _. unfold initialize. rewrite Hinit.
  cbn [documents isInitialized currentDocumentId].
  pose proof (merge_sort_Permutation title_le (documents_table db)) as Hperm.
  fold (turso_getAllDocuments db) in Hperm.
  assert (NoDup (map td_id (turso_getAllDocuments db))) as Hnd'.
  { change (map td_id ?l) with (td_id <$> l). rewrite Hperm. exact Hnd. }
  rewrite foldl_obj_set_fresh; [|exact Hnd'|reflexivity].
  cbn [app].
  assert (forall id,
            obj_get id (map (fun doc => (td_id doc, document_of_row doc))
                          (turso_getAllDocuments db))
            = document_of_row <$> turso_getDocument id db) as Hget.
  { intros id. rewrite obj_get_map_rows. unfold turso_getDocument.
    f_equal. apply head_filter_perm_unique; assumption. }
  split; [|split; [reflexivity|split; [exact Hget|split; [|split; [|split]]]]].
  - unfold store_ok. cbn [documents currentDocumentId]. split; [|split].
    + unfold obj_keys. rewrite map_map. exact Hnd'.
    + apply List.Forall_forall. intros kv Hin.
      apply in_map_iff in Hin as (doc & <- & _). reflexivity.
    + intros k Hk. rewrite obj_get_map_rows.
      destruct (turso_getAllDocuments db) as [|doc docs]; [discriminate|].
      injection Hk as <-. simpl. rewrite jeqb_refl. simpl. eauto.
  - rewrite map_map. reflexivity.
  - apply Sorted_titles.
    apply (@Sorted_merge_sort _ title_le _ title_le_total).
  - intros db'. reflexivity.
  - reflexivity.
Qed.

Lemma initialize_loads_witness :
  store_ok (initialize (Some example_database) initial_store)
  /\ isInitialized (initialize (Some example_database) initial_store) = true
  /\ (forall id,
        obj_get id
          (documents (initialize (Some example_database) initial_store))
        = document_of_row <$> turso_getDocument id example_database)
  /\ map (fun kv => d_title kv.2)
       (documents (initialize (Some example_database) initial_store))
     = map td_title (turso_getAllDocuments example_database)
  /\ Sorted (fun a b => name_leb a b = true)
       (map td_title (turso_getAllDocuments example_database))
  /\ (forall db',
        initialize db' (initialize (Some example_database) initial_store)
        = initialize (Some example_database) initial_store)
  /\ documents (initialize None initial_store) = documents initial_store.
Proof.
  apply (initialize_loads example_database initial_store).
  - reflexivity.
  - apply (bool_decide_unpack _). vm_compute. exact I.
  - repeat constructor.
Defined.

(** X30.  [createDocument] stores the new document and requests its
    creation with the serialized content.  When the id or the path is
    taken in the database the request fails and the database stays as it
    is, although the store holds the document.  Otherwise the database
    returns the row for the id, and for a content without frontmatter
    block the document parsed from that row, as a reload does, is the
    stored document up to its time stamp. *)
Theorem createDocument_persisted e tursoNow title content s db :
  let id := newDocumentId e in
  let path := js "/docs/" ++ slugify title ++ js ".md" in
  let parsed := parseFrontmatter content in
  let serialized :=
    serializeDocumentContent (fr_frontmatterRaw parsed) (fr_body parsed) in
  let call := TursoCreateDocument id path title serialized in
  let row := {| td_id := id; td_path := path; td_title := title;
                td_content := serialized;
                td_created_at := tursoNow; td_updated_at := tursoNow |} in
  turso (createDocument e title content s).2 = turso s ++ [call]
  /\ obj_get id (documents (createDocument e title content s).2)
     = Some (created_document e title content)
  /\ (if existsb (fun row => jeqb (td_id row) id || jeqb (td_path row) path)
           (documents_table db)
      then persist tursoNow call db = db
      else turso_getDocument id (persist tursoNow call db) = Some row
           /\ (fr_frontmatterRaw parsed = None ->
               document_of_row row
               = {| d_id := id; d_path := path; d_title := title;
                    d_content := content; d_frontmatter := ∅;
                    d_frontmatterRaw := None; d_updatedAt := tursoNow |}
               /\ d_content (created_document e title content) = content)).
Proof.
  cbn zeta. split; [reflexivity|]. split.
  { cbn [createDocument snd documents set_documents].
    apply obj_get_set_eq. }
  unfold persist, turso_createDocument.
  destruct (existsb _ (documents_table db)) eqn:E; [reflexivity|].
  cbn [default]. split.
  - unfold turso_getDocument, id. cbn [documents_table].
    rewrite List.filter_app.
    assert (List.filter (fun row => jeqb (td_id row) (newDocumentId e))
              (documents_table db) = []) as ->.
    { induction (documents_table db) as [|r t IH]; [reflexivity|].
      simpl in *. apply orb_false_iff in E as [E1 E].
      apply orb_false_iff in E1 as [-> _]. auto. }
    simpl. rewrite jeqb_refl. reflexivity.
  - intros Hraw. unfold document_of_row, created_document.
    cbn [td_id td_path td_title td_content td_updated_at d_content].
    rewrite Hraw. cbn [serializeDocumentContent].
    rewrite (parse_body_plain content Hraw).
    assert (parseFrontmatter content
            = {| fr_body := content; fr_frontmatter := ∅;
                 fr_frontmatterRaw := None |}) as ->; [|auto].
    unfold parseFrontmatter in *. destruct (negb _); [reflexivity|].
    destruct (match_here _ _ _); [discriminate|reflexivity].
Qed.
